(** * Fixed-capacity resource managers: LRU cache and fixed-block memory pool

    A shallow embedding of [lru_cache.hpp] (class [LRUCache]) and
    [memory_pool.hpp] (class [MemoryPool]), with the properties of the
    specification stated and proved over the embedded code.

    Conventions of the embedding
    - [size_t] is a 64-bit unsigned integer (LP64): a [Z] in [0, 2^64) whose
      arithmetic wraps around; a pointer is a 64-bit address, [0] being
      [nullptr]; [sizeof(FreeBlock)] is 8.
    - [double] is IEEE 754 binary64, computed with the executable
      specification of the Standard Library ([SpecFloat]).
    - a C++ exception and undefined behaviour are explicit outcomes of a call.
    - [std::list] iterators are node handles: a node keeps its handle while
      it is moved inside the list ([splice]), as in C++. *)

From stdpp Require Import gmap strings list.
From Stdlib Require Import ZArith Lia.
From Stdlib Require Import QArith Qabs Qpower Lqa SpecFloat.

Local Open Scope Z_scope.

(** ** Machine integers and outcomes *)

Definition SIZE_WIDTH : Z := 64.
Definition SIZE_MODULUS : Z := 2 ^ SIZE_WIDTH.

(** Reduction of a mathematical result to [size_t]. *)
Definition size_wrap (x : Z) : Z := x mod SIZE_MODULUS.

(** [++x] and [--x] on a [size_t]. *)
Definition size_incr (x : Z) : Z := size_wrap (x + 1).
Definition size_decr (x : Z) : Z := size_wrap (x - 1).

Inductive exception : Type :=
  | invalid_argument (what : string)
  | bad_alloc.

(** The outcome of a call: a value, a thrown exception, or undefined
    behaviour (an invalid iterator or an indeterminate value is used). *)
Inductive outcome (A : Type) : Type :=
  | Ok (a : A)
  | Throw (e : exception)
  | Undefined.
Arguments Ok {A} a.
Arguments Throw {A} e.
Arguments Undefined {A}.

Definition outcome_bind {A B : Type} (f : A → outcome B) (m : outcome A) : outcome B :=
  match m with
  | Ok a => f a
  | Throw e => Throw e
  | Undefined => Undefined
  end.

#[global] Instance outcome_mbind : MBind outcome := @outcome_bind.
#[global] Instance outcome_mret : MRet outcome := @Ok.

(** An [option] read as an outcome whose [None] is undefined behaviour. *)
Definition defined {A : Type} (o : option A) : outcome A :=
  match o with
  | Some a => Ok a
  | None => Undefined
  end.

(** ** IEEE 754 binary64 ([double])

    The operations are those of the Standard Library's executable
    specification of IEEE 754 arithmetic, at precision 53 and exponent
    bound 1024, rounding to nearest, ties to even. *)

Definition double : Type := spec_float.
Definition double_prec : Z := 53.
Definition double_emax : Z := 1024.

Definition double_mul (x y : double) : double := SFmul double_prec double_emax x y.
Definition double_div (x y : double) : double := SFdiv double_prec double_emax x y.

(** Conversion of an unsigned integer to [double]. *)
Definition double_of_size (n : Z) : double :=
  binary_normalize double_prec double_emax n 0 false.

(** *** The value of a double

    A finite double is the rational number [m * 2^e], with its sign.  The
    rounding of the operations is stated on rational numbers. *)

Definition bpow (e : Z) : Q := Qpower 2 e.

Definition double_value (x : double) : option Q :=
  match x with
  | S754_zero _ => Some 0%Q
  | S754_finite s m e =>
      Some (if s then - (inject_Z (Z.pos m) * bpow e) else inject_Z (Z.pos m) * bpow e)%Q
  | _ => None
  end.

(** [x] lies at the position [l] of the interval from [m * 2^e] to
    [(m + 1) * 2^e]: on its lower end, below, at or above its middle. *)
Definition located (x : Q) (m e : Z) (l : location) : Prop :=
  match l with
  | loc_Exact => (x == inject_Z m * bpow e)%Q
  | loc_Inexact Lt =>
      (inject_Z m * bpow e < x ∧ x < (inject_Z m + (1 # 2)) * bpow e)%Q
  | loc_Inexact Eq => (x == (inject_Z m + (1 # 2)) * bpow e)%Q
  | loc_Inexact Gt =>
      ((inject_Z m + (1 # 2)) * bpow e < x ∧ x < (inject_Z m + 1) * bpow e)%Q
  end.

Definition shr_inv (x : Q) (mrs : shr_record) (e : Z) : Prop :=
  0 ≤ shr_m mrs ∧ located x (shr_m mrs) e (loc_of_shr_record mrs).

(** The unit roundoff of binary64, [2^-53]. *)
Definition u53 : Q := 1 # 9007199254740992.

(** [f] is a positive normal double within relative distance [u53] of [x],
    of exponent [e0] or [e0 + 1]. *)
Definition rounded (x : Q) (f : double) (e0 : Z) : Prop :=
  ∃ m e,
    f = S754_finite false m e
    ∧ 2 ^ 52 ≤ Z.pos m < 2 ^ 53
    ∧ e0 ≤ e ≤ e0 + 1
    ∧ (Qabs (inject_Z (Z.pos m) * bpow e - x) <= x * u53)%Q.

(** The hit rate as the specification words it, in exact arithmetic:
    hits / (hits + misses) x 100, and 0 when there was no lookup. *)
Definition hit_rate_exact (hits misses : Z) : Q :=
  if hits + misses =? 0 then 0%Q
  else (inject_Z hits / inject_Z (hits + misses) * 100)%Q.

(** ** The LRU cache ([lru_cache.hpp]) *)

Module LRU.

(** A [std::list] iterator: the identity of a list node. *)
Definition ListIterator : Type := nat.

Section Cache.
Context {Key : Type} `{Countable Key} {Value : Type}.

Definition CacheItem : Type := Key * Value.

(** [std::list<CacheItem>]: the nodes from front to back, each with its
    handle. *)
Definition CacheList : Type := list (ListIterator * CacheItem).

Record LRUCache : Type := mkLRUCache {
  capacity_ : Z;
  cache_list_ : CacheList;
  cache_map_ : gmap Key ListIterator;
  hits_ : Z;
  misses_ : Z;
  evictions_ : Z
}.

(** *** [std::list] operations on nodes *)

(** [*it]: the item of the node [it]; no value when [it] is not a node of
    the list. *)
Fixpoint node_item (it : ListIterator) (l : CacheList) : option CacheItem :=
  match l with
  | [] => None
  | (it', kv) :: l' => if decide (it' = it) then Some kv else node_item it l'
  end.

(** The list without the node [it]. *)
Fixpoint unlink (it : ListIterator) (l : CacheList) : CacheList :=
  match l with
  | [] => []
  | (it', kv) :: l' => if decide (it' = it) then l' else (it', kv) :: unlink it l'
  end.

(** [l.splice(l.begin(), l, it)]: the node [it] is moved to the front and
    keeps its handle. *)
Definition splice_front (it : ListIterator) (l : CacheList) : option CacheList :=
  kv ← node_item it l; Some ((it, kv) :: unlink it l).

(** [it->second = value]. *)
Fixpoint assign_second (it : ListIterator) (value : Value) (l : CacheList)
  : option CacheList :=
  match l with
  | [] => None
  | (it', kv) :: l' =>
      if decide (it' = it) then Some ((it', (kv.1, value)) :: l')
      else l'' ← assign_second it value l'; Some ((it', kv) :: l'')
  end.

(** The handle of a node allocated by [emplace_front]: any handle carried by
    no node of the list; the embedding takes the least one above them all. *)
Definition fresh_iterator (l : CacheList) : ListIterator :=
  S (foldr (λ n acc, Nat.max n.1 acc) 0%nat l).

(** [cache_list_.size()] *)
Definition size (c : LRUCache) : Z := Z.of_nat (length (cache_list_ c)).

Definition capacity (c : LRUCache) : Z := capacity_ c.

(** *** Constructor *)

Definition LRUCache_new (capacity : Z) : outcome LRUCache :=
  if capacity =? 0 then Throw (invalid_argument "Cache capacity must be > 0")
  else Ok {| capacity_ := capacity; cache_list_ := []; cache_map_ := ∅;
             hits_ := 0; misses_ := 0; evictions_ := 0 |}.

(** *** [get] *)

Definition get (key : Key) (c : LRUCache) : outcome (option Value * LRUCache) :=
  match cache_map_ c !! key with
  | None =>
      Ok (None, {| capacity_ := capacity_ c; cache_list_ := cache_list_ c;
                   cache_map_ := cache_map_ c; hits_ := hits_ c;
                   misses_ := size_incr (misses_ c); evictions_ := evictions_ c |})
  | Some it =>
      l' ← defined (splice_front it (cache_list_ c));
      kv ← defined (node_item it l');
      Ok (Some kv.2, {| capacity_ := capacity_ c; cache_list_ := l';
                        cache_map_ := cache_map_ c; hits_ := size_incr (hits_ c);
                        misses_ := misses_ c; evictions_ := evictions_ c |})
  end.

(** *** [evict_lru] and [put] *)

Definition evict_lru (c : LRUCache) : LRUCache :=
  match last (cache_list_ c) with
  | None => c
  | Some (_, (key, _)) =>
      {| capacity_ := capacity_ c; cache_list_ := removelast (cache_list_ c);
         cache_map_ := delete key (cache_map_ c); hits_ := hits_ c;
         misses_ := misses_ c; evictions_ := size_incr (evictions_ c) |}
  end.

Definition put (key : Key) (value : Value) (c : LRUCache) : outcome LRUCache :=
  match cache_map_ c !! key with
  | Some it =>
      l1 ← defined (assign_second it value (cache_list_ c));
      l2 ← defined (splice_front it l1);
      Ok {| capacity_ := capacity_ c; cache_list_ := l2;
            cache_map_ := cache_map_ c; hits_ := hits_ c;
            misses_ := misses_ c; evictions_ := evictions_ c |}
  | None =>
      let c1 := if size c >=? capacity_ c then evict_lru c else c in
      let it := fresh_iterator (cache_list_ c1) in
      Ok {| capacity_ := capacity_ c1;
            cache_list_ := (it, (key, value)) :: cache_list_ c1;
            cache_map_ := <[key := it]> (cache_map_ c1); hits_ := hits_ c1;
            misses_ := misses_ c1; evictions_ := evictions_ c1 |}
  end.

(** *** [hit_rate] *)

Definition hit_rate (c : LRUCache) : double :=
  if size_wrap (hits_ c + misses_ c) =? 0 then S754_zero false
  else double_div (double_mul (double_of_size (hits_ c)) (double_of_size 100))
                  (double_of_size (size_wrap (hits_ c + misses_ c))).

(** *** [clear], [reset_stats] *)

Definition clear (c : LRUCache) : LRUCache :=
  {| capacity_ := capacity_ c; cache_list_ := []; cache_map_ := ∅;
     hits_ := hits_ c; misses_ := misses_ c; evictions_ := evictions_ c |}.

Definition reset_stats (c : LRUCache) : LRUCache :=
  {| capacity_ := capacity_ c; cache_list_ := cache_list_ c;
     cache_map_ := cache_map_ c; hits_ := 0; misses_ := 0; evictions_ := 0 |}.

(** The keys of the recency sequence, most recently used first. *)
Definition keys (c : LRUCache) : list Key := (λ n, n.2.1) <$> cache_list_ c.

(** The items of the recency sequence, most recently used first. *)
Definition items (c : LRUCache) : list CacheItem := snd <$> cache_list_ c.

(** *** Call sequences and the representation invariant *)

(** A sequence of [put] calls, first call first. *)
Fixpoint put_all (calls : list (Key * Value)) (c : LRUCache) : outcome LRUCache :=
  match calls with
  | [] => Ok c
  | (key, value) :: calls' => c' ← put key value c; put_all calls' c'
  end.

(** The representation invariant of the class: the nodes of the list are
    distinct, the index maps exactly the keys of the list, each to its node,
    and the list is no longer than the capacity. *)
Record wf (c : LRUCache) : Prop := mk_wf {
  wf_nodes : NoDup (cache_list_ c).*1;
  wf_index : ∀ key it,
    cache_map_ c !! key = Some it ↔ ∃ value, (it, (key, value)) ∈ cache_list_ c;
  wf_size : size c ≤ capacity_ c;
  wf_capacity : 0 < capacity_ c
}.

(** *** Sequences of calls of any kind *)

Inductive call : Type :=
  | Get (key : Key)
  | Put (key : Key) (value : Value)
  | Clear
  | ResetStats.

(** A sequence of calls on a cache, first call first; the values returned
    by [get] are dropped. *)
Fixpoint run (calls : list call) (c : LRUCache) : outcome LRUCache :=
  match calls with
  | [] => Ok c
  | Get key :: calls' => r ← get key c; run calls' r.2
  | Put key value :: calls' => c' ← put key value c; run calls' c'
  | Clear :: calls' => run calls' (clear c)
  | ResetStats :: calls' => run calls' (reset_stats c)
  end.

(** The number of [get] calls of a sequence. *)
Fixpoint count_get (calls : list call) : Z :=
  match calls with
  | [] => 0
  | Get _ :: calls' => 1 + count_get calls'
  | _ :: calls' => count_get calls'
  end.

(** Two caches with the same capacity, list and index; the counters may
    differ. *)
Definition same_contents (c d : LRUCache) : Prop :=
  capacity_ c = capacity_ d
  ∧ cache_list_ c = cache_list_ d
  ∧ cache_map_ c = cache_map_ d.

End Cache.

Arguments LRUCache Key {_ _} Value.
Arguments CacheList Key Value : clear implicits.
Arguments call Key Value : clear implicits.

(** The cache of [test_lru_cache] ([main.cpp]) after its three [put]
    calls. *)
Definition demo_cache : LRUCache Z string :=
  {| capacity_ := 3;
     cache_list_ := [(3%nat, (3, "Charlie")); (2%nat, (2, "Bob"));
                     (1%nat, (1, "Alice"))];
     cache_map_ := {[1 := 1%nat; 2 := 2%nat; 3 := 3%nat]};
     hits_ := 0; misses_ := 0; evictions_ := 0 |}.

End LRU.

(** ** The pointer cache ([LRUCachePtr], [lru_cache.hpp]) *)

Module LRUPtr.

Section CachePtr.
Context {Key : Type} `{Countable Key}.

(** A value is a pointer [Value*]: an address, [0] being [nullptr].  The
    deleter is a callback of the caller: the embedding records whether one
    was given, and a call returns the pointers the deleter was invoked on,
    in order. *)
Record LRUCachePtr : Type := mkLRUCachePtr {
  capacity_ : Z;
  cache_list_ : LRU.CacheList Key Z;
  cache_map_ : gmap Key LRU.ListIterator;
  deleter_ : bool
}.

(** [if (deleter_) deleter_(ptr)] *)
Definition release (c : LRUCachePtr) (ptr : Z) : list Z :=
  if deleter_ c then [ptr] else [].

Definition LRUCachePtr_new (capacity : Z) (deleter : bool) : outcome LRUCachePtr :=
  if capacity =? 0 then Throw (invalid_argument "Cache capacity must be > 0")
  else Ok {| capacity_ := capacity; cache_list_ := []; cache_map_ := ∅;
             deleter_ := deleter |}.

(** The destructor: the deleter is invoked on every value of the list, from
    front to back. *)
Definition LRUCachePtr_delete (c : LRUCachePtr) : list Z :=
  if deleter_ c then (λ n, n.2.2) <$> cache_list_ c else [].

Definition get (key : Key) (c : LRUCachePtr) : outcome (Z * LRUCachePtr) :=
  match cache_map_ c !! key with
  | None => Ok (0, c)
  | Some it =>
      l' ← defined (LRU.splice_front it (cache_list_ c));
      kv ← defined (LRU.node_item it l');
      Ok (kv.2, {| capacity_ := capacity_ c; cache_list_ := l';
                   cache_map_ := cache_map_ c; deleter_ := deleter_ c |})
  end.

Definition put (key : Key) (value : Z) (c : LRUCachePtr)
  : outcome (list Z * LRUCachePtr) :=
  match cache_map_ c !! key with
  | Some it =>
      old ← defined (LRU.node_item it (cache_list_ c));
      l1 ← defined (LRU.assign_second it value (cache_list_ c));
      l2 ← defined (LRU.splice_front it l1);
      Ok (release c old.2,
          {| capacity_ := capacity_ c; cache_list_ := l2;
             cache_map_ := cache_map_ c; deleter_ := deleter_ c |})
  | None =>
      if Z.of_nat (length (cache_list_ c)) >=? capacity_ c then
        back ← defined (last (cache_list_ c));
        let l1 := removelast (cache_list_ c) in
        let it := LRU.fresh_iterator l1 in
        Ok (release c back.2.2,
            {| capacity_ := capacity_ c;
               cache_list_ := (it, (key, value)) :: l1;
               cache_map_ := <[key := it]> (delete back.2.1 (cache_map_ c));
               deleter_ := deleter_ c |})
      else
        let it := LRU.fresh_iterator (cache_list_ c) in
        Ok ([],
            {| capacity_ := capacity_ c;
               cache_list_ := (it, (key, value)) :: cache_list_ c;
               cache_map_ := <[key := it]> (cache_map_ c);
               deleter_ := deleter_ c |})
  end.

(** The same list, index and capacity in an [LRUCache], with the given
    counters. *)
Definition as_cache (c : LRUCachePtr) (hits misses evictions : Z)
  : LRU.LRUCache Key Z :=
  {| LRU.capacity_ := capacity_ c; LRU.cache_list_ := cache_list_ c;
     LRU.cache_map_ := cache_map_ c; LRU.hits_ := hits; LRU.misses_ := misses;
     LRU.evictions_ := evictions |}.

(** The representation invariant, that of [LRUCache]. *)
Definition wf (c : LRUCachePtr) : Prop := LRU.wf (as_cache c 0 0 0).

(** The pointers held by the cache, most recently used first. *)
Definition resident (c : LRUCachePtr) : list Z := (λ n, n.2.2) <$> cache_list_ c.

Inductive call : Type :=
  | Get (key : Key)
  | Put (key : Key) (value : Z).

(** A sequence of calls, first call first: the cache after it and the
    pointers the deleter was invoked on, in order. *)
Fixpoint run (calls : list call) (c : LRUCachePtr)
  : outcome (list Z * LRUCachePtr) :=
  match calls with
  | [] => Ok ([], c)
  | Get key :: calls' =>
      r ← get key c; r' ← run calls' r.2; Ok (r'.1, r'.2)
  | Put key value :: calls' =>
      r ← put key value c; r' ← run calls' r.2; Ok (r.1 ++ r'.1, r'.2)
  end.

(** The pointers given to [put] by a sequence of calls, in order. *)
Fixpoint put_values (calls : list call) : list Z :=
  match calls with
  | [] => []
  | Get _ :: calls' => put_values calls'
  | Put _ value :: calls' => value :: put_values calls'
  end.

End CachePtr.

Arguments LRUCachePtr Key {_ _}.
Arguments call Key : clear implicits.

(** A pointer cache of capacity 2 with a deleter, holding the pointers
    [200] and [100] under the keys [2] and [1]. *)
Definition demo_ptr_cache : LRUCachePtr Z :=
  {| capacity_ := 2;
     cache_list_ := [(2%nat, (2, 200)); (1%nat, (1, 100))];
     cache_map_ := {[1 := 1%nat; 2 := 2%nat]};
     deleter_ := true |}.

(** Calls on a pointer cache that overwrite a pointer and evict one. *)
Definition demo_ptr_calls : list (call Z) :=
  [Put 1 100; Put 2 200; Put 1 101; Get 2; Put 3 300].

End LRUPtr.

(** ** The memory pool ([memory_pool.hpp]) *)

Module Pool.

Definition sizeof_FreeBlock : Z := 8.

(** Pointer arithmetic on 64-bit addresses. *)
Definition ptr_wrap (a : Z) : Z := a mod SIZE_MODULUS.

(** *** Memory

    The memory of the process is a byte-addressed store: a finite map from
    addresses to bytes; an address outside the map holds an indeterminate
    value.  A [FreeBlock] is one pointer [next], stored in the 8 bytes from
    the block's address on, least significant byte first. *)

Fixpoint store_bytes (n : nat) (a v : Z) (mem : gmap Z Z) : gmap Z Z :=
  match n with
  | O => mem
  | S n' => <[a := v mod 256]> (store_bytes n' (a + 1) (v / 256) mem)
  end.

Fixpoint load_bytes (n : nat) (a : Z) (mem : gmap Z Z) : option Z :=
  match n with
  | O => Some 0
  | S n' => b ← mem !! a; r ← load_bytes n' (a + 1) mem; Some (b + 256 * r)
  end.

(** [block->next = v] for [block] at address [a]. *)
Definition store_next (a v : Z) (mem : gmap Z Z) : gmap Z Z :=
  store_bytes (Z.to_nat sizeof_FreeBlock) a v mem.

(** [block->next] for [block] at address [a]. *)
Definition load_next (a : Z) (mem : gmap Z Z) : option Z :=
  load_bytes (Z.to_nat sizeof_FreeBlock) a mem.

Record MemoryPool : Type := mkMemoryPool {
  memory_start_ : Z;
  block_size_ : Z;
  block_count_ : Z;
  free_list_ : Z;
  allocations_ : Z;
  deallocations_ : Z;
  current_usage_ : Z
}.

(** What the pool writes to [std::cerr]. *)
Inductive diagnostic : Type :=
  | pool_exhausted   (* "Memory pool exhausted!" *)
  | not_from_pool.   (* "Attempt to deallocate pointer not from this pool!" *)

(** *** [init_free_list] *)

(** The loop of [init_free_list], [n] iterations left. *)
Fixpoint init_free_list_loop (n : nat) (block_size current free_list : Z)
    (mem : gmap Z Z) : Z * gmap Z Z :=
  match n with
  | O => (free_list, mem)
  | S n' =>
      init_free_list_loop n' block_size (ptr_wrap (current - block_size))
        current (store_next current free_list mem)
  end.

Definition init_free_list (p : MemoryPool) (mem : gmap Z Z) : MemoryPool * gmap Z Z :=
  let current :=
    ptr_wrap (memory_start_ p
              + size_wrap (size_wrap (block_count_ p - 1) * block_size_ p)) in
  let '(free_list, mem') :=
    init_free_list_loop (Z.to_nat (block_count_ p)) (block_size_ p) current 0 mem in
  ({| memory_start_ := memory_start_ p; block_size_ := block_size_ p;
      block_count_ := block_count_ p; free_list_ := free_list;
      allocations_ := allocations_ p; deallocations_ := deallocations_ p;
      current_usage_ := current_usage_ p |}, mem').

(** The block size the constructor keeps: a size below
    [sizeof(FreeBlock)] is raised to it. *)
Definition corrected_block_size (block_size : Z) : Z :=
  if block_size <? sizeof_FreeBlock then sizeof_FreeBlock else block_size.

(** *** Constructor

    [operator_new] is [::operator new] of the environment: for a size, the
    address of the reserved region, or nothing when it throws
    [std::bad_alloc]. *)
Definition MemoryPool_new (block_size block_count : Z)
    (operator_new : Z → option Z) (mem : gmap Z Z)
  : outcome (MemoryPool * gmap Z Z) :=
  let block_size_ := corrected_block_size block_size in
  let total_size := size_wrap (block_size_ * block_count) in
  match operator_new total_size with
  | None => Throw bad_alloc
  | Some memory_start =>
      if memory_start =? 0 then Throw bad_alloc
      else
        Ok (init_free_list
              {| memory_start_ := memory_start; block_size_ := block_size_;
                 block_count_ := block_count; free_list_ := 0;
                 allocations_ := 0; deallocations_ := 0; current_usage_ := 0 |}
              mem)
  end.

(** *** [allocate] *)

Definition allocate (p : MemoryPool) (mem : gmap Z Z)
  : outcome (Z * list diagnostic * MemoryPool) :=
  if free_list_ p =? 0 then Ok (0, [pool_exhausted], p)
  else
    next ← defined (load_next (free_list_ p) mem);
    Ok (free_list_ p, [],
        {| memory_start_ := memory_start_ p; block_size_ := block_size_ p;
           block_count_ := block_count_ p; free_list_ := next;
           allocations_ := size_incr (allocations_ p);
           deallocations_ := deallocations_ p;
           current_usage_ := size_incr (current_usage_ p) |}).

(** *** [is_from_pool] and [deallocate] *)

Definition is_from_pool (ptr : Z) (p : MemoryPool) : bool :=
  let start := memory_start_ p in
  let end_ := ptr_wrap (start + size_wrap (block_size_ p * block_count_ p)) in
  (ptr >=? start) && (ptr <? end_).

Definition deallocate (ptr : Z) (p : MemoryPool) (mem : gmap Z Z)
  : list diagnostic * MemoryPool * gmap Z Z :=
  if ptr =? 0 then ([], p, mem)
  else if negb (is_from_pool ptr p) then ([not_from_pool], p, mem)
  else
    ([],
     {| memory_start_ := memory_start_ p; block_size_ := block_size_ p;
        block_count_ := block_count_ p; free_list_ := ptr;
        allocations_ := allocations_ p;
        deallocations_ := size_incr (deallocations_ p);
        current_usage_ := size_decr (current_usage_ p) |},
     store_next ptr (free_list_ p) mem).

Definition current_usage (p : MemoryPool) : Z := current_usage_ p.
Definition capacity (p : MemoryPool) : Z := block_count_ p.

(** *** Call sequences *)

Inductive call : Type :=
  | Allocate
  | Deallocate (ptr : Z).

(** A sequence of calls on a pool, first call first. *)
Fixpoint run (calls : list call) (p : MemoryPool) (mem : gmap Z Z)
  : outcome (MemoryPool * gmap Z Z) :=
  match calls with
  | [] => Ok (p, mem)
  | Allocate :: calls' => r ← allocate p mem; run calls' r.2 mem
  | Deallocate ptr :: calls' =>
      let r := deallocate ptr p mem in run calls' r.1.2 r.2
  end.

(** [n] calls of [allocate] in a row: the addresses returned, in order. *)
Fixpoint allocate_n (n : nat) (p : MemoryPool) (mem : gmap Z Z)
  : outcome (list Z * MemoryPool) :=
  match n with
  | O => Ok ([], p)
  | S n' =>
      r ← allocate p mem;
      r' ← allocate_n n' r.2 mem;
      Ok (r.1.1 :: r'.1, r'.2)
  end.

(** The caller's obligation: an address given to [deallocate] is null,
    outside the arena, or outstanding, that is, returned by an earlier
    [allocate] and not given back since.  [outstanding] lists the
    outstanding addresses before the calls. *)
Fixpoint disciplined (calls : list call) (outstanding : list Z)
    (p : MemoryPool) (mem : gmap Z Z) : bool :=
  match calls with
  | [] => true
  | Allocate :: calls' =>
      match allocate p mem with
      | Ok (a, _, p') =>
          disciplined calls' (if a =? 0 then outstanding else a :: outstanding) p' mem
      | _ => true
      end
  | Deallocate ptr :: calls' =>
      (bool_decide (ptr = 0) || negb (is_from_pool ptr p)
       || bool_decide (ptr ∈ outstanding))
      && let r := deallocate ptr p mem in
         disciplined calls' (filter (λ a, a ≠ ptr) outstanding) r.1.2 r.2
  end.

(** *** Arena and free list *)

(** The address of the block of index [i]. *)
Definition block_address (p : MemoryPool) (i : Z) : Z :=
  memory_start_ p + i * block_size_ p.

Definition is_block (p : MemoryPool) (a : Z) : Prop :=
  ∃ i, 0 ≤ i < block_count_ p ∧ a = block_address p i.

(** The arena [memory_start_, memory_start_ + block_size_ * block_count_)
    lies inside the address space, above the null address, and a block holds
    a [FreeBlock]. *)
Record arena_ok (p : MemoryPool) : Prop := mk_arena_ok {
  arena_start : 0 < memory_start_ p;
  arena_block_size : sizeof_FreeBlock ≤ block_size_ p;
  arena_block_count : 0 ≤ block_count_ p;
  arena_end : memory_start_ p + block_size_ p * block_count_ p < SIZE_MODULUS
}.

(** The addresses of the blocks from index [i] on, in increasing order. *)
Definition blocks_from (p : MemoryPool) (i : Z) : list Z :=
  block_address p <$> seqZ i (block_count_ p - i).

(** The addresses of all blocks, in increasing order. *)
Definition blocks (p : MemoryPool) : list Z := blocks_from p 0.

(** An [::operator new] that returns the address of a region of the size
    asked for, inside the address space. *)
Definition operator_new_ok (operator_new : Z → option Z) : Prop :=
  ∀ n a, operator_new n = Some a → 0 ≤ a ∧ a + n < SIZE_MODULUS.

(** The free list from [head] on links exactly [blocks], in this order. *)
Fixpoint chain (mem : gmap Z Z) (head : Z) (blocks : list Z) : Prop :=
  match blocks with
  | [] => head = 0
  | a :: blocks' =>
      head = a ∧ a ≠ 0 ∧
      ∃ next, load_next a mem = Some next ∧ chain mem next blocks'
  end.

(** The free-list partition: the free list links [free], the caller holds
    [outstanding]; together they are the blocks of the arena, each once. *)
Record partition (p : MemoryPool) (mem : gmap Z Z) (free outstanding : list Z)
  : Prop := mk_partition {
  part_arena : arena_ok p;
  part_chain : chain mem (free_list_ p) free;
  part_nodup : NoDup (free ++ outstanding);
  part_blocks : ∀ a, a ∈ free ++ outstanding → is_block p a;
  part_count :
    Z.of_nat (length free) + Z.of_nat (length outstanding) = block_count_ p;
  part_usage : current_usage_ p = Z.of_nat (length outstanding)
}.

(** A pool of 3 blocks of 64 bytes at address 4096, all blocks
    outstanding. *)
Definition demo_pool : MemoryPool :=
  {| memory_start_ := 4096; block_size_ := 64; block_count_ := 3;
     free_list_ := 0; allocations_ := 3; deallocations_ := 0;
     current_usage_ := 3 |}.

(** An [::operator new] that serves one request, of 192 bytes, at address
    4096. *)
Definition demo_operator_new (n : Z) : option Z :=
  if n =? 192 then Some 4096 else None.

(** The pool of 3 blocks of 64 bytes built at address 4096, and the memory
    once it is built. *)
Definition fresh_demo_pool : MemoryPool :=
  {| memory_start_ := 4096; block_size_ := 64; block_count_ := 3;
     free_list_ := 4096; allocations_ := 0; deallocations_ := 0;
     current_usage_ := 0 |}.

Definition fresh_demo_mem : gmap Z Z :=
  store_next 4096 4160 (store_next 4160 4224 (store_next 4224 0 ∅)).

(** A sequence of calls that gives the block at 4096 back twice, the pool
    after it, and the memory after it. *)
Definition double_free_calls : list call :=
  [Allocate; Deallocate 4096; Deallocate 4096].

Definition double_free_pool : MemoryPool :=
  {| memory_start_ := 4096; block_size_ := 64; block_count_ := 3;
     free_list_ := 4096; allocations_ := 1; deallocations_ := 2;
     current_usage_ := SIZE_MODULUS - 1 |}.

Definition double_free_mem : gmap Z Z :=
  store_next 4096 4096 (store_next 4096 4160 fresh_demo_mem).

(** A sequence of calls that keeps the caller's obligation. *)
Definition disciplined_calls : list call :=
  [Allocate; Allocate; Deallocate 4096; Deallocate 0; Deallocate 5000;
   Allocate; Allocate; Allocate].

(** *** [print_stats]

    The numbers written by [print_stats], in the order of its lines. *)
Record pool_stats : Type := mk_pool_stats {
  total_blocks : Z;
  stats_block_size : Z;
  used_blocks : Z;
  free_blocks : Z;
  total_allocations : Z;
  total_deallocations : Z;
  usage_percent : double
}.

Definition print_stats (p : MemoryPool) : pool_stats :=
  {| total_blocks := block_count_ p;
     stats_block_size := block_size_ p;
     used_blocks := current_usage_ p;
     free_blocks := size_wrap (block_count_ p - current_usage_ p);
     total_allocations := allocations_ p;
     total_deallocations := deallocations_ p;
     usage_percent :=
       double_div (double_mul (double_of_size (current_usage_ p)) (double_of_size 100))
                  (double_of_size (block_count_ p)) |}.

(** [deallocate] of each address of a list, in order, as the loops of
    [test_memory_pool] ([main.cpp]) do: the diagnostics written, the pool
    and the memory after them. *)
Fixpoint deallocate_all (ptrs : list Z) (p : MemoryPool) (mem : gmap Z Z)
  : list diagnostic * MemoryPool * gmap Z Z :=
  match ptrs with
  | [] => ([], p, mem)
  | ptr :: ptrs' =>
      let r := deallocate ptr p mem in
      let r' := deallocate_all ptrs' r.1.2 r.2 in
      (r.1.1 ++ r'.1.1, r'.1.2, r'.2)
  end.

(** The end of the arena: the first address after its last block. *)
Definition end_of_arena (p : MemoryPool) : Z :=
  memory_start_ p + block_size_ p * block_count_ p.

(** The counters are [size_t] values and the usage is the difference of
    the two others. *)
Definition counters_ok (p : MemoryPool) : Prop :=
  0 ≤ current_usage_ p < SIZE_MODULUS
  ∧ current_usage_ p = size_wrap (allocations_ p - deallocations_ p).

(** An [::operator new] that serves requests of no byte, at address 4096,
    and the pool of no block built with it. *)
Definition empty_operator_new (n : Z) : option Z :=
  if n =? 0 then Some 4096 else None.

Definition empty_demo_pool : MemoryPool :=
  {| memory_start_ := 4096; block_size_ := 64; block_count_ := 0;
     free_list_ := 0; allocations_ := 0; deallocations_ := 0;
     current_usage_ := 0 |}.



(** The pool of 3 blocks once [allocate] has returned the block at 4096. *)
Definition one_out_demo_pool : MemoryPool :=
  {| memory_start_ := 4096; block_size_ := 64; block_count_ := 3;
     free_list_ := 4160; allocations_ := 1; deallocations_ := 0;
     current_usage_ := 1 |}.

End Pool.

Lemma SIZE_MODULUS_eq : SIZE_MODULUS = 18446744073709551616.
Proof. reflexivity. Qed.

(** * Rounding in binary64 *)

Section Double_facts.

(** ** Positions and shifts *)

Lemma bpow_pos e : (0 < bpow e)%Q.
Proof. apply Qpower_0_lt. reflexivity. Qed.

Lemma bpow_succ e : (bpow (e + 1) == 2 * bpow e)%Q.
Proof. unfold bpow. rewrite Qpower_plus by discriminate. simpl. ring. Qed.

Lemma bpow_add a b : (bpow (a + b) == bpow a * bpow b)%Q.
Proof. unfold bpow. by rewrite Qpower_plus. Qed.

Lemma inject_Z_xO p : (inject_Z (Zpos p~0) == 2 * inject_Z (Zpos p))%Q.
Proof. unfold Qeq. simpl. lia. Qed.

Lemma inject_Z_xI p : (inject_Z (Zpos p~1) == 2 * inject_Z (Zpos p) + 1)%Q.
Proof. unfold Qeq. simpl. lia. Qed.

Lemma shr_1_located x m r s e :
  0 ≤ m →
  located x m e (loc_of_shr_record (Build_shr_record m r s)) →
  located x (shr_m (shr_1 (Build_shr_record m r s))) (e + 1)
    (loc_of_shr_record (shr_1 (Build_shr_record m r s)))
  ∧ shr_m (shr_1 (Build_shr_record m r s)) = m / 2.
Proof.
  intros Hm Hloc.
  pose proof (bpow_pos e) as Hu. pose proof (bpow_succ e) as Hsucc.
  destruct m as [|[p|p|]|p]; [| | | |lia]; clear Hm.
  - split; [|done].
    destruct r, s; simpl in *; rewrite ?Hsucc; clear Hsucc;
      change (inject_Z 0) with 0%Q in *;
      generalize dependent (bpow e); intros u Hloc Hu; lra.
  - split; [|simpl; apply (Z.div_unique (Z.pos p~1) 2 (Z.pos p) 1); lia].
    pose proof (inject_Z_xI p) as Hp.
    destruct r, s; simpl in *; rewrite ?Hsucc; rewrite ?Hp in Hloc; clear Hsucc Hp;
      generalize dependent (bpow e); intros u;
      generalize (inject_Z (Z.pos p)); intros k Hloc Hu; lra.
  - split; [|simpl; apply (Z.div_unique (Z.pos p~0) 2 (Z.pos p) 0); lia].
    pose proof (inject_Z_xO p) as Hp.
    destruct r, s; simpl in *; rewrite ?Hsucc; rewrite ?Hp in Hloc; clear Hsucc Hp;
      generalize dependent (bpow e); intros u;
      generalize (inject_Z (Z.pos p)); intros k Hloc Hu; lra.
  - split; [|done].
    destruct r, s; simpl in *; rewrite ?Hsucc; clear Hsucc;
      change (inject_Z 0) with 0%Q in *; change (inject_Z 1) with 1%Q in *;
      generalize dependent (bpow e); intros u Hloc Hu; lra.
Qed.

Lemma shr_1_inv x mrs e :
  shr_inv x mrs e →
  shr_inv x (shr_1 mrs) (e + 1) ∧ shr_m (shr_1 mrs) = shr_m mrs / 2.
Proof.
  destruct mrs as [m r s]. intros [Hm Hloc]. simpl in Hm.
  destruct (shr_1_located x m r s e Hm Hloc) as [Hloc' Hdiv].
  split; [|done]. split; [|done]. rewrite Hdiv. apply Z.div_pos; lia.
Qed.

Lemma iter_pos_shr_1 x n mrs e :
  shr_inv x mrs e →
  shr_inv x (iter_pos shr_1 n mrs) (e + Z.pos n)
  ∧ shr_m (iter_pos shr_1 n mrs) = shr_m mrs / 2 ^ Z.pos n.
Proof.
  revert mrs e. induction n as [n IH|n IH|]; intros mrs e Hinv; simpl.
  - destruct (shr_1_inv x mrs e Hinv) as [H1 E1].
    destruct (IH _ _ H1) as [H2 E2]. destruct (IH _ _ H2) as [H3 E3].
    split.
    + replace (e + Z.pos n~1) with (e + 1 + Z.pos n + Z.pos n) by lia. done.
    + assert (2 ^ Z.pos n~1 = 2 * 2 ^ Z.pos n * 2 ^ Z.pos n) as ->.
      { assert (Z.pos n~1 = 1 + Z.pos n + Z.pos n) as -> by lia.
        by rewrite !Z.pow_add_r by lia. }
      pose proof (Z.pow_pos_nonneg 2 (Z.pos n) ltac:(lia) ltac:(lia)).
      rewrite E3, E2, E1, !Z.div_div by lia. f_equal. lia.
  - destruct (IH _ _ Hinv) as [H2 E2]. destruct (IH _ _ H2) as [H3 E3].
    split.
    + replace (e + Z.pos n~0) with (e + Z.pos n + Z.pos n) by lia. done.
    + assert (2 ^ Z.pos n~0 = 2 ^ Z.pos n * 2 ^ Z.pos n) as ->.
      { assert (Z.pos n~0 = Z.pos n + Z.pos n) as -> by lia.
        by rewrite !Z.pow_add_r by lia. }
      pose proof (Z.pow_pos_nonneg 2 (Z.pos n) ltac:(lia) ltac:(lia)).
      rewrite E3, E2, !Z.div_div by lia. done.
  - destruct (shr_1_inv x mrs e Hinv) as [H1 E1]. split; [done|].
    by rewrite E1.
Qed.

(** ** Binary digits *)

Lemma digits2_pos_bounds m :
  2 ^ (Z.pos (digits2_pos m) - 1) ≤ Z.pos m < 2 ^ Z.pos (digits2_pos m).
Proof.
  induction m as [m IH|m IH|]; simpl digits2_pos.
  - rewrite Pos2Z.inj_succ, Pos2Z.inj_xI.
    replace (Z.succ (Z.pos (digits2_pos m)) - 1)
      with (Z.succ (Z.pos (digits2_pos m) - 1)) by lia.
    rewrite !Z.pow_succ_r by lia.
    revert IH. generalize (2 ^ (Z.pos (digits2_pos m) - 1)) (2 ^ Z.pos (digits2_pos m)).
    lia.
  - rewrite Pos2Z.inj_succ. assert (Z.pos m~0 = 2 * Z.pos m) as -> by lia.
    replace (Z.succ (Z.pos (digits2_pos m)) - 1)
      with (Z.succ (Z.pos (digits2_pos m) - 1)) by lia.
    rewrite !Z.pow_succ_r by lia.
    revert IH. generalize (2 ^ (Z.pos (digits2_pos m) - 1)) (2 ^ Z.pos (digits2_pos m)).
    lia.
  - done.
Qed.

(** A positive number between [2^(d-1)] and [2^d] has [d] digits. *)
Lemma digits2_pos_unique m d :
  2 ^ (d - 1) ≤ Z.pos m < 2 ^ d → Z.pos (digits2_pos m) = d.
Proof.
  intros [Hlo Hhi]. pose proof (digits2_pos_bounds m) as [Hlo' Hhi'].
  assert (0 < d).
  { destruct (Z.lt_trichotomy d 0) as [?|[->|?]]; [|simpl in Hhi; lia|done].
    rewrite Z.pow_neg_r in Hhi by lia. lia. }
  destruct (Z.lt_trichotomy (Z.pos (digits2_pos m)) d) as [Hlt|[?|Hgt]]; [|done|].
  - assert (2 ^ Z.pos (digits2_pos m) ≤ 2 ^ (d - 1)) by (apply Z.pow_le_mono_r; lia).
    lia.
  - assert (2 ^ d ≤ 2 ^ (Z.pos (digits2_pos m) - 1)) by (apply Z.pow_le_mono_r; lia).
    lia.
Qed.

Lemma loc_of_shr_record_of_loc m l :
  loc_of_shr_record (shr_record_of_loc m l) = l
  ∧ shr_m (shr_record_of_loc m l) = m.
Proof. by destruct l as [|[]]. Qed.

(** ** Rounding to binary64 *)

Lemma fexp_double e : fexp 53 1024 e = Z.max (e - 53) (-1074).
Proof. reflexivity. Qed.

(** The first shift of [binary_round_aux]: a mantissa of at least 53 digits
    is cut to 53 digits, and the position of [x] is kept. *)
Lemma shr_fexp_located x mx ex lx :
  let d := Z.pos (digits2_pos mx) in
  53 ≤ d → -1074 ≤ d + ex - 53 →
  located x (Z.pos mx) ex lx →
  ∃ mrs,
    shr_fexp 53 1024 (Z.pos mx) ex lx = (mrs, d + ex - 53)
    ∧ 2 ^ 52 ≤ shr_m mrs < 2 ^ 53
    ∧ located x (shr_m mrs) (d + ex - 53) (loc_of_shr_record mrs).
Proof.
  intros d Hd He Hloc. pose proof (digits2_pos_bounds mx) as Hdig. fold d in Hdig.
  unfold shr_fexp. rewrite fexp_double. simpl Zdigits2. fold d.
  rewrite Z.max_l by lia.
  destruct (loc_of_shr_record_of_loc (Z.pos mx) lx) as [Hl Hm].
  assert (shr_inv x (shr_record_of_loc (Z.pos mx) lx) ex) as Hinv.
  { split; [rewrite Hm; lia | by rewrite Hl, Hm]. }
  destruct (d + ex - 53 - ex) as [|n|n] eqn:Hn; [| |lia].
  - simpl. eexists. split; [f_equal; lia|]. rewrite Hl, Hm.
    assert (d = 53) as Hd53 by lia. rewrite Hd53 in *.
    split; [simpl in Hdig; lia|]. by replace (53 + ex - 53) with ex by lia.
  - simpl. destruct (iter_pos_shr_1 x n _ ex Hinv) as [[_ Hloc'] Hdiv].
    eexists. split; [f_equal; lia|].
    replace (d + ex - 53) with (ex + Z.pos n) by lia. split; [|done].
    rewrite Hdiv, Hm.
    assert (d = 53 + Z.pos n) as Hdn by lia. rewrite Hdn in Hdig.
    replace (53 + Z.pos n - 1) with (52 + Z.pos n) in Hdig by lia.
    rewrite !Z.pow_add_r in Hdig by lia.
    pose proof (Z.pow_pos_nonneg 2 (Z.pos n) ltac:(lia) ltac:(lia)).
    split.
    + apply Z.div_le_lower_bound; lia.
    + apply Z.div_lt_upper_bound; lia.
Qed.

Lemma inject_Z_succ m : (inject_Z (m + 1) == inject_Z m + 1)%Q.
Proof. rewrite inject_Z_plus. reflexivity. Qed.

(** Rounding to nearest, ties to even: the mantissa moves by at most one,
    and the value by at most half a unit. *)
Lemma round_nearest_even_located x m e l :
  located x m e l →
  let m' := round_nearest_even m l in
  m ≤ m' ≤ m + 1
  ∧ (Qabs (inject_Z m' * bpow e - x) <= bpow e * (1 # 2))%Q
  ∧ (inject_Z m * bpow e <= x)%Q.
Proof.
  intros Hloc m'. subst m'. pose proof (bpow_pos e) as Hu.
  pose proof (inject_Z_succ m) as Hs.
  destruct l as [|[]]; cbn [located round_nearest_even] in *.
  - split; [lia|]. rewrite Qabs_Qle_condition.
    revert Hloc Hu. generalize (bpow e) (inject_Z m). intros u k Hloc Hu. lra.
  - destruct (Z.even m).
    + split; [lia|]. rewrite Qabs_Qle_condition.
      revert Hloc Hu. generalize (bpow e) (inject_Z m). intros u k Hloc Hu. lra.
    + split; [lia|]. rewrite Qabs_Qle_condition, Hs. clear Hs.
      revert Hloc Hu. generalize (bpow e) (inject_Z m). intros u k Hloc Hu. lra.
  - split; [lia|]. rewrite Qabs_Qle_condition.
    revert Hloc Hu. generalize (bpow e) (inject_Z m). intros u k Hloc Hu. lra.
  - split; [lia|]. rewrite Qabs_Qle_condition, Hs. clear Hs.
    revert Hloc Hu. generalize (bpow e) (inject_Z m). intros u k Hloc Hu. lra.
Qed.

(** The second shift of [binary_round_aux]: a mantissa of 53 digits is
    kept, and [2^53] becomes [2^52] one exponent higher. *)
Lemma shr_fexp_renormalize m e :
  2 ^ 52 ≤ m ≤ 2 ^ 53 → -1074 ≤ e →
  ∃ mrs e',
    shr_fexp 53 1024 m e loc_Exact = (mrs, e')
    ∧ 2 ^ 52 ≤ shr_m mrs < 2 ^ 53
    ∧ e ≤ e' ≤ e + 1
    ∧ (inject_Z (shr_m mrs) * bpow e' == inject_Z m * bpow e)%Q.
Proof.
  intros Hm He. destruct (decide (m = 2 ^ 53)) as [->|Hne].
  - unfold shr_fexp. rewrite fexp_double.
    change (Zdigits2 (2 ^ 53)) with 54. rewrite Z.max_l by lia.
    replace (54 + e - 53 - e) with 1 by lia. simpl.
    do 2 eexists. split; [done|]. simpl. split; [lia|]. split; [lia|].
    replace (e + 1 + 1 - 1) with (e + 1) by lia.
    rewrite bpow_succ. unfold Qeq. simpl. lia.
  - destruct m as [|p|p]; [simpl in Hm; lia | | lia].
    assert (Z.pos (digits2_pos p) = 53) as Hd.
    { apply digits2_pos_unique. change (53 - 1) with 52. lia. }
    unfold shr_fexp. rewrite fexp_double. simpl Zdigits2. rewrite Hd.
    rewrite Z.max_l by lia. replace (53 + e - 53 - e) with 0 by lia. simpl.
    do 2 eexists. split; [done|]. simpl. split; [lia|]. split; [lia|]. reflexivity.
Qed.

Lemma binary_round_aux_correct x mx ex lx :
  let d := Z.pos (digits2_pos mx) in
  53 ≤ d → -1074 ≤ d + ex - 53 → d + ex - 53 < 971 →
  located x (Z.pos mx) ex lx →
  rounded x (binary_round_aux 53 1024 false (Z.pos mx) ex lx) (d + ex - 53).
Proof.
  intros d Hd Hlo Hhi Hloc.
  destruct (shr_fexp_located x mx ex lx Hd Hlo Hloc) as (mrs1 & E1 & Hm1 & Hloc1).
  fold d in E1, Hloc1. set (e1 := d + ex - 53) in *.
  destruct (round_nearest_even_located x _ _ _ Hloc1) as (Hm2 & Habs & Hlow).
  set (m2 := round_nearest_even (shr_m mrs1) (loc_of_shr_record mrs1)) in *.
  destruct (shr_fexp_renormalize m2 e1 ltac:(lia) Hlo) as (mrs2 & e2 & E2 & Hm & He2 & Hval).
  unfold binary_round_aux. rewrite E1. fold m2. rewrite E2.
  destruct (shr_m mrs2) as [|m|m] eqn:Hmrs2; [lia| |lia].
  change (1024 - 53) with 971. destruct (Z.leb_spec e2 971) as [_|?]; [|lia].
  exists m, e2. split; [done|]. split; [done|]. split; [done|].
  rewrite Hval.
  assert (inject_Z (2 ^ 52) * bpow e1 <= inject_Z (shr_m mrs1) * bpow e1)%Q as Hk.
  { apply Qmult_le_compat_r; [|apply Qlt_le_weak, bpow_pos].
    rewrite <- Zle_Qle. lia. }
  change (inject_Z (2 ^ 52)) with (4503599627370496 # 1)%Q in Hk.
  unfold u53. rewrite Qabs_Qle_condition in *.
  revert Habs Hlow Hk.
  generalize (inject_Z m2 * bpow e1)%Q (inject_Z (shr_m mrs1) * bpow e1)%Q (bpow e1).
  intros v k u Habs Hlow Hk. lra.
Qed.

(** ** Conversion of an integer *)

Lemma bpow_nonneg_inject k : 0 ≤ k → (bpow k == inject_Z (2 ^ k))%Q.
Proof. intros Hk. unfold bpow. by rewrite Zpower_Qpower. Qed.

Lemma bpow_opp_cancel k : (bpow k * bpow (- k) == 1)%Q.
Proof. rewrite <- bpow_add. replace (k + - k) with 0 by lia. reflexivity. Qed.

Lemma pos_iter_xO m k : Z.pos (Pos.iter xO m k) = Z.pos m * 2 ^ Z.pos k.
Proof.
  induction k as [|k IH] using Pos.peano_ind.
  - simpl. lia.
  - rewrite Pos.iter_succ, Pos2Z.inj_succ, Z.pow_succ_r by lia.
    assert (Z.pos (Pos.iter xO m k)~0 = 2 * Z.pos (Pos.iter xO m k)) as -> by lia.
    rewrite IH. lia.
Qed.

Lemma digits2_pos_le m n :
  Z.pos m < 2 ^ n → 0 ≤ n → Z.pos (digits2_pos m) ≤ n.
Proof.
  intros Hm Hn. pose proof (digits2_pos_bounds m) as [Hlo _].
  destruct (Z.le_gt_cases (Z.pos (digits2_pos m)) n) as [|Hgt]; [done|].
  assert (2 ^ n ≤ 2 ^ (Z.pos (digits2_pos m) - 1)) by (apply Z.pow_le_mono_r; lia).
  lia.
Qed.

Lemma binary_normalize_correct p :
  Z.pos p < 2 ^ 64 →
  rounded (inject_Z (Z.pos p)) (binary_normalize 53 1024 (Z.pos p) 0 false)
    (Z.pos (digits2_pos p) - 53).
Proof.
  intros Hp. pose proof (digits2_pos_le p 64 Hp ltac:(lia)) as Hd64.
  pose proof (digits2_pos_bounds p) as Hdig.
  set (d := Z.pos (digits2_pos p)) in *.
  unfold binary_normalize, binary_round, shl_align.
  rewrite fexp_double, Z.max_l by lia. fold d.
  destruct (d + 0 - 53 - 0) as [|k|k] eqn:Hk.
  - replace (d - 53) with (d + 0 - 53) by lia.
    apply binary_round_aux_correct; fold d; try lia.
    simpl. rewrite Qmult_1_r. reflexivity.
  - replace (d - 53) with (d + 0 - 53) by lia.
    apply binary_round_aux_correct; fold d; try lia.
    simpl. rewrite Qmult_1_r. reflexivity.
  - assert (d = 53 - Z.pos k) as Hdk by lia.
    pose proof (pos_iter_xO p k) as Hiter.
    pose proof (Z.pow_pos_nonneg 2 (Z.pos k) ltac:(lia) ltac:(lia)) as Hpow.
    assert (Z.pos (digits2_pos (Pos.iter xO p k)) = 53) as Hd53.
    { apply digits2_pos_unique. rewrite Hiter. change (53 - 1) with 52.
      assert (2 ^ 53 = 2 ^ d * 2 ^ Z.pos k) as ->.
      { rewrite <- Z.pow_add_r by lia. f_equal. lia. }
      assert (2 ^ 52 = 2 ^ (d - 1) * 2 ^ Z.pos k) as ->.
      { rewrite <- Z.pow_add_r by lia. f_equal. lia. }
      split; [apply Z.mul_le_mono_nonneg_r; lia | apply Z.mul_lt_mono_pos_r; lia]. }
    replace (d - 53) with (Z.pos (digits2_pos (Pos.iter xO p k)) + (d + 0 - 53) - 53)
      by lia.
    apply binary_round_aux_correct; rewrite ?Hd53; try lia.
    simpl. rewrite Hiter, inject_Z_mult.
    replace (d + 0 - 53) with (- Z.pos k) by lia.
    rewrite <- (bpow_nonneg_inject (Z.pos k)) by lia.
    rewrite <- Qmult_assoc, bpow_opp_cancel. ring.
Qed.

(** ** Multiplication and division of positive normal doubles *)

Lemma SFmul_correct mx ex my ey :
  2 ^ 52 ≤ Z.pos mx < 2 ^ 53 → 2 ^ 52 ≤ Z.pos my < 2 ^ 53 →
  -1126 ≤ ex + ey → ex + ey < 918 →
  ∃ e0, ex + ey + 52 ≤ e0 ≤ ex + ey + 53
        ∧ rounded (inject_Z (Z.pos mx) * bpow ex * (inject_Z (Z.pos my) * bpow ey))
            (SFmul 53 1024 (S754_finite false mx ex) (S754_finite false my ey)) e0.
Proof.
  intros Hmx Hmy Hlo Hhi.
  assert (2 ^ 104 ≤ Z.pos (mx * my) < 2 ^ 106) as Hprod.
  { rewrite Pos2Z.inj_mul. change (2 ^ 104) with (2 ^ 52 * 2 ^ 52).
    change (2 ^ 106) with (2 ^ 53 * 2 ^ 53). nia. }
  assert (∃ d, Z.pos (digits2_pos (mx * my)) = d ∧ 105 ≤ d ≤ 106) as (d & Hd & Hd').
  { destruct (Z.lt_ge_cases (Z.pos (mx * my)) (2 ^ 105)).
    - exists 105. split; [|lia]. apply digits2_pos_unique. change (105 - 1) with 104. lia.
    - exists 106. split; [|lia]. apply digits2_pos_unique. change (106 - 1) with 105. lia. }
  exists (d + (ex + ey) - 53). split; [lia|]. simpl SFmul. rewrite <- Hd.
  apply binary_round_aux_correct; rewrite ?Hd; try lia.
  simpl. rewrite Pos2Z.inj_mul, inject_Z_mult, bpow_add. ring.
Qed.

Lemma ratio_lt_l (t a b c : Q) :
  (0 < b → t * b == a → c * b < a → c < t)%Q.
Proof.
  intros Hb Ht Hc. destruct (Qlt_le_dec c t) as [|Hle]; [done|]. exfalso.
  apply (Qmult_le_compat_r _ _ b) in Hle; [|by apply Qlt_le_weak].
  rewrite Ht in Hle. apply (Qlt_irrefl a). by eapply Qle_lt_trans.
Qed.

Lemma ratio_lt_r (t a b c : Q) :
  (0 < b → t * b == a → a < c * b → t < c)%Q.
Proof.
  intros Hb Ht Hc. destruct (Qlt_le_dec t c) as [|Hle]; [done|]. exfalso.
  apply (Qmult_le_compat_r _ _ b) in Hle; [|by apply Qlt_le_weak].
  rewrite Ht in Hle. apply (Qlt_irrefl a). by eapply Qlt_le_trans.
Qed.

Lemma ratio_eq (t a b c : Q) :
  (0 < b → t * b == a → a == c * b → t == c)%Q.
Proof.
  intros Hb Ht Hc. apply (Qmult_inj_r _ _ b).
  - intros Hz. rewrite Hz in Hb. by apply Qlt_irrefl in Hb.
  - by rewrite Ht.
Qed.

(** The position of [k / n] in the unit interval. *)
Lemma new_location_located q n k e :
  0 ≤ k < n →
  located ((inject_Z q + inject_Z k / inject_Z n) * bpow e) q e (new_location n k).
Proof.
  intros Hk. pose proof (bpow_pos e) as Hu.
  assert (0 < inject_Z n)%Q as Hn by (rewrite <- (Zlt_Qlt 0); lia).
  set (t := (inject_Z k / inject_Z n)%Q).
  assert (t * inject_Z n == inject_Z k)%Q as Ht.
  { unfold t. field. intros Hz. rewrite Hz in Hn. by apply Qlt_irrefl in Hn. }
  assert (k = 0 → (t == 0)%Q) as Hzero.
  { intros ->. unfold t. reflexivity. }
  clearbody t.
  assert (k ≠ 0 → (0 < t)%Q) as Hpos.
  { intros Hk1. apply (ratio_lt_l t (inject_Z k) (inject_Z n)); [done..|].
    rewrite Qmult_0_l, <- (Zlt_Qlt 0). lia. }
  assert (t < 1)%Q as Hlt1.
  { apply (ratio_lt_r t (inject_Z k) (inject_Z n)); [done..|].
    rewrite Qmult_1_l, <- Zlt_Qlt. lia. }
  assert (((1 # 2) * inject_Z n == inject_Z n * (1 # 2)))%Q as Hhalf by ring.
  assert (2 * k < n → (t < 1 # 2)%Q) as Hlow.
  { intros Hc. apply (ratio_lt_r t (inject_Z k) (inject_Z n)); [done..|].
    assert (inject_Z (2 * k) < inject_Z n)%Q as Hq by (rewrite <- Zlt_Qlt; lia).
    rewrite inject_Z_mult in Hq. change (inject_Z 2) with 2%Q in Hq.
    revert Hq. generalize (inject_Z k) (inject_Z n). intros a b Hq. lra. }
  assert (n < 2 * k → ((1 # 2) < t)%Q) as Hhigh.
  { intros Hc. apply (ratio_lt_l t (inject_Z k) (inject_Z n)); [done..|].
    assert (inject_Z n < inject_Z (2 * k))%Q as Hq by (rewrite <- Zlt_Qlt; lia).
    rewrite inject_Z_mult in Hq. change (inject_Z 2) with 2%Q in Hq.
    revert Hq. generalize (inject_Z k) (inject_Z n). intros a b Hq. lra. }
  assert (2 * k = n → (t == 1 # 2)%Q) as Hmid.
  { intros Hc. apply (ratio_eq t (inject_Z k) (inject_Z n)); [done..|].
    rewrite <- Hc, inject_Z_mult. change (inject_Z 2) with 2%Q. ring. }
  clear Ht Hn.
  unfold new_location, new_location_even, new_location_odd.
  destruct (Z.even n) eqn:Heven.
  - destruct (Z.eqb_spec k 0) as [Hk1|Hk1].
    + simpl. rewrite (Hzero Hk1). ring.
    + specialize (Hpos Hk1). destruct (Z.compare_spec (2 * k) n) as [Hc|Hc|Hc]; simpl.
      * rewrite (Hmid Hc). reflexivity.
      * specialize (Hlow Hc).
        revert Hu. generalize (bpow e) (inject_Z q). intros u a Hu. nra.
      * specialize (Hhigh Hc).
        revert Hu. generalize (bpow e) (inject_Z q). intros u a Hu. nra.
  - destruct (Z.eqb_spec k 0) as [Hk1|Hk1].
    + simpl. rewrite (Hzero Hk1). ring.
    + specialize (Hpos Hk1).
      assert (2 * k ≠ n) as Hodd.
      { intros <-. rewrite Z.even_mul in Heven. done. }
      destruct (Z.compare_spec (2 * k + 1) n) as [Hc|Hc|Hc]; simpl.
      * specialize (Hlow ltac:(lia)).
        revert Hu. generalize (bpow e) (inject_Z q). intros u a Hu. nra.
      * specialize (Hlow ltac:(lia)).
        revert Hu. generalize (bpow e) (inject_Z q). intros u a Hu. nra.
      * specialize (Hhigh ltac:(lia)).
        revert Hu. generalize (bpow e) (inject_Z q). intros u a Hu. nra.
Qed.

Lemma located_proper x y m e l : (x == y)%Q → located x m e l → located y m e l.
Proof. intros Hxy. destruct l as [|[]]; simpl; rewrite Hxy; done. Qed.

Lemma SFdiv_correct mx ex my ey :
  2 ^ 52 ≤ Z.pos mx < 2 ^ 53 → 2 ^ 52 ≤ Z.pos my < 2 ^ 53 →
  -1021 ≤ ex - ey → ex - ey < 1023 →
  ∃ e0, ex - ey - 53 ≤ e0 ≤ ex - ey - 52
        ∧ rounded (inject_Z (Z.pos mx) * bpow ex / (inject_Z (Z.pos my) * bpow ey))
            (SFdiv 53 1024 (S754_finite false mx ex) (S754_finite false my ey)) e0.
Proof.
  intros Hmx Hmy Hlo Hhi.
  assert (Z.pos (digits2_pos mx) = 53) as Hdx by (by apply digits2_pos_unique).
  assert (Z.pos (digits2_pos my) = 53) as Hdy by (by apply digits2_pos_unique).
  unfold SFdiv, SFdiv_core_binary. simpl Zdigits2. rewrite Hdx, Hdy, fexp_double.
  replace (Z.max (53 + ex - (53 + ey) - 53) (-1074)) with (ex - ey - 53) by lia.
  rewrite Z.min_l by lia.
  replace (ex - ey - (ex - ey - 53)) with 53 by lia.
  cbv beta iota. rewrite Z.shiftl_mul_pow2 by lia.
  pose proof (Z_div_mod (Z.pos mx * 2 ^ 53) (Z.pos my) ltac:(lia)) as Hdm.
  destruct (Z.div_eucl (Z.pos mx * 2 ^ 53) (Z.pos my)) as [q r].
  destruct Hdm as [Hdiv Hr].
  assert (2 ^ 52 ≤ q < 2 ^ 54) as Hq.
  { change (2 ^ 54) with (2 * 2 ^ 53). change (2 ^ 53) with (2 * 2 ^ 52) in *.
    revert Hdiv Hr Hmx Hmy. generalize (2 ^ 52). intros P Hdiv Hr Hmx Hmy. nia. }
  destruct q as [|pq|pq]; [lia| |lia].
  assert (∃ d, Z.pos (digits2_pos pq) = d ∧ 53 ≤ d ≤ 54) as (d & Hd & Hd').
  { destruct (Z.lt_ge_cases (Z.pos pq) (2 ^ 53)).
    - exists 53. split; [|lia]. apply digits2_pos_unique. change (53 - 1) with 52. lia.
    - exists 54. split; [|lia]. apply digits2_pos_unique. change (54 - 1) with 53. lia. }
  exists (d + (ex - ey - 53) - 53). split; [lia|]. rewrite <- Hd.
  apply binary_round_aux_correct; rewrite ?Hd; try lia.
  eapply located_proper; [|apply new_location_located; exact Hr].
  assert (bpow (ex - ey - 53) * bpow ey * inject_Z (2 ^ 53) == bpow ex)%Q as Hpow.
  { rewrite <- bpow_nonneg_inject, <- !bpow_add by lia. f_equiv. lia. }
  assert (inject_Z (Z.pos mx) * inject_Z (2 ^ 53)
          == inject_Z (Z.pos my) * inject_Z (Z.pos pq) + inject_Z r)%Q as Hdivq.
  { rewrite <- !inject_Z_mult, <- inject_Z_plus. by rewrite Hdiv. }
  assert (0 < inject_Z (Z.pos my))%Q as Hypos by (rewrite <- (Zlt_Qlt 0); lia).
  pose proof (bpow_pos ey) as Hbpos.
  rewrite <- Hpow.
  transitivity (inject_Z (Z.pos mx) * inject_Z (2 ^ 53) * bpow (ex - ey - 53)
                / inject_Z (Z.pos my))%Q.
  - rewrite Hdivq. field. intros Hz. rewrite Hz in Hypos. by apply Qlt_irrefl in Hypos.
  - field. split.
    + intros Hz. rewrite Hz in Hbpos. by apply Qlt_irrefl in Hbpos.
    + intros Hz. rewrite Hz in Hypos. by apply Qlt_irrefl in Hypos.
Qed.

(** ** Relative error *)

Lemma rounded_proper x y f e0 : (x == y)%Q → rounded x f e0 → rounded y f e0.
Proof.
  intros Hxy (m & e & E & Hm & He & Habs). exists m, e.
  split; [done|]. split; [done|]. split; [done|]. by rewrite <- Hxy.
Qed.

Lemma rounded_interval x f e0 :
  (0 < x)%Q → rounded x f e0 →
  ∃ m e, f = S754_finite false m e
         ∧ 2 ^ 52 ≤ Z.pos m < 2 ^ 53 ∧ e0 ≤ e ≤ e0 + 1
         ∧ (x * (1 - u53) <= inject_Z (Z.pos m) * bpow e
            ∧ inject_Z (Z.pos m) * bpow e <= x * (1 + u53))%Q.
Proof.
  intros Hx (m & e & -> & Hm & He & Habs). exists m, e.
  split; [done|]. split; [done|]. split; [done|].
  apply Qabs_Qle_condition in Habs. revert Habs.
  generalize (inject_Z (Z.pos m) * bpow e)%Q. intros v Habs. lra.
Qed.

Lemma double_of_size_pos n :
  0 < n < 2 ^ 64 →
  ∃ m e, double_of_size n = S754_finite false m e
         ∧ 2 ^ 52 ≤ Z.pos m < 2 ^ 53 ∧ -52 ≤ e ≤ 12
         ∧ (inject_Z n * (1 - u53) <= inject_Z (Z.pos m) * bpow e
            ∧ inject_Z (Z.pos m) * bpow e <= inject_Z n * (1 + u53))%Q.
Proof.
  intros Hn. destruct n as [|p|p]; [lia| |lia].
  pose proof (digits2_pos_le p 64 ltac:(lia) ltac:(lia)) as Hd.
  assert (0 < inject_Z (Z.pos p))%Q as Hpos by (rewrite <- (Zlt_Qlt 0); lia).
  destruct (rounded_interval _ _ _ Hpos (binary_normalize_correct p ltac:(lia)))
    as (m & e & E & Hm & He & Hv).
  exists m, e. split; [done|]. split; [done|]. split; [lia|done].
Qed.

Lemma hundred_value : (inject_Z (Z.pos 7036874417766400) * bpow (-46) == 100)%Q.
Proof. reflexivity. Qed.

End Double_facts.

(** * Properties of the LRU cache *)

Section LRU_facts.
Import LRU.
Context {Key : Type} `{Countable Key} {Value : Type}.
Implicit Types (l : CacheList Key Value) (c : LRUCache Key Value).
Implicit Types (it : ListIterator) (key : Key) (value : Value).

(** ** List nodes *)

Lemma node_item_elem it kv l : node_item it l = Some kv → (it, kv) ∈ l.
Proof.
  induction l as [|[it' kv'] l IH]; simpl; [done|].
  case_decide; intros Hn.
  - simplify_eq. left.
  - right. auto.
Qed.

Lemma elem_node_item it kv l : NoDup l.*1 → (it, kv) ∈ l → node_item it l = Some kv.
Proof.
  induction l as [|[it' kv'] l IH]; simpl; intros Hnd Hin.
  - by apply elem_of_nil in Hin.
  - apply NoDup_cons in Hnd as [Hnotin Hnd].
    apply elem_of_cons in Hin as [Heq | Hin].
    + simplify_eq. by rewrite decide_True.
    + case_decide; [|by apply IH].
      subst it'. exfalso. apply Hnotin.
      apply list_elem_of_fmap. by exists (it, kv).
Qed.

Lemma unlink_fst_notin it l : NoDup l.*1 → it ∉ (unlink it l).*1.
Proof.
  induction l as [|[it0 kv0] l IH]; simpl; intros Hnd.
  - apply not_elem_of_nil.
  - apply NoDup_cons in Hnd as [Hnotin Hnd].
    destruct (decide (it0 = it)) as [->|Hn0]; simpl; [done|].
    apply not_elem_of_cons. split; [congruence | auto].
Qed.

(** Moving a node to the front permutes the list. *)
Lemma unlink_Permutation it kv l :
  node_item it l = Some kv → (it, kv) :: unlink it l ≡ₚ l.
Proof.
  induction l as [|[it0 kv0] l IH]; simpl; [done|].
  destruct (decide (it0 = it)) as [->|Hn0]; intros Hn.
  - by simplify_eq.
  - rewrite Permutation_swap. f_equiv. by apply IH.
Qed.

Lemma unlink_length it kv l :
  node_item it l = Some kv → S (length (unlink it l)) = length l.
Proof.
  intros Hn. by rewrite <- (Permutation_length (unlink_Permutation it kv l Hn)).
Qed.

Lemma filter_all {A : Type} (P : A → Prop) `{∀ x, Decision (P x)} (xs : list A) :
  Forall P xs → filter P xs = xs.
Proof.
  induction 1 as [|x xs Hx _ IH]; [done|].
  by rewrite filter_cons_True, IH.
Qed.

(** The other items keep their order. *)
Lemma unlink_items it key value l :
  NoDup l.*1 →
  (∀ it' value', (it', (key, value')) ∈ l → it' = it) →
  node_item it l = Some (key, value) →
  snd <$> unlink it l = filter (λ kv, kv.1 ≠ key) (snd <$> l).
Proof.
  induction l as [|[it0 [k0 v0]] l IH]; simpl; intros Hnd Huniq Hn; [done|].
  apply NoDup_cons in Hnd as [Hnotin Hnd].
  destruct (decide (it0 = it)) as [->|Hn0].
  - simplify_eq. rewrite filter_cons_False by (simpl; tauto).
    symmetry. apply filter_all, Forall_forall.
    intros [k v] Hin Heq. simpl in *. subst k.
    apply list_elem_of_fmap in Hin as [[it1 kv1] [Heq Hin]]. simpl in *. subst kv1.
    assert (it1 = it) as -> by (eapply Huniq; right; done).
    apply Hnotin, list_elem_of_fmap. by exists (it, (key, v)).
  - assert (k0 ≠ key) as Hk.
    { intros ->. apply Hn0. eapply Huniq. left. }
    rewrite filter_cons_True by done. simpl. f_equal.
    apply IH; [done | | done].
    intros it' value' Hin. eapply Huniq. right. done.
Qed.

Lemma unlink_elem it kv l x :
  NoDup l.*1 → node_item it l = Some kv →
  x ∈ unlink it l ↔ x ∈ l ∧ x.1 ≠ it.
Proof.
  intros Hnd Hn.
  pose proof (unlink_fst_notin it l Hnd) as Hnotin.
  assert (x ∈ l ↔ x ∈ (it, kv) :: unlink it l) as ->.
  { by rewrite (unlink_Permutation it kv l Hn). }
  rewrite elem_of_cons. split.
  - intros Hx. split; [by right|]. intros <-. apply Hnotin.
    apply list_elem_of_fmap. by exists x.
  - intros [[-> | Hx] Hne]; [done | done].
Qed.

Lemma assign_second_Some it kv value l :
  node_item it l = Some kv →
  ∃ l1, assign_second it value l = Some l1
        ∧ node_item it l1 = Some (kv.1, value)
        ∧ unlink it l1 = unlink it l.
Proof.
  induction l as [|[it0 kv0] l IH]; simpl; [done|].
  destruct (decide (it0 = it)) as [->|Hn0]; intros Hn.
  - simplify_eq. eexists. split; [done|]. simpl. by rewrite !decide_True.
  - destruct (IH Hn) as (l1 & -> & Hitem & Hun). simpl.
    eexists. split; [done|]. simpl. rewrite !decide_False by done.
    by rewrite Hun.
Qed.

Lemma fresh_iterator_bound l it : it ∈ l.*1 → (it < fresh_iterator l)%nat.
Proof.
  unfold fresh_iterator. induction l as [|[it0 kv0] l IH]; simpl.
  - intros Hin. by apply elem_of_nil in Hin.
  - intros [-> | Hin]%elem_of_cons; [lia|]. specialize (IH Hin). lia.
Qed.

Lemma fresh_iterator_fresh l : fresh_iterator l ∉ l.*1.
Proof. intros Hin. apply fresh_iterator_bound in Hin. lia. Qed.

Lemma last_removelast (l : CacheList Key Value) x :
  last l = Some x → l = removelast l ++ [x].
Proof.
  intros Hl. destruct (decide (l = [])) as [->|Hne]; [done|].
  rewrite (app_removelast_last x Hne) at 1. f_equal. f_equal.
  clear Hne. induction l as [|y [|z l] IH]; simpl in *; [done | by simplify_eq | auto].
Qed.

(** ** The invariant *)

Lemma wf_node_item c it kv :
  wf c → (it, kv) ∈ cache_list_ c ↔ node_item it (cache_list_ c) = Some kv.
Proof.
  intros Hwf. split.
  - apply elem_node_item, Hwf.
  - apply node_item_elem.
Qed.

(** A key is carried by one node only. *)
Lemma wf_key_unique c it1 it2 key v1 v2 :
  wf c → (it1, (key, v1)) ∈ cache_list_ c → (it2, (key, v2)) ∈ cache_list_ c →
  it1 = it2.
Proof.
  intros Hwf H1 H2.
  assert (cache_map_ c !! key = Some it1) as E1 by (apply Hwf; eauto).
  assert (cache_map_ c !! key = Some it2) as E2 by (apply Hwf; eauto).
  congruence.
Qed.

Lemma wf_new capacity (c : LRUCache Key Value) :
  0 ≤ capacity → LRUCache_new capacity = Ok c → wf c ∧ capacity_ c = capacity.
Proof.
  unfold LRUCache_new. intros Hc. destruct (Z.eqb_spec capacity 0); [done|].
  intros [= <-]. split; [|done]. split; simpl.
  - constructor.
  - intros key it. rewrite lookup_empty. split; [done|].
    intros [v Hin]. by apply elem_of_nil in Hin.
  - unfold size. simpl. lia.
  - lia.
Qed.

Lemma wf_items_node c key value :
  wf c → (key, value) ∈ items c →
  ∃ it, cache_map_ c !! key = Some it
        ∧ node_item it (cache_list_ c) = Some (key, value).
Proof.
  intros Hwf Hin. unfold items in Hin.
  apply list_elem_of_fmap in Hin as [[it kv] [Heq Hin]]. simpl in Heq. subst kv.
  exists it. split.
  - apply Hwf. eauto.
  - by apply wf_node_item.
Qed.

Lemma wf_keys_index c key : wf c → key ∈ keys c ↔ is_Some (cache_map_ c !! key).
Proof.
  intros Hwf. unfold keys. rewrite list_elem_of_fmap. split.
  - intros [[it [k v]] [Heq Hin]]. simpl in Heq. subst k.
    exists it. apply Hwf. eauto.
  - intros [it Hit]. apply Hwf in Hit as [v Hin].
    by exists (it, (key, v)).
Qed.

(** The items after a node is moved to the front. *)
Lemma wf_promote_items c it key value :
  wf c → node_item it (cache_list_ c) = Some (key, value) →
  snd <$> unlink it (cache_list_ c) = filter (λ kv, kv.1 ≠ key) (items c).
Proof.
  intros Hwf Hn. apply unlink_items with value; [apply Hwf | | done].
  intros it' value' Hin. apply wf_node_item in Hn; [|done].
  by eapply wf_key_unique.
Qed.

(** ** [get] *)

Lemma get_hit key value it c :
  node_item it (cache_list_ c) = Some (key, value) →
  cache_map_ c !! key = Some it →
  get key c =
    Ok (Some value,
        {| capacity_ := capacity_ c;
           cache_list_ := (it, (key, value)) :: unlink it (cache_list_ c);
           cache_map_ := cache_map_ c; hits_ := size_incr (hits_ c);
           misses_ := misses_ c; evictions_ := evictions_ c |}).
Proof.
  intros Hn Hm. unfold get, splice_front. rewrite Hm, Hn. simpl.
  by rewrite decide_True.
Qed.

Lemma get_miss key c :
  cache_map_ c !! key = None →
  get key c =
    Ok (None,
        {| capacity_ := capacity_ c; cache_list_ := cache_list_ c;
           cache_map_ := cache_map_ c; hits_ := hits_ c;
           misses_ := size_incr (misses_ c); evictions_ := evictions_ c |}).
Proof. intros Hm. unfold get. by rewrite Hm. Qed.

(** ** [put] *)

Lemma put_existing key old value it c :
  node_item it (cache_list_ c) = Some (key, old) →
  cache_map_ c !! key = Some it →
  put key value c =
    Ok {| capacity_ := capacity_ c;
          cache_list_ := (it, (key, value)) :: unlink it (cache_list_ c);
          cache_map_ := cache_map_ c; hits_ := hits_ c;
          misses_ := misses_ c; evictions_ := evictions_ c |}.
Proof.
  intros Hn Hm. unfold put, splice_front. rewrite Hm.
  destruct (assign_second_Some it (key, old) value _ Hn) as (l1 & -> & Hitem & Hun).
  simpl. rewrite Hitem. simpl. by rewrite Hun.
Qed.

Lemma wf_put_existing key old value it c h m e :
  wf c →
  node_item it (cache_list_ c) = Some (key, old) →
  wf {| capacity_ := capacity_ c;
        cache_list_ := (it, (key, value)) :: unlink it (cache_list_ c);
        cache_map_ := cache_map_ c; hits_ := h; misses_ := m; evictions_ := e |}.
Proof.
  intros Hwf Hn. pose proof Hwf as [Hnd Hidx Hsz Hpos].
  pose proof (unlink_Permutation _ _ _ Hn) as Hperm.
  split; simpl.
  - change (NoDup ((it, (key, old)) :: unlink it (cache_list_ c)).*1).
    by rewrite Hperm.
  - intros key' it'. rewrite Hidx. setoid_rewrite elem_of_cons.
    setoid_rewrite (unlink_elem it (key, old)); [|done..]. simpl.
    split.
    + intros [v Hin]. destruct (decide (it' = it)) as [->|Hne].
      * apply wf_node_item in Hin; [|done]. rewrite Hn in Hin. simplify_eq.
        eauto.
      * eauto.
    + intros [v [Heq | [Hin _]]]; [|eauto]. simplify_eq.
      exists old. by apply wf_node_item.
  - unfold size in *. simpl in *.
    rewrite (unlink_length _ _ _ Hn). done.
  - done.
Qed.

Lemma wf_evict_lru c :
  wf c →
  wf (evict_lru c)
  ∧ capacity_ (evict_lru c) = capacity_ c
  ∧ (cache_list_ c ≠ [] → size (evict_lru c) = size c - 1)
  ∧ (∀ key, cache_map_ c !! key = None → cache_map_ (evict_lru c) !! key = None).
Proof.
  intros Hwf. pose proof Hwf as [Hnd Hidx Hsz Hpos].
  unfold evict_lru. destruct (last (cache_list_ c)) as [[itl [kl vl]]|] eqn:Hlast.
  2:{ apply last_None in Hlast. split_and!; try done. }
  apply last_removelast in Hlast.
  set (l0 := removelast (cache_list_ c)) in *.
  rewrite Hlast in Hnd. rewrite fmap_app in Hnd.
  apply NoDup_app in Hnd as (Hnd0 & Hdisj & _).
  assert (itl ∉ l0.*1) as Hitl.
  { intros Hin. apply (Hdisj _ Hin). simpl. left. }
  split_and!; simpl.
  - split; simpl.
    + done.
    + intros key it. destruct (decide (key = kl)) as [->|Hne].
      * rewrite lookup_delete_eq. split; [done|]. intros [v Hin]. exfalso.
        assert (it = itl) as ->.
        { apply (wf_key_unique c it itl kl v vl Hwf); rewrite Hlast;
            rewrite elem_of_app; [by left | right; left]. }
        apply Hitl, list_elem_of_fmap. by exists (itl, (kl, v)).
      * rewrite lookup_delete_ne by done. rewrite Hidx, Hlast.
        setoid_rewrite elem_of_app. setoid_rewrite list_elem_of_singleton.
        split; intros [v Hv]; [|eauto]. destruct Hv as [?|?]; [eauto|congruence].
    + unfold size in *. simpl. rewrite Hlast, length_app in Hsz. simpl in Hsz. lia.
    + done.
  - done.
  - intros _. unfold size. simpl. rewrite Hlast, length_app. simpl. lia.
  - intros key Hnone. destruct (decide (key = kl)) as [->|Hne].
    + apply lookup_delete_eq.
    + by rewrite lookup_delete_ne.
Qed.

Lemma wf_insert_new key value c h m e :
  wf c → size c < capacity_ c → cache_map_ c !! key = None →
  wf {| capacity_ := capacity_ c;
        cache_list_ := (fresh_iterator (cache_list_ c), (key, value)) :: cache_list_ c;
        cache_map_ := <[key := fresh_iterator (cache_list_ c)]> (cache_map_ c);
        hits_ := h; misses_ := m; evictions_ := e |}.
Proof.
  intros Hwf Hlt Hnone. pose proof Hwf as [Hnd Hidx Hsz Hpos].
  pose proof (fresh_iterator_fresh (cache_list_ c)) as Hfresh.
  split; simpl.
  - by apply NoDup_cons.
  - intros key' it'. setoid_rewrite elem_of_cons.
    destruct (decide (key' = key)) as [->|Hne].
    + rewrite lookup_insert_eq. split.
      * intros [= <-]. eauto.
      * intros [v [Heq | Hin]]; [by simplify_eq|].
        assert (cache_map_ c !! key = Some it') by (apply Hidx; eauto).
        congruence.
    + rewrite lookup_insert_ne by done. rewrite Hidx.
      split; intros [v Hv]; [eauto|].
      destruct Hv as [?|?]; [congruence | eauto].
  - unfold size in *. simpl. lia.
  - done.
Qed.

(** [put] of a key that is not indexed: the tail is evicted when the cache
    is full, and the new item is the head. *)
Lemma put_new key value c :
  wf c → cache_map_ c !! key = None →
  ∃ c', put key value c = Ok c'
        ∧ wf c'
        ∧ capacity_ c' = capacity_ c
        ∧ size c' = (if size c >=? capacity_ c then size c else size c + 1)
        ∧ hits_ c' = hits_ c ∧ misses_ c' = misses_ c.
Proof.
  intros Hwf Hnone. pose proof Hwf as [Hnd Hidx Hsz Hpos].
  unfold put. rewrite Hnone. eexists. split; [done|].
  rewrite Z.geb_leb. destruct (Z.leb_spec (capacity_ c) (size c)) as [Hfull|Hroom].
  - destruct (wf_evict_lru c Hwf) as (Hwf1 & Hcap1 & Hsz1 & Hnone1).
    assert (cache_list_ c ≠ []) as Hne.
    { intros Hnil. unfold size in Hfull. rewrite Hnil in Hfull. simpl in Hfull. lia. }
    specialize (Hsz1 Hne). specialize (Hnone1 _ Hnone).
    split_and!.
    + apply wf_insert_new; [done | lia | done].
    + done.
    + unfold size in *. simpl. lia.
    + unfold evict_lru. by destruct (last (cache_list_ c)) as [[? [? ?]]|].
    + unfold evict_lru. by destruct (last (cache_list_ c)) as [[? [? ?]]|].
  - split_and!; try done.
    + by apply wf_insert_new.
    + unfold size. simpl. lia.
Qed.

(** [put] keeps the invariant and the capacity, whatever the key. *)
Lemma put_wf key value c :
  wf c → ∃ c', put key value c = Ok c' ∧ wf c' ∧ capacity_ c' = capacity_ c.
Proof.
  intros Hwf. destruct (cache_map_ c !! key) as [it|] eqn:Hm.
  - pose proof Hm as Hm'. apply Hwf in Hm' as [old Hin].
    apply wf_node_item in Hin; [|done].
    eexists. split; [by eapply put_existing|].
    split; [by eapply wf_put_existing | done].
  - destruct (put_new key value c Hwf Hm) as (c' & Hput & Hwf' & Hcap & _).
    eauto.
Qed.

Lemma put_all_wf calls c :
  wf c → ∃ c', put_all calls c = Ok c' ∧ wf c' ∧ capacity_ c' = capacity_ c.
Proof.
  revert c. induction calls as [|[key value] calls IH]; intros c Hwf; simpl.
  - eauto.
  - destruct (put_wf key value c Hwf) as (c1 & -> & Hwf1 & Hcap1). simpl.
    destruct (IH c1 Hwf1) as (c' & Hrun & Hwf' & Hcap'). rewrite <- Hcap1. eauto.
Qed.

(** ** [hit_rate] *)

(** With a hit, the rate is a positive normal double within relative
    distance [2^-50] of the exact rate. *)
Lemma hit_rate_error c :
  0 < hits_ c → 0 ≤ misses_ c → hits_ c + misses_ c < SIZE_MODULUS →
  ∃ m e,
    hit_rate c = S754_finite false m e
    ∧ (Qabs (inject_Z (Z.pos m) * bpow e - hit_rate_exact (hits_ c) (misses_ c))
       <= hit_rate_exact (hits_ c) (misses_ c) * (1 # 2 ^ 50))%Q.
Proof.
  intros Hh Hm Hs. rewrite SIZE_MODULUS_eq in Hs.
  unfold hit_rate, hit_rate_exact, size_wrap. rewrite SIZE_MODULUS_eq.
  set (hits := hits_ c) in *. set (misses := misses_ c) in *.
  clearbody hits misses.
  rewrite Z.mod_small by lia.
  destruct (Z.eqb_spec (hits + misses) 0) as [|_]; [lia|].
  destruct (double_of_size_pos hits ltac:(lia)) as (mh & eh & -> & Hmh & Heh & Hvh).
  destruct (double_of_size_pos (hits + misses) ltac:(lia))
    as (ms & es & -> & Hms & Hes & Hvs).
  change (double_of_size 100) with (S754_finite false 7036874417766400 (-46)).
  unfold double_mul, double_div, double_prec, double_emax.
  set (qh := inject_Z hits) in *. set (qs := inject_Z (hits + misses)) in *.
  assert (0 < qh)%Q as HH by (unfold qh; rewrite <- (Zlt_Qlt 0); lia).
  assert (0 < qs)%Q as HS by (unfold qs; rewrite <- (Zlt_Qlt 0); lia).
  set (vh := (inject_Z (Z.pos mh) * bpow eh)%Q) in *.
  set (vs := (inject_Z (Z.pos ms) * bpow es)%Q) in *.
  assert (0 < vh)%Q as Hvhpos by (unfold u53 in Hvh; lra).
  assert (0 < vs)%Q as Hvspos by (unfold u53 in Hvs; lra).
  destruct (SFmul_correct mh eh 7036874417766400 (-46) Hmh ltac:(lia) ltac:(lia) ltac:(lia))
    as (e0p & He0p & Hp).
  fold vh in Hp.
  apply (rounded_proper _ (vh * 100)%Q) in Hp; [|by rewrite hundred_value].
  apply rounded_interval in Hp as (mp & ep & -> & Hmp & Hep & Hvp); [|lra].
  set (vp := (inject_Z (Z.pos mp) * bpow ep)%Q) in *.
  assert (0 < vp)%Q as Hvppos by (unfold u53 in Hvp; nra).
  destruct (SFdiv_correct mp ep ms es Hmp Hms ltac:(lia) ltac:(lia)) as (e0r & He0r & Hr).
  fold vp vs in Hr.
  assert (0 < vp / vs)%Q as Hapos.
  { apply Qlt_shift_div_l; [done|]. by rewrite Qmult_0_l. }
  apply rounded_interval in Hr as (mr & er & -> & Hmr & Her & Hvr); [|done].
  exists mr, er. split; [done|].
  set (r := (inject_Z (Z.pos mr) * bpow er)%Q) in *.
  set (A := (vp / vs)%Q) in *. set (E := (qh / qs * 100)%Q).
  assert (A * vs == vp)%Q as HA.
  { unfold A. field. intros Hz. rewrite Hz in Hvspos. by apply Qlt_irrefl in Hvspos. }
  assert (E * qs == 100 * qh)%Q as HE.
  { unfold E. field. intros Hz. rewrite Hz in HS. by apply Qlt_irrefl in HS. }
  assert (0 < E)%Q as HEpos.
  { apply (ratio_lt_l E (100 * qh) qs 0); [done..|]. lra. }
  clearbody A E r vp vs vh qh qs.
  unfold u53 in *.
  (* bounds of [A] by [E] *)
  assert (A * (1 - (1 # 9007199254740992))
          <= E * ((1 + (1 # 9007199254740992)) * (1 + (1 # 9007199254740992))))%Q as Hup.
  { apply (Qmult_le_r _ _ qs); [done|].
    assert (A * (qs * (1 - (1 # 9007199254740992))) <= A * vs)%Q as H1.
    { apply Qmult_le_l; [done | lra]. }
    nra. }
  assert (E * ((1 - (1 # 9007199254740992)) * (1 - (1 # 9007199254740992)))
          <= A * (1 + (1 # 9007199254740992)))%Q as Hdown.
  { apply (Qmult_le_r _ _ qs); [done|].
    assert (A * vs <= A * (qs * (1 + (1 # 9007199254740992))))%Q as H1.
    { apply Qmult_le_l; [done | lra]. }
    nra. }
  apply Qabs_Qle_condition. change (1 # 2 ^ 50)%Q with (1 # 1125899906842624)%Q.
  lra.
Qed.

(** Without a hit, the rate is the double [+0]. *)
Lemma hit_rate_no_hit c :
  hits_ c = 0 → 0 ≤ misses_ c < SIZE_MODULUS → hit_rate c = S754_zero false.
Proof.
  intros Hh Hm. unfold hit_rate. rewrite Hh, Z.add_0_l.
  destruct (Z.eqb_spec (size_wrap (misses_ c)) 0) as [|Hnz]; [done|].
  unfold size_wrap in *. rewrite Z.mod_small in * by lia.
  rewrite SIZE_MODULUS_eq in Hm.
  destruct (double_of_size_pos (misses_ c) ltac:(lia)) as (m & e & -> & _).
  reflexivity.
Qed.

(** C9: [hit_rate] returns the double [+0] when there was no lookup, the
    double 75 after 3 hits and 1 miss, and in all cases a finite double
    whose value is hits / (hits + misses) x 100 up to the rounding of
    binary64: their distance is at most [2^-50] times the exact rate, and
    is 0 when the exact rate is 0.  The counters are [size_t] values whose
    sum is below [2^64]. *)
Theorem hit_rate_contract c :
  0 ≤ hits_ c → 0 ≤ misses_ c → hits_ c + misses_ c < SIZE_MODULUS →
  (hits_ c + misses_ c = 0 → hit_rate c = S754_zero false)
  ∧ (hits_ c = 3 → misses_ c = 1 →
     hit_rate c = double_of_size 75
     ∧ ∃ v, double_value (double_of_size 75) = Some v ∧ (v == 75)%Q)
  ∧ ∃ v, double_value (hit_rate c) = Some v
         ∧ (Qabs (v - hit_rate_exact (hits_ c) (misses_ c))
            <= hit_rate_exact (hits_ c) (misses_ c) * (1 # 2 ^ 50))%Q.
Proof.
  intros Hh Hm Hs. split_and!.
  - intros Hz. unfold hit_rate. by rewrite Hz.
  - intros H3 H1. split.
    + unfold hit_rate. rewrite H3, H1. vm_compute. reflexivity.
    + eexists. split; reflexivity.
  - destruct (decide (hits_ c = 0)) as [Hz|Hnz].
    + rewrite hit_rate_no_hit by lia. exists 0%Q. split; [done|].
      assert (hit_rate_exact (hits_ c) (misses_ c) == 0)%Q as ->; [|done].
      unfold hit_rate_exact. rewrite Hz.
      destruct (0 + misses_ c =? 0); [done|].
      unfold Qdiv. rewrite !Qmult_0_l. reflexivity.
    + destruct (hit_rate_error c ltac:(lia) Hm Hs) as (m & e & -> & Herr).
      eexists. split; [done|]. exact Herr.
Qed.

(** ** LRU ordering *)

(** For any four distinct keys: after [put] of [k1], [k2], [k3] into a cache
    of capacity 3 and [get] of [k2], [put] of [k4] evicts [k1], and neither
    [k2] nor [k3]. *)
Lemma lru_ordering (k1 k2 k3 k4 : Key) (v1 v2 v3 v4 : Value) :
  k1 ≠ k2 → k1 ≠ k3 → k1 ≠ k4 → k2 ≠ k3 → k2 ≠ k4 → k3 ≠ k4 →
  ∃ c3 c4 c5 c6 c7,
    (c ← LRUCache_new 3; c ← put k1 v1 c; c ← put k2 v2 c; put k3 v3 c) = Ok c3
    ∧ get k2 c3 = Ok (Some v2, c4)
    ∧ put k4 v4 c4 = Ok c5
    ∧ items c4 = [(k2, v2); (k3, v3); (k1, v1)]
    ∧ items c5 = [(k4, v4); (k2, v2); (k3, v3)]
    ∧ evictions_ c4 = 0 ∧ evictions_ c5 = 1
    ∧ get k1 c5 = Ok (None, c6)
    ∧ get k4 c6 = Ok (Some v4, c7).
Proof.
  intros H12 H13 H14 H23 H24 H34.
  do 5 eexists. split.
  { unfold LRUCache_new. simpl. unfold put at 3. simpl.
    rewrite lookup_empty. simpl.
    unfold put at 2. simpl. rewrite lookup_insert_ne, lookup_empty by done. simpl.
    unfold put. simpl.
    rewrite !lookup_insert_ne, lookup_empty by done. simpl. reflexivity. }
  split.
  { unfold get. simpl. rewrite lookup_insert_ne, lookup_insert_eq by done.
    simpl. reflexivity. }
  split.
  { unfold put. simpl. rewrite !lookup_insert_ne, lookup_empty by done.
    simpl. reflexivity. }
  split; [reflexivity|]. split; [reflexivity|].
  split; [reflexivity|]. split; [reflexivity|].
  split.
  { unfold get. simpl. rewrite lookup_insert_ne, lookup_delete_eq by done.
    reflexivity. }
  unfold get. simpl. rewrite lookup_insert_eq. simpl. reflexivity.
Qed.

Lemma size_incr_succ x : 0 ≤ x < SIZE_MODULUS - 1 → size_incr x = x + 1.
Proof. intros Hx. unfold size_incr, size_wrap. apply Z.mod_small. lia. Qed.

(** C6: [get] of a key the cache contains, with stored value [value],
    returns [value], increments the hit counter (a [size_t] increment, plus
    one below [SIZE_MAX]) and moves the entry to the head of the recency
    sequence, the other entries keeping their order and the index its
    content; [get] of a key the cache does not contain returns the absent
    outcome, increments the miss counter and changes neither the sequence
    nor the index. *)
Theorem get_contract key c :
  wf c →
  (∀ value, (key, value) ∈ items c →
     ∃ c', get key c = Ok (Some value, c')
           ∧ hits_ c' = size_incr (hits_ c)
           ∧ (0 ≤ hits_ c < SIZE_MODULUS - 1 → hits_ c' = hits_ c + 1)
           ∧ items c' = (key, value) :: filter (λ kv, kv.1 ≠ key) (items c)
           ∧ cache_map_ c' = cache_map_ c
           ∧ misses_ c' = misses_ c ∧ evictions_ c' = evictions_ c
           ∧ capacity_ c' = capacity_ c
           ∧ wf c')
  ∧ (key ∉ keys c →
     ∃ c', get key c = Ok (None, c')
           ∧ misses_ c' = size_incr (misses_ c)
           ∧ (0 ≤ misses_ c < SIZE_MODULUS - 1 → misses_ c' = misses_ c + 1)
           ∧ cache_list_ c' = cache_list_ c
           ∧ cache_map_ c' = cache_map_ c
           ∧ hits_ c' = hits_ c ∧ evictions_ c' = evictions_ c
           ∧ capacity_ c' = capacity_ c
           ∧ wf c').
Proof.
  intros Hwf. split.
  - intros value Hin.
    destruct (wf_items_node c key value Hwf Hin) as (it & Hm & Hn).
    eexists. split; [by apply get_hit|]. simpl.
    split_and!; try done.
    + apply size_incr_succ.
    + unfold items at 1. simpl. f_equal. by apply wf_promote_items with value.
    + by eapply wf_put_existing.
  - intros Hnotin.
    assert (cache_map_ c !! key = None) as Hm.
    { apply eq_None_not_Some. by rewrite <- wf_keys_index. }
    eexists. split; [by apply get_miss|]. simpl.
    split_and!; try done; [apply size_incr_succ|].
    by destruct Hwf.
Qed.

(** C7: [put] of a key the cache already contains replaces the stored value
    and moves the entry to the head of the recency sequence, the other
    entries keeping their order; the hit, miss and eviction counters, the
    size and the index are unchanged, whatever the size of the cache. *)
Theorem put_existing_contract key old value c :
  wf c → (key, old) ∈ items c →
  ∃ c', put key value c = Ok c'
        ∧ items c' = (key, value) :: filter (λ kv, kv.1 ≠ key) (items c)
        ∧ hits_ c' = hits_ c ∧ misses_ c' = misses_ c
        ∧ evictions_ c' = evictions_ c
        ∧ size c' = size c
        ∧ capacity_ c' = capacity_ c
        ∧ cache_map_ c' = cache_map_ c
        ∧ wf c'.
Proof.
  intros Hwf Hin.
  destruct (wf_items_node c key old Hwf Hin) as (it & Hm & Hn).
  eexists. split; [by eapply put_existing|]. simpl.
  split_and!; try done.
  - unfold items at 1. simpl. f_equal. by apply wf_promote_items with old.
  - unfold size. simpl. by rewrite (unlink_length _ _ _ Hn).
  - by eapply wf_put_existing.
Qed.

End LRU_facts.

(** ** The scenario of the demonstration program *)

Section LRU_scenario.
Import LRU.

(** C1: in a cache of capacity 3, after [put(1,"Alice")], [put(2,"Bob")],
    [put(3,"Charlie")], [get(2)] returns "Bob" and makes key 2 the most
    recent; [put(4,"Diana")] then evicts key 1 and no other key, after
    which [get(1)] returns the absent outcome and [get(4)] returns
    "Diana". *)
Theorem lru_scenario :
  ∃ c3 c4 c5 c6 c7 : LRUCache Z string,
    (c ← LRUCache_new 3; c ← put 1 "Alice" c; c ← put 2 "Bob" c;
     put 3 "Charlie" c) = Ok c3
    ∧ keys c3 = [3; 2; 1]
    ∧ get 2 c3 = Ok (Some "Bob", c4)
    ∧ keys c4 = [2; 3; 1]
    ∧ put 4 "Diana" c4 = Ok c5
    ∧ keys c5 = [4; 2; 3]
    ∧ dom (cache_map_ c5) = {[2; 3; 4]}
    ∧ evictions_ c4 = 0 ∧ evictions_ c5 = 1
    ∧ get 1 c5 = Ok (None, c6)
    ∧ get 4 c6 = Ok (Some "Diana", c7).
Proof.
  do 5 eexists.
  split; [vm_compute; reflexivity|].
  split; [vm_compute; reflexivity|].
  split; [vm_compute; reflexivity|].
  split; [vm_compute; reflexivity|].
  split; [vm_compute; reflexivity|].
  split; [vm_compute; reflexivity|].
  split; [vm_compute; reflexivity|].
  split; [vm_compute; reflexivity|].
  split; [vm_compute; reflexivity|].
  split; [vm_compute; reflexivity|].
  vm_compute; reflexivity.
Qed.

Lemma demo_cache_wf : wf demo_cache.
Proof.
  destruct (wf_new (Key := Z) (Value := string) 3
              {| capacity_ := 3; cache_list_ := []; cache_map_ := ∅;
                 hits_ := 0; misses_ := 0; evictions_ := 0 |})
    as [Hwf _]; [lia | done |].
  destruct (put_all_wf [(1, "Alice"); (2, "Bob"); (3, "Charlie")] _ Hwf)
    as (c & Hrun & Hwf' & _).
  assert (c = demo_cache) as <-; [|done].
  vm_compute in Hrun. injection Hrun as <-. vm_compute. reflexivity.
Qed.

Lemma get_contract_witness :
  wf demo_cache
  ∧ (∃ c', get 2 demo_cache = Ok (Some "Bob", c')
           ∧ hits_ c' = 1
           ∧ items c' = [(2, "Bob"); (3, "Charlie"); (1, "Alice")])
  ∧ (∃ c', get 7 demo_cache = Ok (None, c')
           ∧ misses_ c' = 1
           ∧ cache_list_ c' = cache_list_ demo_cache
           ∧ cache_map_ c' = cache_map_ demo_cache).
Proof.
  split; [exact demo_cache_wf|].
  split.
  - destruct (proj1 (get_contract 2 demo_cache demo_cache_wf) "Bob")
      as (c' & Hget & Hhits & _ & Hitems & _).
    { vm_compute. right. left. }
    exists c'. split; [done|]. split; [by rewrite Hhits|]. by rewrite Hitems.
  - destruct (proj2 (get_contract 7 demo_cache demo_cache_wf))
      as (c' & Hget & Hmiss & _ & Hlist & Hmap & _).
    { vm_compute. intros Hin. repeat (apply elem_of_cons in Hin as [Hin|Hin]; [done|]).
      by apply elem_of_nil in Hin. }
    exists c'. split; [done|]. split; [by rewrite Hmiss|]. done.
Defined.

Lemma put_existing_contract_witness :
  wf demo_cache
  ∧ (1, "Alice") ∈ items demo_cache
  ∧ ∃ c', put 1 "Alicia" demo_cache = Ok c'
          ∧ items c' = [(1, "Alicia"); (3, "Charlie"); (2, "Bob")]
          ∧ hits_ c' = 0 ∧ misses_ c' = 0 ∧ evictions_ c' = 0
          ∧ size c' = 3.
Proof.
  assert ((1, "Alice") ∈ items demo_cache) as Hin.
  { vm_compute. right. right. left. }
  split; [exact demo_cache_wf|]. split; [exact Hin|].
  destruct (put_existing_contract 1 "Alice" "Alicia" demo_cache demo_cache_wf Hin)
    as (c' & Hput & Hitems & Hh & Hm & He & Hsz & _).
  exists c'. split; [done|]. rewrite Hitems, Hh, Hm, He, Hsz. done.
Defined.

Lemma hit_rate_contract_witness :
  ∃ c : LRUCache Z string,
    (r ← get 1 demo_cache; r ← get 2 r.2; r ← get 3 r.2; r ← get 7 r.2; Ok r.2)
    = Ok c
    ∧ hits_ c = 3 ∧ misses_ c = 1
    ∧ 0 ≤ hits_ c ∧ 0 ≤ misses_ c ∧ hits_ c + misses_ c < SIZE_MODULUS
    ∧ hit_rate c = S754_finite false 5277655813324800 (-46)
    ∧ hit_rate_exact (hits_ c) (misses_ c) = (300 # 4)%Q.
Proof.
  eexists. split; [vm_compute; reflexivity|].
  assert (0 ≤ 3) as Hh by lia.
  assert (0 ≤ 1) as Hm by lia.
  assert (3 + 1 < SIZE_MODULUS) as Hs by (by vm_compute).
  split; [reflexivity|]. split; [reflexivity|].
  split; [exact Hh|]. split; [exact Hm|]. split; [exact Hs|].
  match goal with
  | |- hit_rate ?c = _ ∧ _ =>
      destruct (hit_rate_contract c Hh Hm Hs) as (_ & H75 & _)
  end.
  destruct (H75 eq_refl eq_refl) as [Hrate _].
  split; [exact Hrate | reflexivity].
Defined.

End LRU_scenario.

(** * Properties of the memory pool *)

Section Pool_facts.
Import Pool.
Implicit Types (p : MemoryPool) (mem : gmap Z Z) (a v : Z).

(** ** Memory *)

Lemma load_bytes_insert_other n a b x mem :
  (b < a ∨ a + Z.of_nat n ≤ b) →
  load_bytes n a (<[b := x]> mem) = load_bytes n a mem.
Proof.
  revert a. induction n as [|n IH]; intros a Hab; simpl; [done|].
  rewrite lookup_insert_ne by lia. rewrite IH by lia. done.
Qed.

Lemma load_bytes_store_bytes_other n m a b v mem :
  (b + Z.of_nat m ≤ a ∨ a + Z.of_nat n ≤ b) →
  load_bytes n a (store_bytes m b v mem) = load_bytes n a mem.
Proof.
  revert b v. induction m as [|m IH]; intros b v Hab; simpl; [done|].
  rewrite load_bytes_insert_other by lia. apply IH. lia.
Qed.

Lemma load_bytes_store_bytes n a v mem :
  0 ≤ v < 256 ^ Z.of_nat n →
  load_bytes n a (store_bytes n a v mem) = Some v.
Proof.
  revert a v. induction n as [|n IH]; intros a v Hv; simpl.
  - f_equal. change (256 ^ Z.of_nat 0) with 1 in Hv. lia.
  - rewrite lookup_insert_eq. simpl.
    rewrite load_bytes_insert_other by lia.
    rewrite IH.
    + simpl. f_equal. pose proof (Z.div_mod v 256). lia.
    + rewrite Nat2Z.inj_succ, Z.pow_succ_r in Hv by lia.
      split; [apply Z.div_pos; lia|].
      apply Z.div_lt_upper_bound; lia.
Qed.

Lemma load_next_store_next a v mem :
  0 ≤ v < SIZE_MODULUS → load_next a (store_next a v mem) = Some v.
Proof. intros Hv. by apply load_bytes_store_bytes. Qed.

Lemma load_next_store_next_other a b v mem :
  (b + sizeof_FreeBlock ≤ a ∨ a + sizeof_FreeBlock ≤ b) →
  load_next a (store_next b v mem) = load_next a mem.
Proof. intros Hab. by apply load_bytes_store_bytes_other. Qed.

(** A store outside the linked blocks leaves the free list as it is. *)
Lemma chain_store_other mem head blocks b v :
  (∀ a, a ∈ blocks → b + sizeof_FreeBlock ≤ a ∨ a + sizeof_FreeBlock ≤ b) →
  chain mem head blocks → chain (store_next b v mem) head blocks.
Proof.
  revert head. induction blocks as [|a blocks IH]; intros head Hsep; simpl; [done|].
  intros (-> & Hnz & next & Hload & Hchain).
  split_and!; [done..|]. exists next. split.
  - rewrite load_next_store_next_other; [done|]. apply Hsep. left.
  - apply IH; [|done]. intros a' Hin. apply Hsep. by right.
Qed.

(** ** Arena geometry *)

Lemma arena_size_small p :
  arena_ok p →
  0 ≤ block_size_ p * block_count_ p
  ∧ size_wrap (block_size_ p * block_count_ p) = block_size_ p * block_count_ p
  ∧ ptr_wrap (memory_start_ p + block_size_ p * block_count_ p)
    = memory_start_ p + block_size_ p * block_count_ p.
Proof.
  intros [Hs Hb Hc He]. unfold sizeof_FreeBlock in Hb.
  assert (0 ≤ block_size_ p * block_count_ p) by nia.
  unfold size_wrap, ptr_wrap. rewrite !Z.mod_small by lia. done.
Qed.

Lemma is_from_pool_spec ptr p :
  arena_ok p →
  is_from_pool ptr p = true ↔
  memory_start_ p ≤ ptr < memory_start_ p + block_size_ p * block_count_ p.
Proof.
  intros Hok. destruct (arena_size_small p Hok) as (_ & Hsz & Hend).
  unfold is_from_pool. rewrite Hsz, Hend.
  rewrite andb_true_iff, Z.geb_leb, Z.leb_le, Z.ltb_lt. done.
Qed.

Lemma block_in_arena p a :
  arena_ok p → is_block p a →
  memory_start_ p ≤ a < memory_start_ p + block_size_ p * block_count_ p
  ∧ 0 < a < SIZE_MODULUS.
Proof.
  intros [Hs Hb Hc He] (i & Hi & ->). unfold block_address, sizeof_FreeBlock in *.
  nia.
Qed.

(** Two distinct blocks do not overlap in their first [sizeof(FreeBlock)]
    bytes. *)
Lemma blocks_apart p a b :
  arena_ok p → is_block p a → is_block p b → a ≠ b →
  b + sizeof_FreeBlock ≤ a ∨ a + sizeof_FreeBlock ≤ b.
Proof.
  intros [Hs Hb Hc He] (i & Hi & ->) (j & Hj & ->) Hne.
  unfold block_address, sizeof_FreeBlock in *.
  assert (i < j ∨ j < i) as [?|?] by (destruct (decide (i = j)); [congruence | lia]); nia.
Qed.

(** ** [allocate] on an empty free list, [deallocate] of null and of
    addresses outside the arena *)

Lemma allocate_empty p mem :
  free_list_ p = 0 → allocate p mem = Ok (0, [pool_exhausted], p).
Proof. intros Hfl. unfold allocate. by rewrite Hfl. Qed.

(** C4: [allocate] on a pool whose free list is empty returns the null
    address with the exhaustion diagnostic, and the pool is left as it was:
    usage, allocation count and free list are unchanged ([allocate] never
    writes to memory). *)
Theorem allocate_exhausted p mem :
  free_list_ p = 0 →
  allocate p mem = Ok (0, [pool_exhausted], p).
Proof. apply allocate_empty. Qed.

(** C5: [deallocate] of the null address does nothing and reports nothing;
    [deallocate] of any other address outside
    [memory_start_, memory_start_ + block_size_ * block_count_) reports the
    misuse and leaves the pool and the memory as they were: usage,
    deallocation count and free list are unchanged and nothing is stored at
    the address. *)
Theorem deallocate_null_or_outside p mem :
  arena_ok p →
  deallocate 0 p mem = ([], p, mem)
  ∧ ∀ ptr,
      ptr ≠ 0 →
      ¬ (memory_start_ p ≤ ptr
         < memory_start_ p + block_size_ p * block_count_ p) →
      deallocate ptr p mem = ([not_from_pool], p, mem).
Proof.
  intros Hok. split; [done|]. intros ptr Hnz Hout.
  unfold deallocate. destruct (Z.eqb_spec ptr 0); [done|].
  destruct (is_from_pool ptr p) eqn:Hin; [|done].
  by apply is_from_pool_spec in Hin.
Qed.

Lemma size_decr_pred x : 0 < x < SIZE_MODULUS → size_decr x = x - 1.
Proof. intros Hx. unfold size_decr, size_wrap. apply Z.mod_small. lia. Qed.

Lemma deallocate_inside ptr p mem :
  arena_ok p →
  memory_start_ p ≤ ptr < memory_start_ p + block_size_ p * block_count_ p →
  deallocate ptr p mem =
    ([],
     {| memory_start_ := memory_start_ p; block_size_ := block_size_ p;
        block_count_ := block_count_ p; free_list_ := ptr;
        allocations_ := allocations_ p;
        deallocations_ := size_incr (deallocations_ p);
        current_usage_ := size_decr (current_usage_ p) |},
     store_next ptr (free_list_ p) mem).
Proof.
  intros Hok Hin. pose proof (arena_start p Hok).
  unfold deallocate. destruct (Z.eqb_spec ptr 0); [lia|].
  apply is_from_pool_spec in Hin; [|done]. by rewrite Hin.
Qed.

(** C10: [deallocate] accepts every address inside the arena, block start
    or not: for an address of the arena that is the start of no block, the
    address becomes the head of the free list and is linked to the former
    head, the deallocation counter is incremented and the usage decremented,
    and no diagnostic is written; the free list then holds an address that
    is no block, so that the free-list partition does not hold any more. *)
Theorem deallocate_accepts_interior ptr p mem :
  arena_ok p →
  0 ≤ free_list_ p < SIZE_MODULUS →
  memory_start_ p ≤ ptr < memory_start_ p + block_size_ p * block_count_ p →
  (∀ i, ptr ≠ block_address p i) →
  ∃ p' mem',
    deallocate ptr p mem = ([], p', mem')
    ∧ free_list_ p' = ptr
    ∧ load_next ptr mem' = Some (free_list_ p)
    ∧ deallocations_ p' = size_incr (deallocations_ p)
    ∧ current_usage_ p' = size_decr (current_usage_ p)
    ∧ (0 < current_usage_ p < SIZE_MODULUS →
       current_usage_ p' = current_usage_ p - 1)
    ∧ ¬ is_block p' ptr
    ∧ ∀ free outstanding, ¬ partition p' mem' free outstanding.
Proof.
  intros Hok Hfl Hin Hnoblock.
  do 2 eexists. split; [by apply deallocate_inside|]. simpl.
  assert (¬ is_block
              {| memory_start_ := memory_start_ p; block_size_ := block_size_ p;
                 block_count_ := block_count_ p; free_list_ := ptr;
                 allocations_ := allocations_ p;
                 deallocations_ := size_incr (deallocations_ p);
                 current_usage_ := size_decr (current_usage_ p) |} ptr) as Hnb.
  { intros (i & _ & Heq). by apply (Hnoblock i). }
  split_and!; try done.
  - by apply load_next_store_next.
  - apply size_decr_pred.
  - intros free outstanding [_ Hchain _ Hblocks _ _]. simpl in Hchain.
    destruct free as [|a free]; simpl in Hchain.
    + pose proof (arena_start p Hok). lia.
    + destruct Hchain as (<- & _). apply Hnb, Hblocks. left.
Qed.

(** ** Construction *)

Lemma blocks_from_cons p i :
  i < block_count_ p →
  blocks_from p i = block_address p i :: blocks_from p (i + 1).
Proof.
  intros Hi. unfold blocks_from. rewrite seqZ_cons by lia. simpl.
  do 3 f_equal; lia.
Qed.

Lemma elem_of_blocks_from p i a :
  a ∈ blocks_from p i ↔ ∃ j, i ≤ j < block_count_ p ∧ a = block_address p j.
Proof.
  unfold blocks_from. rewrite list_elem_of_fmap.
  setoid_rewrite elem_of_seqZ. split.
  - intros (j & -> & Hj). exists j. split; [lia | done].
  - intros (j & Hj & ->). exists j. split; [done | lia].
Qed.

(** The loop of [init_free_list] with [n] iterations left links the blocks
    of indices [n - 1] down to [0] in front of the list built so far. *)
Lemma init_free_list_loop_chain p n free_list mem :
  arena_ok p →
  Z.of_nat n ≤ block_count_ p →
  0 ≤ free_list < SIZE_MODULUS →
  chain mem free_list (blocks_from p (Z.of_nat n)) →
  ∃ free_list' mem',
    init_free_list_loop n (block_size_ p)
      (ptr_wrap (block_address p (Z.of_nat n - 1))) free_list mem
    = (free_list', mem')
    ∧ chain mem' free_list' (blocks p)
    ∧ 0 ≤ free_list' < SIZE_MODULUS.
Proof.
  intros Hok. pose proof Hok as [Hs Hb Hc He]. unfold sizeof_FreeBlock in Hb.
  revert free_list mem. induction n as [|n IH]; intros free_list mem Hn Hfl Hchain.
  - simpl. eauto.
  - simpl init_free_list_loop.
    replace (Z.of_nat (S n) - 1) with (Z.of_nat n) by lia.
    assert (is_block p (block_address p (Z.of_nat n))) as Hblk.
    { exists (Z.of_nat n). split; [lia | done]. }
    pose proof (block_in_arena p _ Hok Hblk) as [_ Hrange].
    assert (ptr_wrap (block_address p (Z.of_nat n)) = block_address p (Z.of_nat n)) as ->.
    { unfold ptr_wrap. apply Z.mod_small. lia. }
    replace (block_address p (Z.of_nat n) - block_size_ p)
      with (block_address p (Z.of_nat n - 1)) by (unfold block_address; lia).
    apply IH; [lia | lia |].
    rewrite blocks_from_cons by lia. simpl. split_and!; [done | lia |].
    exists free_list. split; [by apply load_next_store_next|].
    replace (Z.of_nat n + 1) with (Z.of_nat (S n)) by lia.
    apply chain_store_other; [|done].
    intros a (j & Hj & ->)%elem_of_blocks_from.
    left. unfold block_address, sizeof_FreeBlock.
    assert (0 ≤ (j - Z.of_nat n - 1) * block_size_ p) by (apply Z.mul_nonneg_nonneg; lia).
    lia.
Qed.

Lemma blocks_partition_facts p :
  arena_ok p →
  NoDup (blocks p)
  ∧ (∀ a, a ∈ blocks p ↔ is_block p a)
  ∧ Z.of_nat (length (blocks p)) = block_count_ p.
Proof.
  intros [Hs Hb Hc He]. unfold sizeof_FreeBlock in Hb. split_and!.
  - unfold blocks, blocks_from. apply NoDup_fmap_2_strong; [|apply NoDup_seqZ].
    intros i j _ _. unfold block_address. nia.
  - intros a. unfold blocks. rewrite elem_of_blocks_from. done.
  - unfold blocks, blocks_from. rewrite length_fmap, length_seqZ. lia.
Qed.

Lemma MemoryPool_new_partition block_size block_count operator_new mem p mem' :
  0 ≤ block_count →
  corrected_block_size block_size * block_count < SIZE_MODULUS →
  operator_new_ok operator_new →
  MemoryPool_new block_size block_count operator_new mem = Ok (p, mem') →
  partition p mem' (blocks p) []
  ∧ block_size_ p = corrected_block_size block_size
  ∧ block_count_ p = block_count
  ∧ operator_new (corrected_block_size block_size * block_count)
    = Some (memory_start_ p)
  ∧ allocations_ p = 0 ∧ deallocations_ p = 0.
Proof.
  intros Hc Hsz Hnew. unfold MemoryPool_new.
  set (bs := corrected_block_size block_size) in *.
  assert (sizeof_FreeBlock ≤ bs) as Hbs.
  { unfold bs, corrected_block_size.
    destruct (Z.ltb_spec block_size sizeof_FreeBlock); lia. }
  assert (size_wrap (bs * block_count) = bs * block_count) as ->.
  { unfold size_wrap. apply Z.mod_small. unfold sizeof_FreeBlock in Hbs. nia. }
  destruct (operator_new (bs * block_count)) as [start|] eqn:Hstart; [|done].
  destruct (Z.eqb_spec start 0) as [|Hnz]; [done|].
  destruct (Hnew _ _ Hstart) as [Hs0 Hend].
  set (p0 := {| memory_start_ := start; block_size_ := bs;
                block_count_ := block_count; free_list_ := 0;
                allocations_ := 0; deallocations_ := 0; current_usage_ := 0 |}).
  assert (arena_ok p0) as Hok0 by (split; simpl; lia).
  unfold init_free_list.
  assert (∃ free_list' mem1,
            init_free_list_loop (Z.to_nat (block_count_ p0)) (block_size_ p0)
              (ptr_wrap (memory_start_ p0
                 + size_wrap (size_wrap (block_count_ p0 - 1) * block_size_ p0)))
              0 mem = (free_list', mem1)
            ∧ chain mem1 free_list' (blocks p0)) as (fl & mem1 & -> & Hchain).
  { destruct (decide (block_count = 0)) as [->|Hpos].
    - simpl. do 2 eexists. split; [done|]. done.
    - destruct (init_free_list_loop_chain p0 (Z.to_nat block_count) 0 mem)
        as (fl & mem1 & Hloop & Hchain & _); simpl.
      + done.
      + lia.
      + rewrite SIZE_MODULUS_eq. lia.
      + unfold blocks_from. simpl. rewrite seqZ_nil by lia. done.
      + exists fl, mem1. split; [|done]. rewrite <- Hloop. do 2 f_equal.
        unfold block_address. simpl. f_equal.
        unfold size_wrap. unfold sizeof_FreeBlock in Hbs.
        assert (0 ≤ (block_count - 1) * bs) by (apply Z.mul_nonneg_nonneg; lia).
        assert ((block_count - 1) * bs = bs * block_count - bs) as Hprod by ring.
        assert (0 ≤ (bs - 1) * block_count) by (apply Z.mul_nonneg_nonneg; lia).
        assert ((bs - 1) * block_count = bs * block_count - block_count) by ring.
        rewrite (Z.mod_small (block_count - 1)) by lia.
        rewrite Z.mod_small by lia. lia. }
  intros [= <- <-].
  set (p1 := {| memory_start_ := start; block_size_ := bs;
                block_count_ := block_count; free_list_ := fl;
                allocations_ := 0; deallocations_ := 0; current_usage_ := 0 |}).
  assert (arena_ok p1) as Hok1 by (split; simpl; lia).
  destruct (blocks_partition_facts p1 Hok1) as (Hnd & Hblk & Hlen).
  split_and!; try done.
  split; try done.
  - by rewrite app_nil_r.
  - intros a. rewrite app_nil_r. apply Hblk.
  - simpl. rewrite Hlen. simpl. lia.
Qed.

(** The geometry of the arena is fixed at construction: no call changes
    it, disciplined or not. *)
Lemma run_arena_ok calls p mem p' mem' :
  arena_ok p → run calls p mem = Ok (p', mem') → arena_ok p'.
Proof.
  revert p mem. induction calls as [|[|ptr] calls IH]; intros p mem Hok; simpl.
  - by intros [= <- <-].
  - unfold allocate. destruct (free_list_ p =? 0); simpl; [by apply IH|].
    destruct (load_next (free_list_ p) mem) as [next|]; simpl; [|done].
    apply IH. by destruct Hok.
  - unfold deallocate. destruct (ptr =? 0); simpl; [by apply IH|].
    destruct (is_from_pool ptr p); simpl; [|by apply IH].
    apply IH. by destruct Hok.
Qed.

Lemma MemoryPool_new_arena_ok
    block_size block_count operator_new mem calls p mem0 p' mem' :
  0 ≤ block_count →
  corrected_block_size block_size * block_count < SIZE_MODULUS →
  operator_new_ok operator_new →
  MemoryPool_new block_size block_count operator_new mem = Ok (p, mem0) →
  run calls p mem0 = Ok (p', mem') →
  arena_ok p'.
Proof.
  intros Hc Hsz Hnew Hctor Hrun.
  destruct (MemoryPool_new_partition _ _ _ _ _ _ Hc Hsz Hnew Hctor) as (Hpart & _).
  eapply run_arena_ok; [|done]. apply Hpart.
Qed.

(** ** The free-list partition along calls *)

Lemma partition_block_count p mem free outstanding :
  partition p mem free outstanding → block_count_ p < SIZE_MODULUS.
Proof.
  intros [[Hs Hb Hc He] _ _ _ _ _]. unfold sizeof_FreeBlock in Hb.
  rewrite SIZE_MODULUS_eq in *. nia.
Qed.

Lemma partition_free_list_range p mem free outstanding :
  partition p mem free outstanding → 0 ≤ free_list_ p < SIZE_MODULUS.
Proof.
  intros [Hok Hchain _ Hblocks _ _]. destruct free as [|a free]; simpl in Hchain.
  - rewrite Hchain, SIZE_MODULUS_eq. lia.
  - destruct Hchain as (-> & _).
    assert (is_block p a) as Hblk by (apply Hblocks; left).
    pose proof (block_in_arena p a Hok Hblk). lia.
Qed.

Lemma partition_usage_bound p mem free outstanding :
  partition p mem free outstanding → 0 ≤ current_usage_ p ≤ block_count_ p.
Proof. intros [_ _ _ _ Hcount Husage]. lia. Qed.

(** [allocate] with a block in the free list pops its head. *)
Lemma allocate_partition p mem a free outstanding :
  partition p mem (a :: free) outstanding →
  ∃ p', allocate p mem = Ok (a, [], p')
        ∧ partition p' mem free (a :: outstanding)
        ∧ allocations_ p' = size_incr (allocations_ p)
        ∧ memory_start_ p' = memory_start_ p
        ∧ block_size_ p' = block_size_ p
        ∧ block_count_ p' = block_count_ p.
Proof.
  intros Hpart. pose proof (partition_block_count _ _ _ _ Hpart) as Hbc.
  destruct Hpart as [Hok Hchain Hnd Hblocks Hcount Husage].
  simpl in Hchain. destruct Hchain as (Hhead & Hnz & next & Hload & Hchain).
  unfold allocate. rewrite Hhead. destruct (Z.eqb_spec a 0); [done|].
  rewrite Hload. simpl. eexists. split; [done|]. split_and!; try done.
  split; simpl.
  - by destruct Hok.
  - done.
  - by rewrite <- Permutation_middle.
  - intros b Hb. destruct (Hblocks b) as (i & Hi & ->).
    { by rewrite <- Permutation_middle in Hb. }
    by exists i.
  - simpl in Hcount. lia.
  - rewrite Husage. simpl in Hcount. rewrite size_incr_succ; lia.
Qed.

Lemma NoDup_filter_ne (a : Z) (xs : list Z) :
  NoDup xs → a ∈ xs → xs ≡ₚ a :: filter (λ b, b ≠ a) xs.
Proof.
  induction 1 as [|x xs Hx Hnd IH]; intros Hin.
  - by apply elem_of_nil in Hin.
  - destruct (decide (x = a)) as [->|Hne].
    + rewrite filter_cons_False by tauto. f_equiv.
      rewrite filter_all; [done|]. apply Forall_forall. congruence.
    + rewrite filter_cons_True by done.
      apply elem_of_cons in Hin as [?|Hin]; [congruence|].
      rewrite Permutation_swap. f_equiv. by apply IH.
Qed.

(** [deallocate] of an outstanding block pushes it on the free list. *)
Lemma deallocate_partition p mem a free outstanding :
  partition p mem free outstanding → a ∈ outstanding →
  ∃ p' mem', deallocate a p mem = ([], p', mem')
             ∧ block_count_ p' = block_count_ p
             ∧ partition p' mem' (a :: free) (filter (λ b, b ≠ a) outstanding).
Proof.
  intros Hpart Hin. pose proof (partition_free_list_range _ _ _ _ Hpart) as Hfl.
  pose proof (partition_block_count _ _ _ _ Hpart) as Hbc.
  destruct Hpart as [Hok Hchain Hnd Hblocks Hcount Husage].
  assert (is_block p a) as Hblk by (apply Hblocks, elem_of_app; by right).
  destruct (block_in_arena p a Hok Hblk) as [Harena Hrange].
  pose proof (NoDup_app free outstanding) as Happ. apply Happ in Hnd as (Hnd1 & Hdisj & Hnd2).
  pose proof (NoDup_filter_ne a outstanding Hnd2 Hin) as Hperm.
  do 2 eexists. split; [by apply deallocate_inside|].
  split; [done|].
  split; simpl.
  - by destruct Hok.
  - split_and!; [done | lia |]. exists (free_list_ p).
    split; [by apply load_next_store_next|].
    apply chain_store_other; [|done].
    intros b Hb. apply blocks_apart with p; try done.
    + apply Hblocks, elem_of_app. by left.
    + intros ->. by apply (Hdisj a).
  - rewrite Permutation_middle, <- Hperm. by apply Happ.
  - intros b Hb. destruct (Hblocks b) as (i & Hi & ->).
    { by rewrite Permutation_middle, <- Hperm in Hb. }
    by exists i.
  - apply Permutation_length in Hperm. simpl in Hperm. lia.
  - apply Permutation_length in Hperm. simpl in Hperm.
    rewrite Husage, size_decr_pred; lia.
Qed.

(** [deallocate] of the null address or of an address outside the arena. *)
Lemma deallocate_rejected_partition p mem a free outstanding :
  partition p mem free outstanding →
  a = 0 ∨ is_from_pool a p = false →
  (deallocate a p mem).1.2 = p ∧ (deallocate a p mem).2 = mem
  ∧ filter (λ b, b ≠ a) outstanding = outstanding.
Proof.
  intros Hpart Hrej. destruct Hpart as [Hok Hchain Hnd Hblocks Hcount Husage].
  split_and!.
  - unfold deallocate. destruct Hrej as [->|Hrej]; [done|].
    destruct (Z.eqb_spec a 0); [done|]. by rewrite Hrej.
  - unfold deallocate. destruct Hrej as [->|Hrej]; [done|].
    destruct (Z.eqb_spec a 0); [done|]. by rewrite Hrej.
  - apply filter_all, Forall_forall. intros b Hb ->.
    assert (is_block p a) as Hblk by (apply Hblocks, elem_of_app; by right).
    destruct (block_in_arena p a Hok Hblk) as [Harena Hrange].
    destruct Hrej as [->|Hrej]; [lia|].
    apply (is_from_pool_spec a p Hok) in Harena. congruence.
Qed.

(** A disciplined sequence of calls runs to its end and keeps the
    partition. *)
Lemma run_partition calls p mem free outstanding :
  partition p mem free outstanding →
  disciplined calls outstanding p mem = true →
  ∃ p' mem' free' outstanding',
    run calls p mem = Ok (p', mem')
    ∧ partition p' mem' free' outstanding'
    ∧ block_count_ p' = block_count_ p.
Proof.
  revert p mem free outstanding.
  induction calls as [|[|ptr] calls IH]; intros p mem free outstanding Hpart Hdisc.
  - simpl. eauto 10.
  - simpl in *. destruct free as [|a free].
    + pose proof (part_chain _ _ _ _ Hpart) as Hnull. simpl in Hnull.
      rewrite (allocate_empty p mem Hnull) in *. simpl in *. eauto.
    + destruct (allocate_partition p mem a free outstanding Hpart)
        as (p' & Halloc & Hpart' & _ & _ & _ & Hbc).
      rewrite Halloc in *. simpl.
      assert (a ≠ 0) as Hnz.
      { pose proof (part_chain _ _ _ _ Hpart) as Hc. simpl in Hc. tauto. }
      destruct (Z.eqb_spec a 0); [done|].
      destruct (IH _ _ _ _ Hpart' Hdisc) as (p2 & mem2 & f2 & o2 & Hrun & Hp2 & Hbc2).
      rewrite <- Hbc. eauto 10.
  - simpl in *. apply andb_true_iff in Hdisc as [Hok Hdisc].
    destruct (decide (ptr = 0 ∨ is_from_pool ptr p = false)) as [Hrej|Hacc].
    + destruct (deallocate_rejected_partition p mem ptr free outstanding Hpart Hrej)
        as (Hp & Hm & Hf).
      rewrite Hp, Hm, Hf in *. eauto.
    + assert (ptr ∈ outstanding) as Hin.
      { apply orb_true_iff in Hok as [Hok|Hok]; [|by apply bool_decide_eq_true in Hok].
        apply orb_true_iff in Hok as [Hok|Hok].
        - apply bool_decide_eq_true in Hok. tauto.
        - apply negb_true_iff in Hok. tauto. }
      destruct (deallocate_partition p mem ptr free outstanding Hpart Hin)
        as (p' & mem' & Hde & Hbc & Hpart').
      rewrite Hde in *. simpl in *.
      destruct (IH _ _ _ _ Hpart' Hdisc) as (p2 & mem2 & f2 & o2 & Hrun & Hp2 & Hbc2).
      exists p2, mem2, f2, o2. split_and!; [done..|]. congruence.
Qed.

(** [allocate] called as many times as there are blocks in a prefix of the
    free list returns this prefix, in order. *)
Lemma allocate_n_partition p mem taken free outstanding :
  partition p mem (taken ++ free) outstanding →
  ∃ p', allocate_n (length taken) p mem = Ok (taken, p')
        ∧ partition p' mem free (reverse taken ++ outstanding).
Proof.
  revert p outstanding. induction taken as [|a taken IH]; intros p outstanding Hpart.
  - simpl. eauto.
  - simpl in Hpart.
    destruct (allocate_partition p mem a _ outstanding Hpart) as (p1 & Halloc & Hpart1 & _).
    destruct (IH p1 (a :: outstanding) Hpart1) as (p' & Hn & Hpart').
    simpl. rewrite Halloc. simpl. rewrite Hn. simpl.
    exists p'. split; [done|]. by rewrite reverse_cons, <- app_assoc.
Qed.

(** C8: the constructor links every block into the free list, in
    increasing address order, so that on the pool just built the first [n]
    calls of [allocate], for any [n] up to the block count, return
    [memory_start_], [memory_start_ + block_size_], ... in this order; after
    [block_count] calls the free list is empty. *)
Theorem fresh_pool_allocation_order
    block_size block_count operator_new mem p mem' :
  0 ≤ block_count →
  corrected_block_size block_size * block_count < SIZE_MODULUS →
  operator_new_ok operator_new →
  MemoryPool_new block_size block_count operator_new mem = Ok (p, mem') →
  chain mem' (free_list_ p) (blocks p)
  ∧ Z.of_nat (length (blocks p)) = block_count
  ∧ ∀ n : nat,
      Z.of_nat n ≤ block_count →
      ∃ p',
        allocate_n n p mem'
        = Ok ((λ i, memory_start_ p + i * block_size_ p) <$> seqZ 0 (Z.of_nat n), p')
        ∧ current_usage_ p' = Z.of_nat n
        ∧ (Z.of_nat n = block_count → free_list_ p' = 0).
Proof.
  intros Hc Hsz Hnew Hctor.
  destruct (MemoryPool_new_partition _ _ _ _ _ _ Hc Hsz Hnew Hctor)
    as (Hpart & Hbs & Hbc & _).
  pose proof (part_arena _ _ _ _ Hpart) as Hok.
  destruct (blocks_partition_facts p Hok) as (_ & _ & Hlen).
  split_and!.
  - apply Hpart.
  - by rewrite Hlen.
  - intros n Hn.
    set (taken := block_address p <$> seqZ 0 (Z.of_nat n)).
    assert (blocks p = taken ++ blocks_from p (Z.of_nat n)) as Hsplit.
    { unfold blocks, blocks_from, taken.
      replace (block_count_ p - 0) with (Z.of_nat n + (block_count_ p - Z.of_nat n)) by lia.
      rewrite seqZ_app by lia. by rewrite fmap_app. }
    assert (length taken = n) as Hlen_taken.
    { unfold taken. rewrite length_fmap, length_seqZ. lia. }
    rewrite Hsplit in Hpart.
    destruct (allocate_n_partition p mem' taken _ [] Hpart) as (p' & Hrun & Hpart').
    rewrite Hlen_taken in Hrun. exists p'. split_and!.
    + done.
    + rewrite (part_usage _ _ _ _ Hpart').
      by rewrite app_nil_r, length_reverse, Hlen_taken.
    + intros Heq. pose proof (part_chain _ _ _ _ Hpart') as Hchain.
      unfold blocks_from in Hchain.
      assert (block_count_ p - Z.of_nat n = 0) as Hz by lia.
      rewrite Hz in Hchain. by rewrite seqZ_nil in Hchain.
Qed.

(** ** The theorems on concrete pools *)

Lemma demo_pool_arena_ok : arena_ok demo_pool.
Proof. split; simpl; rewrite ?SIZE_MODULUS_eq; unfold sizeof_FreeBlock; lia. Qed.

Lemma demo_operator_new_ok : operator_new_ok demo_operator_new.
Proof.
  intros n a. unfold demo_operator_new. destruct (Z.eqb_spec n 192); [|done].
  intros [= <-]. subst n. rewrite SIZE_MODULUS_eq. lia.
Qed.

Lemma allocate_exhausted_witness :
  free_list_ demo_pool = 0
  ∧ allocate demo_pool ∅ = Ok (0, [pool_exhausted], demo_pool).
Proof.
  split; [reflexivity|]. apply (allocate_exhausted demo_pool ∅). reflexivity.
Defined.

Lemma deallocate_null_or_outside_witness :
  arena_ok demo_pool
  ∧ deallocate 0 demo_pool ∅ = ([], demo_pool, ∅)
  ∧ deallocate 4288 demo_pool ∅ = ([not_from_pool], demo_pool, ∅)
  ∧ deallocate 4095 demo_pool ∅ = ([not_from_pool], demo_pool, ∅).
Proof.
  split; [exact demo_pool_arena_ok|].
  destruct (deallocate_null_or_outside demo_pool ∅ demo_pool_arena_ok) as [Hnull Hout].
  split; [exact Hnull|]. split; apply Hout; simpl; lia.
Defined.

Lemma deallocate_accepts_interior_witness :
  arena_ok demo_pool
  ∧ 0 ≤ free_list_ demo_pool < SIZE_MODULUS
  ∧ memory_start_ demo_pool ≤ 4100
    < memory_start_ demo_pool + block_size_ demo_pool * block_count_ demo_pool
  ∧ (∀ i, 4100 ≠ block_address demo_pool i)
  ∧ ∃ p' mem',
      deallocate 4100 demo_pool ∅ = ([], p', mem')
      ∧ free_list_ p' = 4100
      ∧ load_next 4100 mem' = Some 0
      ∧ deallocations_ p' = 1
      ∧ current_usage_ p' = 2
      ∧ ¬ is_block p' 4100.
Proof.
  assert (0 ≤ free_list_ demo_pool < SIZE_MODULUS) as Hfl.
  { simpl. rewrite SIZE_MODULUS_eq. lia. }
  assert (memory_start_ demo_pool ≤ 4100
          < memory_start_ demo_pool
            + block_size_ demo_pool * block_count_ demo_pool) as Hin.
  { simpl. lia. }
  assert (∀ i, 4100 ≠ block_address demo_pool i) as Hnb.
  { intros i. unfold block_address. simpl. lia. }
  split; [exact demo_pool_arena_ok|]. split; [exact Hfl|].
  split; [exact Hin|]. split; [exact Hnb|].
  destruct (deallocate_accepts_interior 4100 demo_pool ∅
              demo_pool_arena_ok Hfl Hin Hnb)
    as (p' & mem' & Hde & Hhead & Hload & Hdealloc & Husage & _ & Hblk & _).
  exists p', mem'. rewrite Hdealloc, Husage. done.
Defined.

Lemma fresh_demo_new :
  MemoryPool_new 64 3 demo_operator_new ∅ = Ok (fresh_demo_pool, fresh_demo_mem).
Proof. vm_compute. reflexivity. Qed.

Lemma fresh_pool_allocation_order_witness :
  0 ≤ 3
  ∧ corrected_block_size 64 * 3 < SIZE_MODULUS
  ∧ operator_new_ok demo_operator_new
  ∧ MemoryPool_new 64 3 demo_operator_new ∅ = Ok (fresh_demo_pool, fresh_demo_mem)
  ∧ chain fresh_demo_mem (free_list_ fresh_demo_pool) [4096; 4160; 4224]
  ∧ ∃ p', allocate_n 3 fresh_demo_pool fresh_demo_mem = Ok ([4096; 4160; 4224], p')
          ∧ free_list_ p' = 0.
Proof.
  assert (corrected_block_size 64 * 3 < SIZE_MODULUS) as Hsz by (by vm_compute).
  split; [lia|]. split; [exact Hsz|]. split; [exact demo_operator_new_ok|].
  split; [exact fresh_demo_new|].
  destruct (fresh_pool_allocation_order 64 3 demo_operator_new ∅
              fresh_demo_pool fresh_demo_mem
              ltac:(lia) Hsz demo_operator_new_ok fresh_demo_new)
    as (Hchain & _ & Horder).
  split; [exact Hchain|].
  destruct (Horder 3%nat ltac:(lia)) as (p' & Hrun & _ & Hempty).
  exists p'. split; [exact Hrun | by apply Hempty].
Defined.

End Pool_facts.

(** * Capacity and configuration *)

Section Capacity.

(** The capacity invariant of the pool does not hold for every sequence of
    calls: on a pool of one block, a block given back twice takes the usage
    from 0 to [SIZE_MAX]. *)
Lemma pool_usage_exceeds_block_count :
  ¬ (∀ block_size block_count operator_new mem calls p mem0 p' mem',
       0 ≤ block_count →
       Pool.corrected_block_size block_size * block_count < SIZE_MODULUS →
       Pool.operator_new_ok operator_new →
       Pool.MemoryPool_new block_size block_count operator_new mem = Ok (p, mem0) →
       Pool.run calls p mem0 = Ok (p', mem') →
       Pool.current_usage p' ≤ Pool.capacity p').
Proof.
  intros Hall.
  specialize (Hall 64 3 Pool.demo_operator_new ∅ Pool.double_free_calls
                Pool.fresh_demo_pool Pool.fresh_demo_mem
                Pool.double_free_pool Pool.double_free_mem).
  assert (Pool.current_usage Pool.double_free_pool ≤ Pool.capacity Pool.double_free_pool)
    as Hle.
  { apply Hall.
    - lia.
    - by vm_compute.
    - exact demo_operator_new_ok.
    - exact fresh_demo_new.
    - vm_compute. reflexivity. }
  vm_compute in Hle. by apply Hle.
Qed.

(** C2: for every sequence of [put] calls on a cache just built, the size
    of the cache is at most its capacity; for every sequence of [allocate]
    and [deallocate] calls on a pool just built in which each address given
    to [deallocate] is null, outside the arena or outstanding, the sequence
    runs to its end and the usage is at most the block count. *)
Theorem capacity_invariant :
  (∀ (Key : Type) `(Countable Key) (Value : Type) capacity
     (calls : list (Key * Value)) (c0 : LRU.LRUCache Key Value),
     0 ≤ capacity →
     LRU.LRUCache_new capacity = Ok c0 →
     ∃ c', LRU.put_all calls c0 = Ok c'
           ∧ LRU.size c' ≤ capacity
           ∧ LRU.capacity c' = capacity)
  ∧ (∀ block_size block_count operator_new mem calls p mem0,
       0 ≤ block_count →
       Pool.corrected_block_size block_size * block_count < SIZE_MODULUS →
       Pool.operator_new_ok operator_new →
       Pool.MemoryPool_new block_size block_count operator_new mem = Ok (p, mem0) →
       Pool.disciplined calls [] p mem0 = true →
       ∃ p' mem',
         Pool.run calls p mem0 = Ok (p', mem')
         ∧ 0 ≤ Pool.current_usage p' ≤ block_count
         ∧ Pool.capacity p' = block_count).
Proof.
  split.
  - intros Key ? ? Value capacity calls c0 Hcap Hnew.
    destruct (wf_new capacity c0 Hcap Hnew) as [Hwf Hc0].
    destruct (put_all_wf calls c0 Hwf) as (c' & Hrun & Hwf' & Hcap').
    exists c'. split; [done|]. unfold LRU.capacity.
    pose proof (LRU.wf_size _ Hwf'). split; congruence.
  - intros block_size block_count operator_new mem calls p mem0 Hc Hsz Hok Hnew Hdisc.
    destruct (MemoryPool_new_partition _ _ _ _ _ _ Hc Hsz Hok Hnew)
      as (Hpart & _ & Hbc & _).
    destruct (run_partition calls p mem0 _ _ Hpart Hdisc)
      as (p' & mem' & free' & outs' & Hrun & Hpart' & Hbc').
    exists p', mem'. split; [done|].
    pose proof (partition_usage_bound _ _ _ _ Hpart').
    unfold Pool.current_usage, Pool.capacity. split; [lia | congruence].
Qed.

(** The claim of C3 on the pool does not hold: with a block count of 0 the
    constructor returns a pool, of no block, on which [allocate] reports
    exhaustion. *)
Lemma zero_block_count_constructs :
  let p := {| Pool.memory_start_ := 4096; Pool.block_size_ := 64;
              Pool.block_count_ := 0; Pool.free_list_ := 0;
              Pool.allocations_ := 0; Pool.deallocations_ := 0;
              Pool.current_usage_ := 0 |} in
  Pool.MemoryPool_new 64 0 (λ _, Some 4096) ∅ = Ok (p, ∅)
  ∧ Pool.allocate p ∅ = Ok (0, [Pool.pool_exhausted], p).
Proof. split; reflexivity. Qed.

(** C3: the constructor of the cache throws [invalid_argument] for the
    capacity 0 and returns no object.  The constructor of the pool makes no
    check of its arguments: with a block count of 0 it fails only when
    [::operator new] does, and otherwise returns a pool whose free list is
    empty, memory being untouched, on which [allocate] reports exhaustion;
    the block size it keeps is at least
    [sizeof(FreeBlock)], never 0; and the only exception it throws is
    [bad_alloc]. *)
Theorem zero_configuration :
  (∀ (Key : Type) `(Countable Key) (Value : Type),
     LRU.LRUCache_new (Key := Key) (Value := Value) 0
     = Throw (invalid_argument "Cache capacity must be > 0"))
  ∧ (∀ block_size operator_new mem,
       Pool.MemoryPool_new block_size 0 operator_new mem =
       match operator_new 0 with
       | None => Throw bad_alloc
       | Some start =>
           if start =? 0 then Throw bad_alloc
           else Ok ({| Pool.memory_start_ := start;
                       Pool.block_size_ := Pool.corrected_block_size block_size;
                       Pool.block_count_ := 0; Pool.free_list_ := 0;
                       Pool.allocations_ := 0; Pool.deallocations_ := 0;
                       Pool.current_usage_ := 0 |}, mem)
       end)
  ∧ (∀ block_size operator_new mem p mem',
       Pool.MemoryPool_new block_size 0 operator_new mem = Ok (p, mem') →
       Pool.allocate p mem' = Ok (0, [Pool.pool_exhausted], p))
  ∧ (∀ block_size block_count operator_new mem p mem',
       Pool.MemoryPool_new block_size block_count operator_new mem = Ok (p, mem') →
       Pool.block_size_ p = Pool.corrected_block_size block_size
       ∧ Pool.sizeof_FreeBlock ≤ Pool.block_size_ p
       ∧ Pool.block_count_ p = block_count)
  ∧ (∀ block_size block_count operator_new mem e,
       Pool.MemoryPool_new block_size block_count operator_new mem = Throw e →
       e = bad_alloc).
Proof.
  split_and!.
  - done.
  - intros block_size operator_new mem. unfold Pool.MemoryPool_new.
    rewrite Z.mul_0_r. change (size_wrap 0) with 0.
    destruct (operator_new 0) as [start|]; [|done].
    destruct (start =? 0); done.
  - intros block_size operator_new mem p mem'. unfold Pool.MemoryPool_new.
    rewrite Z.mul_0_r. change (size_wrap 0) with 0.
    destruct (operator_new 0) as [start|]; [|done].
    destruct (start =? 0); [done|]. intros [= <- <-].
    by apply allocate_empty.
  - intros block_size block_count operator_new mem p mem'.
    unfold Pool.MemoryPool_new, Pool.init_free_list.
    destruct (operator_new _) as [start|]; [|done].
    destruct (start =? 0); [done|].
    destruct (Pool.init_free_list_loop _ _ _ _ _) as [fl mem1]. simpl.
    intros [= <- <-]. simpl. split_and!; [done | | done].
    unfold Pool.corrected_block_size.
    destruct (Z.ltb_spec block_size Pool.sizeof_FreeBlock); lia.
  - intros block_size block_count operator_new mem e.
    unfold Pool.MemoryPool_new.
    destruct (operator_new _) as [start|]; [|by intros [= <-]].
    destruct (start =? 0); [by intros [= <-]|].
    unfold Pool.init_free_list.
    destruct (Pool.init_free_list_loop _ _ _ _ _) as [fl mem1]. done.
Qed.

Lemma capacity_invariant_witness :
  (∃ c', LRU.put_all [(1, "Alice"); (2, "Bob"); (3, "Charlie"); (4, "Diana")]
           {| LRU.capacity_ := 3; LRU.cache_list_ := []; LRU.cache_map_ := ∅;
              LRU.hits_ := 0; LRU.misses_ := 0; LRU.evictions_ := 0 |}
         = Ok c' ∧ LRU.size c' ≤ 3)
  ∧ Pool.disciplined Pool.disciplined_calls [] Pool.fresh_demo_pool
      Pool.fresh_demo_mem = true
  ∧ (∃ p' mem',
       Pool.run Pool.disciplined_calls Pool.fresh_demo_pool Pool.fresh_demo_mem
       = Ok (p', mem')
       ∧ 0 ≤ Pool.current_usage p' ≤ 3).
Proof.
  destruct capacity_invariant as [Hcache Hpool]. split.
  - destruct (Hcache Z _ _ string 3
                [(1, "Alice"); (2, "Bob"); (3, "Charlie"); (4, "Diana")]
                {| LRU.capacity_ := 3; LRU.cache_list_ := []; LRU.cache_map_ := ∅;
                   LRU.hits_ := 0; LRU.misses_ := 0; LRU.evictions_ := 0 |})
      as (c' & Hrun & Hsize & _); [lia | reflexivity |].
    exists c'. split; [exact Hrun | exact Hsize].
  - assert (Pool.disciplined Pool.disciplined_calls [] Pool.fresh_demo_pool
              Pool.fresh_demo_mem = true) as Hdisc by (vm_compute; reflexivity).
    split; [exact Hdisc|].
    destruct (Hpool 64 3 Pool.demo_operator_new ∅ Pool.disciplined_calls
                Pool.fresh_demo_pool Pool.fresh_demo_mem
                ltac:(lia) ltac:(by vm_compute) demo_operator_new_ok
                fresh_demo_new Hdisc)
      as (p' & mem' & Hrun & Husage & _).
    exists p', mem'. split; [exact Hrun | exact Husage].
Defined.

End Capacity.

(** * Further properties of the LRU cache *)

Section LRU_more.
Import LRU.
Context {Key : Type} `{Countable Key} {Value : Type}.
Implicit Types (l : CacheList Key Value) (c : LRUCache Key Value).
Implicit Types (it : ListIterator) (key : Key) (value : Value).

Lemma removelast_fmap {A B : Type} (f : A → B) (xs : list A) :
  removelast (f <$> xs) = f <$> removelast xs.
Proof.
  induction xs as [|x [|y xs] IH]; [done..|].
  change (f x :: removelast (f <$> y :: xs) = f x :: (f <$> removelast (y :: xs))).
  by rewrite IH.
Qed.

Lemma last_fmap_Some {A B : Type} (f : A → B) (xs : list A) x :
  last xs = Some x → last (f <$> xs) = Some (f x).
Proof. intros Hl. by rewrite fmap_last, Hl. Qed.

(** The keys of the sequence are distinct. *)
Lemma wf_keys_NoDup c : wf c → NoDup (keys c).
Proof.
  intros Hwf. unfold keys. apply NoDup_fmap_2_strong.
  - intros [it1 [k1 v1]] [it2 [k2 v2]] H1 H2 Heq. simpl in Heq. subst k2.
    assert (it1 = it2) as -> by (by eapply wf_key_unique).
    apply (wf_node_item c _ _ Hwf) in H1, H2. congruence.
  - eapply NoDup_fmap_1, Hwf.
Qed.

Lemma put_new_eq key value c :
  cache_map_ c !! key = None →
  put key value c =
    let c1 := if size c >=? capacity_ c then evict_lru c else c in
    Ok {| capacity_ := capacity_ c1;
          cache_list_ :=
            (fresh_iterator (cache_list_ c1), (key, value)) :: cache_list_ c1;
          cache_map_ := <[key := fresh_iterator (cache_list_ c1)]> (cache_map_ c1);
          hits_ := hits_ c1; misses_ := misses_ c1; evictions_ := evictions_ c1 |}.
Proof. intros Hm. unfold put. by rewrite Hm. Qed.

Lemma evict_lru_nonempty c :
  cache_list_ c ≠ [] →
  ∃ itl kl vl,
    last (cache_list_ c) = Some (itl, (kl, vl))
    ∧ evict_lru c =
        {| capacity_ := capacity_ c; cache_list_ := removelast (cache_list_ c);
           cache_map_ := delete kl (cache_map_ c); hits_ := hits_ c;
           misses_ := misses_ c; evictions_ := size_incr (evictions_ c) |}.
Proof.
  intros Hne. unfold evict_lru.
  destruct (last (cache_list_ c)) as [[itl [kl vl]]|] eqn:Hlast.
  - by exists itl, kl, vl.
  - by apply last_None in Hlast.
Qed.

Lemma wf_full_nonempty c : wf c → capacity_ c ≤ size c → cache_list_ c ≠ [].
Proof.
  intros Hwf Hfull Hnil. pose proof (wf_capacity _ Hwf).
  unfold size in Hfull. rewrite Hnil in Hfull. simpl in Hfull. lia.
Qed.

(** X1: [put] of a key the cache does not contain inserts the entry at the
    head; when the cache is full the tail entry, and no other, is removed
    first and the eviction counter is incremented; the size becomes
    [min (size + 1) capacity] and the lookup counters are unchanged. *)
Theorem put_new_contract key value c :
  wf c → key ∉ keys c →
  ∃ c', put key value c = Ok c'
        ∧ items c' =
            (key, value)
            :: (if size c >=? capacity_ c then removelast (items c) else items c)
        ∧ evictions_ c' =
            (if size c >=? capacity_ c then size_incr (evictions_ c)
             else evictions_ c)
        ∧ size c' = Z.min (size c + 1) (capacity_ c)
        ∧ hits_ c' = hits_ c ∧ misses_ c' = misses_ c
        ∧ capacity_ c' = capacity_ c
        ∧ wf c'.
Proof.
  intros Hwf Hnotin.
  assert (cache_map_ c !! key = None) as Hm.
  { apply eq_None_not_Some. by rewrite <- wf_keys_index. }
  destruct (put_new key value c Hwf Hm) as (c' & Hput & Hwf' & Hcap & Hsz & Hh & Hmi).
  exists c'. split; [done|]. rewrite put_new_eq in Hput by done.
  pose proof (wf_size _ Hwf) as Hle.
  rewrite Z.geb_leb in *.
  destruct (Z.leb_spec (capacity_ c) (size c)) as [Hfull|Hroom].
  - destruct (evict_lru_nonempty c (wf_full_nonempty c Hwf Hfull))
      as (itl & kl & vl & Hlast & Hev).
    rewrite Hev in Hput. simpl in Hput. injection Hput as <-.
    split_and!; try done.
    + unfold items. simpl. by rewrite removelast_fmap.
    + lia.
  - simpl in Hput. injection Hput as <-. split_and!; try done. lia.
Qed.

(** X2: [put] then [get] of the same key returns the value just stored,
    whether the key was present, absent, or absent from a full cache. *)
Theorem put_get_roundtrip key value c :
  wf c →
  ∃ c1 c2, put key value c = Ok c1
           ∧ get key c1 = Ok (Some value, c2)
           ∧ wf c1.
Proof.
  intros Hwf.
  destruct (put_wf key value c Hwf) as (c1 & Hput & Hwf1 & _).
  assert ((key, value) ∈ items c1) as Hin.
  { destruct (cache_map_ c !! key) as [it|] eqn:Hm.
    - pose proof Hm as Hm'. apply Hwf in Hm' as [old Hold].
      apply wf_node_item in Hold; [|done].
      rewrite (put_existing key old value it c Hold Hm) in Hput.
      injection Hput as <-. unfold items. simpl. left.
    - rewrite put_new_eq in Hput by done. simpl in Hput. injection Hput as <-.
      unfold items. simpl. left. }
  destruct (wf_items_node c1 key value Hwf1 Hin) as (it & Hm1 & Hn1).
  eexists c1, _. split; [done|]. split; [by apply get_hit|done].
Qed.

(** ** Sequences of calls of any kind *)

Lemma get_wf key c :
  wf c →
  ∃ r, get key c = Ok r
       ∧ wf r.2 ∧ capacity_ r.2 = capacity_ c
       ∧ evictions_ r.2 = evictions_ c
       ∧ size_wrap (hits_ r.2 + misses_ r.2)
         = size_wrap (hits_ c + misses_ c + 1).
Proof.
  intros Hwf. destruct (cache_map_ c !! key) as [it|] eqn:Hm.
  - pose proof Hm as Hm'. apply Hwf in Hm' as [value Hin].
    apply wf_node_item in Hin; [|done].
    eexists. split; [by apply get_hit|]. simpl.
    split; [by eapply wf_put_existing|]. split; [done|]. split; [done|].
    unfold size_incr, size_wrap. rewrite Zplus_mod_idemp_l. f_equal. lia.
  - eexists. split; [by apply get_miss|]. simpl.
    split; [by destruct Hwf|]. split; [done|]. split; [done|].
    unfold size_incr, size_wrap. rewrite Zplus_mod_idemp_r. f_equal. lia.
Qed.

Lemma put_counters key value c c' :
  put key value c = Ok c' → hits_ c' = hits_ c ∧ misses_ c' = misses_ c.
Proof.
  unfold put. destruct (cache_map_ c !! key) as [it|].
  - destruct (assign_second it value (cache_list_ c)) as [l1|]; simpl; [|done].
    destruct (splice_front it l1) as [l2|]; simpl; [|done].
    by intros [= <-].
  - intros [= <-]. simpl. destruct (size c >=? capacity_ c); [|done].
    unfold evict_lru. by destruct (last (cache_list_ c)) as [[? [? ?]]|].
Qed.

Lemma clear_wf c : wf c → wf (clear c).
Proof.
  intros Hwf. pose proof (wf_capacity _ Hwf). split; simpl.
  - constructor.
  - intros key it. rewrite lookup_empty. split; [done|].
    intros [v Hin]. by apply elem_of_nil in Hin.
  - unfold size. simpl. lia.
  - done.
Qed.

Lemma reset_stats_wf c : wf c → wf (reset_stats c).
Proof. intros [Hnd Hidx Hsz Hpos]. by split. Qed.

Lemma run_wf calls c :
  wf c → ∃ c', run calls c = Ok c' ∧ wf c' ∧ capacity_ c' = capacity_ c.
Proof.
  revert c. induction calls as [|[key|key value| |] calls IH]; intros c Hwf; simpl.
  - eauto.
  - destruct (get_wf key c Hwf) as (r & -> & Hwf1 & Hcap1 & _). simpl.
    destruct (IH _ Hwf1) as (c' & Hrun & Hwf' & Hcap'). rewrite <- Hcap1. eauto.
  - destruct (put_wf key value c Hwf) as (c1 & -> & Hwf1 & Hcap1). simpl.
    destruct (IH _ Hwf1) as (c' & Hrun & Hwf' & Hcap'). rewrite <- Hcap1. eauto.
  - destruct (IH _ (clear_wf c Hwf)) as (c' & Hrun & Hwf' & Hcap'). eauto.
  - destruct (IH _ (reset_stats_wf c Hwf)) as (c' & Hrun & Hwf' & Hcap'). eauto.
Qed.

(** X3: every sequence of [get], [put], [clear] and [reset_stats] calls on a
    cache just built runs without undefined behaviour and leaves a cache
    whose keys are distinct, whose index holds exactly the keys of the
    sequence, each mapped to the node that carries it, and whose size is at
    most the capacity. *)
Theorem run_invariant capacity (calls : list (call Key Value)) c0 :
  0 ≤ capacity →
  LRUCache_new capacity = Ok c0 →
  ∃ c', run calls c0 = Ok c'
        ∧ NoDup (keys c')
        ∧ (∀ key, key ∈ keys c' ↔ is_Some (cache_map_ c' !! key))
        ∧ (∀ key it, cache_map_ c' !! key = Some it →
             ∃ value, node_item it (cache_list_ c') = Some (key, value))
        ∧ size c' ≤ capacity
        ∧ capacity_ c' = capacity.
Proof.
  intros Hcap Hnew. destruct (wf_new capacity c0 Hcap Hnew) as [Hwf Hc0].
  destruct (run_wf calls c0 Hwf) as (c' & Hrun & Hwf' & Hcap').
  exists c'. split; [done|]. split; [by apply wf_keys_NoDup|].
  split; [intros key; by apply wf_keys_index|]. split.
  - intros key it Hm. apply Hwf' in Hm as [value Hin]. exists value.
    by apply wf_node_item.
  - pose proof (wf_size _ Hwf'). split; congruence.
Qed.

(** X4: every [get] counts as one hit or one miss, and no other call
    touches the two counters: after a sequence of [get], [put] and [clear]
    calls the sum of hits and misses has grown by the number of [get]
    calls, in [size_t] arithmetic. *)
Theorem lookups_counted (calls : list (call Key Value)) c :
  wf c → ResetStats ∉ calls →
  ∃ c', run calls c = Ok c'
        ∧ size_wrap (hits_ c' + misses_ c')
          = size_wrap (hits_ c + misses_ c + count_get calls).
Proof.
  revert c. induction calls as [|[key|key value| |] calls IH]; intros c Hwf Hno; simpl.
  - eexists. split; [done|]. f_equal. lia.
  - destruct (get_wf key c Hwf) as (r & -> & Hwf1 & _ & _ & Hcnt). simpl.
    destruct (IH _ Hwf1) as (c' & Hrun & Hsum).
    { intros Hin. apply Hno. by right. }
    exists c'. split; [done|]. rewrite Hsum. unfold size_wrap in *.
    rewrite <- Zplus_mod_idemp_l, Hcnt, Zplus_mod_idemp_l. f_equal. lia.
  - destruct (put_wf key value c Hwf) as (c1 & Hput & Hwf1 & _).
    destruct (put_counters _ _ _ _ Hput) as [Hh Hm]. rewrite Hput. simpl.
    destruct (IH _ Hwf1) as (c' & Hrun & Hsum).
    { intros Hin. apply Hno. by right. }
    exists c'. split; [done|]. by rewrite Hsum, Hh, Hm.
  - destruct (IH _ (clear_wf c Hwf)) as (c' & Hrun & Hsum).
    { intros Hin. apply Hno. by right. }
    exists c'. split; [done|]. by rewrite Hsum.
  - exfalso. apply Hno. left.
Qed.

(** ** The entries after [put] *)

Lemma last_removelast_app {A : Type} (xs : list A) x :
  last xs = Some x → xs = removelast xs ++ [x].
Proof.
  induction xs as [|y [|z xs] IH]; simpl; [done | by intros [= ->] |].
  intros Hl. f_equal. by apply IH.
Qed.

(** The items after [put], in all three cases. *)
Lemma put_items key value c c' :
  wf c → put key value c = Ok c' →
  items c' =
    (key, value)
    :: (if decide (key ∈ keys c) then filter (λ kv, kv.1 ≠ key) (items c)
        else if size c >=? capacity_ c then removelast (items c)
        else items c).
Proof.
  intros Hwf Hput. destruct (decide (key ∈ keys c)) as [Hin|Hnotin].
  - apply wf_keys_index in Hin as [it Hm]; [|done].
    pose proof Hm as Hm'. apply Hwf in Hm' as [old Hold].
    apply wf_node_item in Hold; [|done].
    rewrite (put_existing key old value it c Hold Hm) in Hput.
    injection Hput as <-. unfold items at 1. simpl. f_equal.
    by apply wf_promote_items with old.
  - assert (cache_map_ c !! key = None) as Hm.
    { apply eq_None_not_Some. by rewrite <- wf_keys_index. }
    rewrite put_new_eq in Hput by done. rewrite Z.geb_leb in *.
    destruct (Z.leb_spec (capacity_ c) (size c)) as [Hfull|Hroom].
    + destruct (evict_lru_nonempty c (wf_full_nonempty c Hwf Hfull))
        as (itl & kl & vl & Hlast & Hev).
      rewrite Hev in Hput. simpl in Hput. injection Hput as <-.
      unfold items. simpl. by rewrite removelast_fmap.
    + simpl in Hput. by injection Hput as <-.
Qed.

Lemma removelast_elem_of_keys (xs : list (Key * Value)) k v kl :
  NoDup xs.*1 → last xs.*1 = Some kl →
  (k, v) ∈ removelast xs ↔ (k, v) ∈ xs ∧ k ≠ kl.
Proof.
  intros Hnd Hlast.
  assert (∃ vl, last xs = Some (kl, vl)) as [vl Hl].
  { rewrite fmap_last in Hlast. destruct (last xs) as [[k0 v0]|]; [|done].
    simpl in Hlast. injection Hlast as ->. by exists v0. }
  pose proof (last_removelast_app xs _ Hl) as Hsplit.
  rewrite Hsplit in Hnd. rewrite fmap_app in Hnd.
  apply NoDup_app in Hnd as (_ & Hdisj & _).
  split.
  - intros Hin. split.
    + rewrite Hsplit. apply elem_of_app. by left.
    + intros ->. apply (Hdisj kl).
      * apply list_elem_of_fmap. by exists (kl, v).
      * simpl. left.
  - intros [Hin Hne]. rewrite Hsplit in Hin.
    apply elem_of_app in Hin as [Hin|Hin]; [done|].
    apply list_elem_of_singleton in Hin. congruence.
Qed.

Lemma keys_items c : keys c = fst <$> items c.
Proof. unfold keys, items. by rewrite <- list_fmap_compose. Qed.

(** X5: [put] changes no entry of another key, and removes at most one: an
    entry of a key other than the one put is in the cache after [put] if
    and only if it was there before and is not the evicted one, that is,
    the tail entry of a full cache into which a new key is put. *)
Theorem put_other_entries key value c c' :
  wf c → put key value c = Ok c' →
  ∀ k v, k ≠ key →
    (k, v) ∈ items c' ↔
    (k, v) ∈ items c
    ∧ ¬ ((key ∉ keys c) ∧ (capacity_ c ≤ size c) ∧ last (keys c) = Some k).
Proof.
  intros Hwf Hput k v Hne. rewrite (put_items key value c c' Hwf Hput).
  rewrite elem_of_cons.
  destruct (decide (key ∈ keys c)) as [Hin|Hnotin].
  - rewrite list_elem_of_filter. simpl. split.
    + intros [[= -> _]|[_ Hk]]; [done|]. split; [done|]. tauto.
    + intros [Hk _]. by right.
  - rewrite Z.geb_leb. destruct (Z.leb_spec (capacity_ c) (size c)) as [Hfull|Hroom].
    + pose proof (wf_keys_NoDup c Hwf) as Hnd. rewrite keys_items in Hnd.
      pose proof (wf_full_nonempty c Hwf Hfull) as Hnonempty.
      destruct (last (keys c)) as [kl|] eqn:Hlast.
      2:{ apply last_None in Hlast. unfold keys in Hlast.
          apply fmap_nil_inv in Hlast. done. }
      rewrite keys_items in Hlast.
      rewrite (removelast_elem_of_keys (items c) k v kl Hnd Hlast). split.
      * intros [[= -> _]|[Hk Hkl]]; [done|]. split; [done|].
        intros (_ & _ & [= ->]). done.
      * intros [Hk Hnot]. right. split; [done|]. intros ->. by apply Hnot.
    + split.
      * intros [[= -> _]|Hk]; [done|]. split; [done|]. intros (_ & ? & _). lia.
      * intros [Hk _]. by right.
Qed.

(** X6: an entry just read is not the next one evicted: in a cache of
    capacity 2 or more, after [get] of a key the cache contains, [put] of
    any other key leaves the entry read in the cache. *)
Theorem touched_entry_survives key value key2 value2 c :
  wf c → 2 ≤ capacity_ c → (key, value) ∈ items c → key2 ≠ key →
  ∃ c1 c2, get key c = Ok (Some value, c1)
           ∧ put key2 value2 c1 = Ok c2
           ∧ (key, value) ∈ items c2.
Proof.
  intros Hwf Hcap Hin Hne.
  destruct (wf_items_node c key value Hwf Hin) as (it & Hm & Hn).
  pose proof (get_hit key value it c Hn Hm) as Hget.
  set (c1 := {| capacity_ := capacity_ c;
                cache_list_ := (it, (key, value)) :: unlink it (cache_list_ c);
                cache_map_ := cache_map_ c; hits_ := size_incr (hits_ c);
                misses_ := misses_ c; evictions_ := evictions_ c |}) in *.
  assert (wf c1) as Hwf1 by (by eapply wf_put_existing).
  destruct (put_wf key2 value2 c1 Hwf1) as (c2 & Hput & _).
  exists c1, c2. split; [done|]. split; [done|].
  rewrite (put_items key2 value2 c1 c2 Hwf1 Hput). right.
  assert ((key, value) ∈ items c1) as Hin1 by (unfold items; simpl; left).
  destruct (decide (key2 ∈ keys c1)) as [_|_].
  - apply list_elem_of_filter. split; [simpl; congruence | done].
  - rewrite Z.geb_leb. destruct (Z.leb_spec (capacity_ c1) (size c1)) as [Hfull|_]; [|done].
    unfold items. simpl.
    destruct (unlink it (cache_list_ c)) as [|n rest] eqn:Hrest.
    + unfold size, c1 in Hfull. simpl in Hfull. rewrite ?Hrest in Hfull.
      simpl in Hfull. lia.
    + simpl. left.
Qed.

(** ** A run of insertions *)

Lemma take_app_take {A : Type} (n : nat) (xs ys : list A) :
  take n (xs ++ take n ys) = take n (xs ++ ys).
Proof.
  rewrite !take_app. f_equal. rewrite take_take. f_equal. lia.
Qed.

Lemma cons_removelast_take {A : Type} (n : nat) (x : A) (xs : list A) :
  length xs = n → n ≠ 0%nat → x :: removelast xs = take n (x :: xs).
Proof.
  intros Hlen Hn. destruct n as [|m]; [done|]. simpl. f_equal.
  rewrite removelast_firstn_len, Hlen. done.
Qed.

Lemma put_new_evictions key value c c' :
  wf c → cache_map_ c !! key = None → put key value c = Ok c' →
  evictions_ c' =
    (if size c >=? capacity_ c then size_incr (evictions_ c) else evictions_ c).
Proof.
  intros Hwf Hm Hput. rewrite put_new_eq in Hput by done.
  rewrite Z.geb_leb in *.
  destruct (Z.leb_spec (capacity_ c) (size c)) as [Hfull|Hroom].
  - destruct (evict_lru_nonempty c (wf_full_nonempty c Hwf Hfull))
      as (itl & kl & vl & Hlast & Hev).
    rewrite Hev in Hput. simpl in Hput. by injection Hput as <-.
  - simpl in Hput. by injection Hput as <-.
Qed.

Lemma put_all_distinct (calls : list (Key * Value)) : ∀ c,
  wf c → NoDup calls.*1 → (∀ k, k ∈ calls.*1 → k ∉ keys c) →
  ∃ c', put_all calls c = Ok c'
        ∧ wf c'
        ∧ capacity_ c' = capacity_ c
        ∧ items c' = take (Z.to_nat (capacity_ c)) (reverse calls ++ items c)
        ∧ size_wrap (evictions_ c')
          = size_wrap (evictions_ c
                       + Z.max 0 (size c + Z.of_nat (length calls) - capacity_ c))
        ∧ (0 ≤ evictions_ c < SIZE_MODULUS → 0 ≤ evictions_ c' < SIZE_MODULUS).
Proof.
  induction calls as [|[key value] calls IH]; intros c Hwf Hnodup Hfresh.
  - exists c. simpl. split_and!; try done.
    + rewrite take_ge; [done|]. pose proof (wf_size _ Hwf) as Hle.
      unfold size, items in *. rewrite length_fmap. lia.
    + pose proof (wf_size _ Hwf). f_equal. lia.
  - simpl in Hnodup. apply NoDup_cons in Hnodup as [Hnotin Hnodup].
    assert (key ∉ keys c) as Hkey by (apply Hfresh; simpl; left).
    assert (cache_map_ c !! key = None) as Hm.
    { apply eq_None_not_Some. by rewrite <- wf_keys_index. }
    destruct (put_new key value c Hwf Hm)
      as (c1 & Hput & Hwf1 & Hcap1 & Hsz1 & _).
    pose proof (put_items key value c c1 Hwf Hput) as Hitems.
    rewrite decide_False in Hitems by done.
    pose proof (put_new_evictions key value c c1 Hwf Hm Hput) as Hev.
    pose proof (wf_size _ Hwf) as Hle. pose proof (wf_capacity _ Hwf) as Hpos.
    assert (items c1 = take (Z.to_nat (capacity_ c)) ((key, value) :: items c))
      as Hitems1.
    { rewrite Hitems. rewrite Z.geb_leb.
      destruct (Z.leb_spec (capacity_ c) (size c)) as [Hfull|Hroom].
      - apply cons_removelast_take; [|lia].
        unfold items, size in *. rewrite length_fmap. lia.
      - rewrite take_ge; [done|]. unfold items, size in *.
        simpl. rewrite length_fmap. lia. }
    assert (∀ k, k ∈ calls.*1 → k ∉ keys c1) as Hfresh1.
    { intros k Hk Hin. rewrite keys_items, Hitems1 in Hin.
      apply list_elem_of_fmap in Hin as (kv & -> & Hin).
      apply elem_of_take in Hin as (i & Hin & _).
      apply list_elem_of_lookup_2 in Hin.
      apply elem_of_cons in Hin as [-> | Hin].
      - simpl in Hk. done.
      - apply (Hfresh kv.1); [simpl; by right|].
        rewrite keys_items. by apply list_elem_of_fmap_2. }
    destruct (IH c1 Hwf1 Hnodup Hfresh1)
      as (c' & Hall & Hwf' & Hcap' & Hitems' & Hev' & Hrange').
    exists c'. simpl. rewrite Hput. simpl.
    split_and!; [done | done | congruence | | |].
    + rewrite Hitems', Hcap1, Hitems1, take_app_take.
      by rewrite reverse_cons, <- app_assoc.
    + rewrite Hev', Hcap1, Hsz1, Hev. rewrite Z.geb_leb.
      destruct (Z.leb_spec (capacity_ c) (size c)) as [Hfull|Hroom].
      * unfold size_incr, size_wrap. rewrite Zplus_mod_idemp_l.
        f_equal. simpl length. lia.
      * f_equal. simpl length. lia.
    + intros Hr. apply Hrange'. rewrite Hev.
      destruct (size c >=? capacity_ c); [|done].
      apply Z.mod_pos_bound. by rewrite SIZE_MODULUS_eq.
Qed.

(** X7: a run of insertions keeps the latest entries.  On a cache just
    built, [put] of entries with distinct keys, one after the other, leaves
    the cache with the last [capacity] of them, the latest first; the number
    of evictions is the number of entries beyond the capacity. *)
Theorem put_all_keeps_latest capacity (calls : list (Key * Value)) c0 :
  0 ≤ capacity →
  LRUCache_new capacity = Ok c0 →
  NoDup calls.*1 →
  ∃ c', put_all calls c0 = Ok c'
        ∧ items c' = take (Z.to_nat capacity) (reverse calls)
        ∧ size c' = Z.min (Z.of_nat (length calls)) capacity
        ∧ evictions_ c'
          = size_wrap (Z.max 0 (Z.of_nat (length calls) - capacity)).
Proof.
  intros Hcap Hnew Hnodup.
  destruct (wf_new capacity c0 Hcap Hnew) as [Hwf Hcap0].
  assert (items c0 = [] ∧ evictions_ c0 = 0 ∧ size c0 = 0) as (Hnil & Hev0 & Hsz0).
  { revert Hnew. unfold LRUCache_new. destruct (capacity =? 0); [done|].
    by intros [= <-]. }
  destruct (put_all_distinct calls c0 Hwf Hnodup)
    as (c' & Hall & Hwf' & Hcap' & Hitems & Hev & Hrange).
  { intros k _. rewrite keys_items, Hnil. apply not_elem_of_nil. }
  rewrite Hnil, app_nil_r, Hcap0 in Hitems.
  exists c'. split_and!; [done | done | |].
  - unfold size. replace (length (cache_list_ c')) with (length (items c'))
      by (unfold items; by rewrite length_fmap).
    rewrite Hitems, length_take, length_reverse.
    rewrite Nat2Z.inj_min, Z2Nat.id by lia. apply Z.min_comm.
  - rewrite Hev0, Hsz0, Hcap0, !Z.add_0_l in Hev. rewrite <- Hev.
    unfold size_wrap. symmetry. apply Z.mod_small. apply Hrange.
    rewrite Hev0, SIZE_MODULUS_eq. done.
Qed.

(** ** The statistics and the contents *)

Lemma get_same_contents key c d o c1 :
  same_contents c d → get key c = Ok (o, c1) →
  ∃ d1, get key d = Ok (o, d1) ∧ same_contents c1 d1.
Proof.
  destruct c as [cap l m h mi e], d as [cap' l' m' h' mi' e'].
  intros (Hc & Hl & Hm). simpl in *. subst cap' l' m'.
  unfold get. simpl. destruct (m !! key) as [it|].
  - destruct (splice_front it l) as [l1|]; simpl; [|done].
    destruct (node_item it l1) as [kv|]; simpl; [|done].
    intros [= <- <-]. eexists. split; [reflexivity|]. by split.
  - intros [= <- <-]. eexists. split; [reflexivity|]. by split.
Qed.

Lemma put_same_contents key value c d c1 :
  same_contents c d → put key value c = Ok c1 →
  ∃ d1, put key value d = Ok d1 ∧ same_contents c1 d1.
Proof.
  destruct c as [cap l m h mi e], d as [cap' l' m' h' mi' e'].
  intros (Hc & Hl & Hm). simpl in *. subst cap' l' m'.
  unfold put, size, evict_lru. simpl. destruct (m !! key) as [it|].
  - destruct (assign_second it value l) as [l1|]; simpl; [|done].
    destruct (splice_front it l1) as [l2|]; simpl; [|done].
    intros [= <-]. eexists. split; [reflexivity|]. by split.
  - destruct (Z.of_nat (length l) >=? cap);
      [destruct (last l) as [[? [? ?]]|]|];
      simpl; intros [= <-]; (eexists; split; [reflexivity|]; by split).
Qed.

(** X24: the statistics never influence the cache.  Two caches with the
    same capacity, list and index, whatever their counters, given the same
    sequence of [get], [put], [clear] and [reset_stats] calls, both run to
    the end and finish with the same capacity, list and index; so
    [reset_stats], called at any point, changes nothing but the counters. *)
Theorem stats_do_not_affect_contents (calls : list (call Key Value)) c d :
  wf c → same_contents c d →
  ∃ c' d', run calls c = Ok c' ∧ run calls d = Ok d'
           ∧ cache_list_ c' = cache_list_ d'
           ∧ cache_map_ c' = cache_map_ d'
           ∧ capacity_ c' = capacity_ d'.
Proof.
  revert c d. induction calls as [|[key|key value| |] calls IH];
    intros c d Hwf Hsame; simpl.
  - exists c, d. destruct Hsame as (? & ? & ?). done.
  - destruct (get_wf key c Hwf) as ([o c1] & Hget & Hwf1 & _).
    destruct (get_same_contents key c d o c1 Hsame Hget) as (d1 & Hget' & Hsame1).
    rewrite Hget, Hget'. simpl. by apply IH.
  - destruct (put_wf key value c Hwf) as (c1 & Hput & Hwf1 & _).
    destruct (put_same_contents key value c d c1 Hsame Hput) as (d1 & Hput' & Hsame1).
    rewrite Hput, Hput'. simpl. by apply IH.
  - apply IH; [by apply clear_wf|]. destruct Hsame as (? & ? & ?). by split.
  - apply IH; [by apply reset_stats_wf|]. exact Hsame.
Qed.

(** X25: [clear] empties the cache and keeps the statistics.  After
    [clear] the cache is empty and still usable, every [get] misses and is
    counted as a miss, and the hit, miss and eviction counters, hence the
    hit rate, are those from before: the entries dropped are not counted as
    evictions. *)
Theorem clear_contract c :
  wf c →
  wf (clear c)
  ∧ size (clear c) = 0
  ∧ capacity_ (clear c) = capacity_ c
  ∧ hits_ (clear c) = hits_ c ∧ misses_ (clear c) = misses_ c
  ∧ evictions_ (clear c) = evictions_ c
  ∧ hit_rate (clear c) = hit_rate c
  ∧ ∀ key, ∃ c', get key (clear c) = Ok (None, c')
                 ∧ misses_ c' = size_incr (misses_ c)
                 ∧ hits_ c' = hits_ c
                 ∧ size c' = 0.
Proof.
  intros Hwf. split; [by apply clear_wf|]. do 6 (split; [done|]).
  intros key. eexists. split.
  - apply get_miss. apply lookup_empty.
  - done.
Qed.

End LRU_more.

(** ** Instances on the cache of [test_lru_cache] *)

Section LRU_examples.
Import LRU.

Lemma demo_cache_fresh_key : 4 ∉ keys demo_cache.
Proof.
  vm_compute. intros Hin.
  repeat (apply elem_of_cons in Hin as [Hin|Hin]; [done|]).
  by apply elem_of_nil in Hin.
Qed.

Lemma put_new_contract_witness :
  wf demo_cache
  ∧ (4 ∉ keys demo_cache)
  ∧ ∃ c', put 4 "Diana" demo_cache = Ok c'
          ∧ items c' = [(4, "Diana"); (3, "Charlie"); (2, "Bob")]
          ∧ evictions_ c' = 1
          ∧ size c' = 3.
Proof.
  split; [exact demo_cache_wf|]. split; [exact demo_cache_fresh_key|].
  destruct (put_new_contract 4 "Diana" demo_cache demo_cache_wf demo_cache_fresh_key)
    as (c' & Hput & Hitems & Hev & Hsz & _).
  exists c'. split; [done|]. rewrite Hitems, Hev, Hsz. done.
Defined.

Lemma put_get_roundtrip_witness :
  wf demo_cache
  ∧ ∃ c1 c2, put 4 "Diana" demo_cache = Ok c1
             ∧ get 4 c1 = Ok (Some "Diana", c2).
Proof.
  split; [exact demo_cache_wf|].
  destruct (put_get_roundtrip 4 "Diana" demo_cache demo_cache_wf)
    as (c1 & c2 & Hput & Hget & _).
  by exists c1, c2.
Defined.

Lemma run_invariant_witness :
  0 ≤ 2
  ∧ ∃ c0 c',
      LRUCache_new 2 = Ok c0
      ∧ run [Put 1 "Alice"; Put 2 "Bob"; Get 1; Put 3 "Charlie"; Clear;
             Put 2 "Bob"; ResetStats; Get 3] c0 = Ok c'
      ∧ NoDup (keys c')
      ∧ size c' ≤ 2.
Proof.
  assert (0 ≤ 2) as Hcap by lia. split; [exact Hcap|].
  set (c0 := {| capacity_ := 2; cache_list_ := []; cache_map_ := ∅;
                hits_ := 0; misses_ := 0; evictions_ := 0 |} : LRUCache Z string).
  assert (LRUCache_new 2 = Ok c0) as Hnew by reflexivity.
  destruct (run_invariant 2
              [Put 1 "Alice"; Put 2 "Bob"; Get 1; Put 3 "Charlie"; Clear;
               Put 2 "Bob"; ResetStats; Get 3] c0 Hcap Hnew)
    as (c' & Hrun & Hnodup & _ & _ & Hsize & _).
  exists c0, c'. split; [exact Hnew|]. split; [exact Hrun|].
  split; [exact Hnodup | exact Hsize].
Defined.

Lemma lookups_counted_witness :
  wf demo_cache
  ∧ (ResetStats ∉ [Get 2; Put 4 "Diana"; Get 1; Clear; Get 2])
  ∧ ∃ c', run [Get 2; Put 4 "Diana"; Get 1; Clear; Get 2] demo_cache = Ok c'
          ∧ size_wrap (hits_ c' + misses_ c') = 3.
Proof.
  assert (ResetStats ∉ [Get 2; Put 4 "Diana"; Get 1; Clear; Get 2]) as Hnone.
  { intros Hin.
    repeat (apply elem_of_cons in Hin as [Hin|Hin]; [done|]).
    by apply elem_of_nil in Hin. }
  split; [exact demo_cache_wf|]. split; [exact Hnone|].
  destruct (lookups_counted _ demo_cache demo_cache_wf Hnone) as (c' & Hrun & Hcount).
  exists c'. split; [done|]. rewrite Hcount. reflexivity.
Defined.

Lemma put_other_entries_witness :
  wf demo_cache
  ∧ ∃ c', put 4 "Diana" demo_cache = Ok c'
          ∧ (2, "Bob") ∈ items c'
          ∧ (1, "Alice") ∉ items c'.
Proof.
  split; [exact demo_cache_wf|].
  destruct (put_wf 4 "Diana" demo_cache demo_cache_wf) as (c' & Hput & _).
  exists c'. split; [exact Hput|].
  pose proof (put_other_entries 4 "Diana" demo_cache c' demo_cache_wf Hput) as Hother.
  split.
  - apply (Hother 2 "Bob"); [done|]. split.
    + vm_compute. right. left.
    + intros (_ & _ & Hlast). vm_compute in Hlast. discriminate.
  - intros Hin. apply (Hother 1 "Alice") in Hin as [_ Hnot]; [|done].
    apply Hnot. split; [exact demo_cache_fresh_key|].
    split; [by vm_compute | reflexivity].
Defined.

Lemma touched_entry_survives_witness :
  wf demo_cache
  ∧ 2 ≤ capacity_ demo_cache
  ∧ (1, "Alice") ∈ items demo_cache
  ∧ 4 ≠ 1
  ∧ ∃ c1 c2, get 1 demo_cache = Ok (Some "Alice", c1)
             ∧ put 4 "Diana" c1 = Ok c2
             ∧ (1, "Alice") ∈ items c2.
Proof.
  assert (2 ≤ capacity_ demo_cache) as Hcap by (by vm_compute).
  assert ((1, "Alice") ∈ items demo_cache) as Hin.
  { vm_compute. right. right. left. }
  assert (4 ≠ 1) as Hne by lia.
  split; [exact demo_cache_wf|]. split; [exact Hcap|]. split; [exact Hin|].
  split; [exact Hne|].
  exact (touched_entry_survives 1 "Alice" 4 "Diana" demo_cache
           demo_cache_wf Hcap Hin Hne).
Defined.

Lemma put_all_keeps_latest_witness :
  0 ≤ 2
  ∧ NoDup [(1, "Alice"); (2, "Bob"); (3, "Charlie")].*1
  ∧ ∃ c0 c',
      LRUCache_new 2 = Ok c0
      ∧ put_all [(1, "Alice"); (2, "Bob"); (3, "Charlie")] c0 = Ok c'
      ∧ items c' = [(3, "Charlie"); (2, "Bob")]
      ∧ evictions_ c' = 1.
Proof.
  assert (0 ≤ 2) as Hcap by lia.
  assert (NoDup [(1, "Alice"); (2, "Bob"); (3, "Charlie")].*1) as Hnodup.
  { simpl. repeat (apply NoDup_cons; split; [|]); try apply NoDup_nil_2;
      intros Hin; repeat (apply elem_of_cons in Hin as [Hin|Hin]; [done|]);
      by apply elem_of_nil in Hin. }
  split; [exact Hcap|]. split; [exact Hnodup|].
  set (c0 := {| capacity_ := 2; cache_list_ := []; cache_map_ := ∅;
                hits_ := 0; misses_ := 0; evictions_ := 0 |} : LRUCache Z string).
  assert (LRUCache_new 2 = Ok c0) as Hnew by reflexivity.
  destruct (put_all_keeps_latest 2 [(1, "Alice"); (2, "Bob"); (3, "Charlie")] c0
              Hcap Hnew Hnodup)
    as (c' & Hall & Hitems & _ & Hev).
  exists c0, c'. split; [exact Hnew|]. split; [exact Hall|].
  rewrite Hitems, Hev. split; reflexivity.
Defined.

Lemma stats_do_not_affect_contents_witness :
  wf demo_cache
  ∧ same_contents demo_cache
      {| capacity_ := 3; cache_list_ := cache_list_ demo_cache;
         cache_map_ := cache_map_ demo_cache;
         hits_ := 5; misses_ := 7; evictions_ := 1 |}
  ∧ ∃ c' d',
      run [Get 1; Put 4 "Diana"; ResetStats; Get 2] demo_cache = Ok c'
      ∧ run [Get 1; Put 4 "Diana"; ResetStats; Get 2]
          {| capacity_ := 3; cache_list_ := cache_list_ demo_cache;
             cache_map_ := cache_map_ demo_cache;
             hits_ := 5; misses_ := 7; evictions_ := 1 |} = Ok d'
      ∧ cache_list_ c' = cache_list_ d'.
Proof.
  set (d := {| capacity_ := 3; cache_list_ := cache_list_ demo_cache;
               cache_map_ := cache_map_ demo_cache;
               hits_ := 5; misses_ := 7; evictions_ := 1 |}).
  assert (same_contents demo_cache d) as Hsame by (by split).
  split; [exact demo_cache_wf|]. split; [exact Hsame|].
  destruct (stats_do_not_affect_contents [Get 1; Put 4 "Diana"; ResetStats; Get 2]
              demo_cache d demo_cache_wf Hsame)
    as (c' & d' & Hrun & Hrun' & Hlist & _).
  exists c', d'. split; [exact Hrun|]. split; [exact Hrun' | exact Hlist].
Defined.

Lemma clear_contract_witness :
  wf demo_cache
  ∧ size (clear demo_cache) = 0
  ∧ ∃ c', get 2 (clear demo_cache) = Ok (None, c') ∧ misses_ c' = 1.
Proof.
  split; [exact demo_cache_wf|].
  destruct (clear_contract demo_cache demo_cache_wf)
    as (_ & Hsize & _ & _ & _ & _ & _ & Hget).
  split; [exact Hsize|].
  destruct (Hget 2) as (c' & Hc' & Hmiss & _).
  exists c'. split; [exact Hc' | exact Hmiss].
Defined.

End LRU_examples.

(** * Properties of the pointer cache *)

Section LRUPtr_facts.
Import LRUPtr.
Context {Key : Type} `{Countable Key}.
Implicit Types (c : LRUCachePtr Key) (key : Key) (value ptr : Z).

Lemma wf_as_cache c h m e h' m' e' :
  LRU.wf (as_cache c h m e) → LRU.wf (as_cache c h' m' e').
Proof. intros [Hnd Hidx Hsz Hpos]. by split. Qed.

Lemma put_ptr_existing key value c :
  wf c → key ∈ LRU.keys (as_cache c 0 0 0) →
  ∃ it old,
    cache_map_ c !! key = Some it
    ∧ LRU.node_item it (cache_list_ c) = Some (key, old)
    ∧ put key value c =
        Ok (release c old,
            {| capacity_ := capacity_ c;
               cache_list_ := (it, (key, value)) :: LRU.unlink it (cache_list_ c);
               cache_map_ := cache_map_ c; deleter_ := deleter_ c |}).
Proof.
  intros Hwf Hin. apply (wf_keys_index _ _ Hwf) in Hin as [it Hm]. simpl in Hm.
  pose proof Hm as Hm'. apply Hwf in Hm' as [old Hold].
  apply (wf_node_item _ _ _ Hwf) in Hold. simpl in Hold.
  exists it, old. split; [done|]. split; [done|].
  unfold put, LRU.splice_front. rewrite Hm, Hold. simpl.
  destruct (assign_second_Some it (key, old) value _ Hold) as (l1 & -> & Hitem & Hun).
  simpl. rewrite Hitem. simpl. by rewrite Hun.
Qed.

Lemma put_ptr_new key value c :
  wf c → key ∉ LRU.keys (as_cache c 0 0 0) →
  cache_map_ c !! key = None
  ∧ if Z.of_nat (length (cache_list_ c)) >=? capacity_ c then
      ∃ itl kl vl,
        last (cache_list_ c) = Some (itl, (kl, vl))
        ∧ put key value c =
            Ok (release c vl,
                {| capacity_ := capacity_ c;
                   cache_list_ :=
                     (LRU.fresh_iterator (removelast (cache_list_ c)), (key, value))
                     :: removelast (cache_list_ c);
                   cache_map_ :=
                     <[key := LRU.fresh_iterator (removelast (cache_list_ c))]>
                       (delete kl (cache_map_ c));
                   deleter_ := deleter_ c |})
    else
      put key value c =
        Ok ([],
            {| capacity_ := capacity_ c;
               cache_list_ :=
                 (LRU.fresh_iterator (cache_list_ c), (key, value)) :: cache_list_ c;
               cache_map_ := <[key := LRU.fresh_iterator (cache_list_ c)]> (cache_map_ c);
               deleter_ := deleter_ c |}).
Proof.
  intros Hwf Hnotin.
  assert (cache_map_ c !! key = None) as Hm.
  { apply eq_None_not_Some. intros Hsome. apply Hnotin.
    by apply (wf_keys_index _ _ Hwf). }
  split; [done|]. unfold put. rewrite Hm.
  destruct (Z.of_nat (length (cache_list_ c)) >=? capacity_ c) eqn:Hfull; [|done].
  rewrite Z.geb_leb in Hfull. apply Z.leb_le in Hfull.
  destruct (evict_lru_nonempty (as_cache c 0 0 0)
              (wf_full_nonempty _ Hwf Hfull)) as (itl & kl & vl & Hlast & _).
  simpl in Hlast. exists itl, kl, vl. split; [done|]. by rewrite Hlast.
Qed.

(** [put] keeps the invariant; the pointer it drops and the pointers it
    holds afterwards are the pointer put and the pointers held before. *)
Lemma put_ptr_wf key value c :
  wf c →
  ∃ dropped c',
    put key value c = Ok (if deleter_ c then dropped else [], c')
    ∧ wf c' ∧ capacity_ c' = capacity_ c ∧ deleter_ c' = deleter_ c
    ∧ dropped ++ resident c' ≡ₚ value :: resident c.
Proof.
  intros Hwf. destruct (decide (key ∈ LRU.keys (as_cache c 0 0 0))) as [Hin|Hnotin].
  - destruct (put_ptr_existing key value c Hwf Hin) as (it & old & Hm & Hold & Hput).
    exists [old]. eexists. split; [by rewrite Hput|]. split_and!; try done.
    + apply (wf_put_existing key old value it (as_cache c 0 0 0) 0 0 0 Hwf Hold).
    + unfold resident. simpl.
      rewrite <- (unlink_Permutation it (key, old) (cache_list_ c) Hold) at 2.
      simpl. apply Permutation_swap.
  - destruct (put_ptr_new key value c Hwf Hnotin) as [Hm Hput].
    destruct (Z.of_nat (length (cache_list_ c)) >=? capacity_ c) eqn:Hfull.
    + destruct Hput as (itl & kl & vl & Hlast & Hput).
      exists [vl]. eexists. split; [by rewrite Hput|].
      rewrite Z.geb_leb in Hfull. apply Z.leb_le in Hfull.
      destruct (wf_evict_lru (as_cache c 0 0 0) Hwf) as (Hwf1 & _ & Hsz1 & Hnone1).
      specialize (Hsz1 (wf_full_nonempty _ Hwf Hfull)).
      specialize (Hnone1 key Hm).
      unfold LRU.evict_lru in Hwf1, Hsz1, Hnone1. simpl in Hwf1, Hsz1, Hnone1.
      rewrite Hlast in Hwf1, Hsz1, Hnone1. simpl in Hnone1.
      split_and!; try done.
      * apply (wf_insert_new key value _ 0 0 0 Hwf1); [|done].
        pose proof (LRU.wf_size _ Hwf). simpl in *. lia.
      * unfold resident. simpl.
        rewrite (last_removelast_app (cache_list_ c) _ Hlast) at 2.
        rewrite fmap_app. simpl.
        rewrite <- Permutation_cons_append. apply Permutation_swap.
    + exists []. eexists. split.
      { rewrite Hput.
        assert ((if deleter_ c then [] else []) = ([] : list Z)) as ->
          by (by destruct (deleter_ c)).
        reflexivity. }
      rewrite Z.geb_leb in Hfull. apply Z.leb_gt in Hfull.
      split_and!; try done.
      apply (wf_insert_new key value (as_cache c 0 0 0) 0 0 0 Hwf); [|done].
      unfold LRU.size. simpl. lia.
Qed.

Lemma get_ptr_wf key c :
  wf c →
  ∃ ptr c',
    get key c = Ok (ptr, c')
    ∧ wf c' ∧ capacity_ c' = capacity_ c ∧ deleter_ c' = deleter_ c
    ∧ resident c' ≡ₚ resident c.
Proof.
  intros Hwf. unfold get. destruct (cache_map_ c !! key) as [it|] eqn:Hm.
  - pose proof Hm as Hm'. apply Hwf in Hm' as [old Hold].
    apply (wf_node_item _ _ _ Hwf) in Hold. simpl in Hold.
    unfold LRU.splice_front. rewrite Hold. simpl. rewrite decide_True by done.
    simpl. do 2 eexists. split; [done|]. split_and!; try done.
    + apply (wf_put_existing key old old it (as_cache c 0 0 0) 0 0 0 Hwf Hold).
    + unfold resident. simpl.
      rewrite <- (unlink_Permutation it (key, old) (cache_list_ c) Hold) at 2. done.
  - do 2 eexists. split; [done|]. done.
Qed.

(** The pointers released and held after a sequence of calls are the
    pointers put and the pointers held before. *)
Lemma run_ptr_accounting (calls : list (call Key)) c :
  wf c →
  ∃ dropped c',
    run calls c = Ok (if deleter_ c then dropped else [], c')
    ∧ wf c' ∧ deleter_ c' = deleter_ c
    ∧ dropped ++ resident c' ≡ₚ put_values calls ++ resident c.
Proof.
  revert c. induction calls as [|[key|key value] calls IH]; intros c Hwf; simpl.
  - exists [], c. split; [by destruct (deleter_ c)|]. done.
  - destruct (get_ptr_wf key c Hwf) as (ptr & c1 & -> & Hwf1 & _ & Hdel1 & Hres1).
    simpl. destruct (IH c1 Hwf1) as (dropped & c' & -> & Hwf' & Hdel' & Hacc).
    simpl. exists dropped, c'. rewrite Hdel1. split; [done|].
    split; [done|]. split; [congruence|]. by rewrite Hacc, Hres1.
  - destruct (put_ptr_wf key value c Hwf)
      as (d1 & c1 & -> & Hwf1 & _ & Hdel1 & Hacc1).
    simpl. destruct (IH c1 Hwf1) as (d2 & c' & -> & Hwf' & Hdel' & Hacc2).
    simpl. exists (d1 ++ d2), c'. rewrite Hdel1. split.
    { by destruct (deleter_ c). }
    split; [done|]. split; [congruence|].
    rewrite <- app_assoc, Hacc2.
    rewrite (Permutation_app_comm (put_values calls)), app_assoc, Hacc1.
    simpl. f_equiv. apply Permutation_app_comm.
Qed.

Lemma LRUCachePtr_new_wf capacity deleter c :
  0 ≤ capacity → LRUCachePtr_new capacity deleter = Ok c →
  wf c ∧ deleter_ c = deleter ∧ resident c = [].
Proof.
  unfold LRUCachePtr_new. intros Hcap. destruct (Z.eqb_spec capacity 0); [done|].
  intros [= <-]. split; [|done].
  apply (wf_new (Key := Key) (Value := Z) capacity); [done|].
  unfold LRU.LRUCache_new. by destruct (Z.eqb_spec capacity 0).
Qed.

(** X8: with a deleter, every pointer given to [put] is passed to the
    deleter exactly once over the life of the cache: for every sequence of
    [put] and [get] calls on a cache just built, the pointers released by
    the calls followed by those released by the destructor are, up to
    order, the pointers put. *)
Theorem ptr_released_exactly_once capacity (calls : list (call Key)) c0 :
  0 ≤ capacity →
  LRUCachePtr_new capacity true = Ok c0 →
  ∃ released c',
    run calls c0 = Ok (released, c')
    ∧ released ++ LRUCachePtr_delete c' ≡ₚ put_values calls.
Proof.
  intros Hcap Hnew.
  destruct (LRUCachePtr_new_wf capacity true c0 Hcap Hnew) as (Hwf & Hdel & Hres).
  destruct (run_ptr_accounting calls c0 Hwf) as (dropped & c' & Hrun & _ & Hdel' & Hacc).
  rewrite Hdel in Hrun. exists dropped, c'. split; [done|].
  unfold LRUCachePtr_delete. rewrite Hdel', Hdel.
  fold (resident c'). by rewrite Hacc, Hres, app_nil_r.
Qed.

(** X9: without a deleter, nothing is ever released: neither the calls nor
    the destructor invoke a deleter, whatever is put, overwritten or
    evicted. *)
Theorem ptr_never_released_without_deleter capacity (calls : list (call Key)) c0 :
  0 ≤ capacity →
  LRUCachePtr_new capacity false = Ok c0 →
  ∃ c', run calls c0 = Ok ([], c')
        ∧ LRUCachePtr_delete c' = []
        ∧ resident c' ⊆ put_values calls.
Proof.
  intros Hcap Hnew.
  destruct (LRUCachePtr_new_wf capacity false c0 Hcap Hnew) as (Hwf & Hdel & Hres).
  destruct (run_ptr_accounting calls c0 Hwf) as (dropped & c' & Hrun & _ & Hdel' & Hacc).
  rewrite Hdel in Hrun. exists c'. split; [done|]. split.
  - unfold LRUCachePtr_delete. by rewrite Hdel', Hdel.
  - rewrite Hres, app_nil_r in Hacc. intros x Hx. rewrite <- Hacc.
    apply elem_of_app. by right.
Qed.

Lemma put_ptr_hit key old value it c :
  LRU.node_item it (cache_list_ c) = Some (key, old) →
  cache_map_ c !! key = Some it →
  put key value c =
    Ok (release c old,
        {| capacity_ := capacity_ c;
           cache_list_ := (it, (key, value)) :: LRU.unlink it (cache_list_ c);
           cache_map_ := cache_map_ c; deleter_ := deleter_ c |}).
Proof.
  intros Hold Hm. unfold put, LRU.splice_front. rewrite Hm, Hold. simpl.
  destruct (assign_second_Some it (key, old) value _ Hold) as (l1 & -> & Hitem & Hun).
  simpl. rewrite Hitem. simpl. by rewrite Hun.
Qed.

(** X10: [put] on a key the cache contains passes the superseded pointer,
    and no other, to the deleter, and [get] then returns the new pointer.
    No check is made that the two differ: when the pointer put is the one
    already stored, the deleter is invoked on it and the cache goes on
    returning it. *)
Theorem ptr_overwrite key old value c :
  wf c → (key, old) ∈ LRU.items (as_cache c 0 0 0) →
  ∃ c1 c2,
    put key value c = Ok (if deleter_ c then [old] else [], c1)
    ∧ get key c1 = Ok (value, c2)
    ∧ old :: resident c1 ≡ₚ value :: resident c
    ∧ wf c1.
Proof.
  intros Hwf Hin.
  destruct (wf_items_node (as_cache c 0 0 0) key old Hwf Hin) as (it & Hm & Hold).
  simpl in Hm, Hold.
  do 2 eexists. split; [by rewrite (put_ptr_hit key old value it c Hold Hm)|].
  split_and!.
  - unfold get, LRU.splice_front. simpl. rewrite Hm. simpl.
    rewrite !decide_True by done. simpl. rewrite !decide_True by done. done.
  - unfold resident. simpl.
    rewrite <- (unlink_Permutation it (key, old) (cache_list_ c) Hold) at 2.
    simpl. apply Permutation_swap.
  - apply (wf_put_existing key old value it (as_cache c 0 0 0) 0 0 0 Hwf Hold).
Qed.

(** X11: [LRUCachePtr] keeps its list and its index as [LRUCache] does: on
    the same list, index and capacity, [put] of the two classes leave the
    same list and index, and so do [get], which return the same value, the
    null pointer standing for the absent outcome. *)
Theorem ptr_same_contents key value c h m e :
  wf c →
  (∃ released c' e',
     put key value c = Ok (released, c')
     ∧ LRU.put key value (as_cache c h m e) = Ok (as_cache c' h m e'))
  ∧ (∃ o c' h' m',
       get key c = Ok (default 0 o, c')
       ∧ LRU.get key (as_cache c h m e) = Ok (o, as_cache c' h' m' e)).
Proof.
  intros Hwf. split.
  - destruct (decide (key ∈ LRU.keys (as_cache c 0 0 0))) as [Hin|Hnotin].
    + destruct (put_ptr_existing key value c Hwf Hin) as (it & old & Hm & Hold & Hput).
      do 3 eexists. split; [exact Hput|].
      by rewrite (put_existing key old value it (as_cache c h m e) Hold Hm).
    + destruct (put_ptr_new key value c Hwf Hnotin) as [Hm Hput].
      rewrite (put_new_eq key value (as_cache c h m e) Hm).
      unfold LRU.size. simpl.
      destruct (Z.of_nat (length (cache_list_ c)) >=? capacity_ c) eqn:Hfull.
      * destruct Hput as (itl & kl & vl & Hlast & Hput).
        do 3 eexists. split; [exact Hput|].
        unfold LRU.evict_lru. simpl. rewrite Hlast. simpl. reflexivity.
      * do 3 eexists. split; [exact Hput|]. reflexivity.
  - unfold get. destruct (cache_map_ c !! key) as [it|] eqn:Hm.
    + pose proof Hm as Hm'. apply Hwf in Hm' as [old Hold].
      apply (wf_node_item _ _ _ Hwf) in Hold. simpl in Hold.
      rewrite (get_hit key old it (as_cache c h m e) Hold Hm).
      unfold LRU.splice_front. rewrite Hold. simpl. rewrite decide_True by done.
      simpl. exists (Some old). do 3 eexists. split; reflexivity.
    + rewrite (get_miss key (as_cache c h m e) Hm).
      exists None. do 3 eexists. split; reflexivity.
Qed.

End LRUPtr_facts.

(** ** Instances on a pointer cache of capacity 2 *)

Section LRUPtr_examples.
Import LRUPtr.

Lemma demo_ptr_cache_wf : wf demo_ptr_cache.
Proof.
  set (c0 := {| capacity_ := 2; cache_list_ := []; cache_map_ := ∅;
                deleter_ := true |} : LRUCachePtr Z).
  destruct (LRUCachePtr_new_wf 2 true c0) as (Hwf0 & _); [lia | done |].
  destruct (put_ptr_wf 1 100 c0 Hwf0) as (d1 & c1 & Hput1 & Hwf1 & _).
  vm_compute in Hput1. injection Hput1 as _ <-.
  match type of Hwf1 with wf ?c =>
    destruct (put_ptr_wf 2 200 c Hwf1) as (d2 & c2 & Hput2 & Hwf2 & _) end.
  vm_compute in Hput2. injection Hput2 as _ <-.
  exact Hwf2.
Qed.

Lemma ptr_released_exactly_once_witness :
  0 ≤ 2
  ∧ ∃ c0 released c',
      LRUCachePtr_new 2 true = Ok c0
      ∧ run demo_ptr_calls c0 = Ok (released, c')
      ∧ released ++ LRUCachePtr_delete c' ≡ₚ [100; 200; 101; 300].
Proof.
  assert (0 ≤ 2) as Hcap by lia. split; [exact Hcap|].
  set (c0 := {| capacity_ := 2; cache_list_ := []; cache_map_ := ∅;
                deleter_ := true |} : LRUCachePtr Z).
  assert (LRUCachePtr_new 2 true = Ok c0) as Hnew by reflexivity.
  destruct (ptr_released_exactly_once 2 demo_ptr_calls c0 Hcap Hnew)
    as (released & c' & Hrun & Hperm).
  exists c0, released, c'. split; [exact Hnew|]. split; [exact Hrun|]. exact Hperm.
Defined.

Lemma ptr_never_released_without_deleter_witness :
  0 ≤ 2
  ∧ ∃ c0 c',
      LRUCachePtr_new 2 false = Ok c0
      ∧ run demo_ptr_calls c0 = Ok ([], c')
      ∧ LRUCachePtr_delete c' = [].
Proof.
  assert (0 ≤ 2) as Hcap by lia. split; [exact Hcap|].
  set (c0 := {| capacity_ := 2; cache_list_ := []; cache_map_ := ∅;
                deleter_ := false |} : LRUCachePtr Z).
  assert (LRUCachePtr_new 2 false = Ok c0) as Hnew by reflexivity.
  destruct (ptr_never_released_without_deleter 2 demo_ptr_calls c0 Hcap Hnew)
    as (c' & Hrun & Hdel & _).
  exists c0, c'. split; [exact Hnew|]. split; [exact Hrun | exact Hdel].
Defined.

Lemma ptr_overwrite_witness :
  wf demo_ptr_cache
  ∧ (1, 100) ∈ LRU.items (as_cache demo_ptr_cache 0 0 0)
  ∧ ∃ c1 c2,
      put 1 100 demo_ptr_cache = Ok ([100], c1)
      ∧ get 1 c1 = Ok (100, c2).
Proof.
  assert ((1, 100) ∈ LRU.items (as_cache demo_ptr_cache 0 0 0)) as Hin.
  { vm_compute. right. left. }
  split; [exact demo_ptr_cache_wf|]. split; [exact Hin|].
  destruct (ptr_overwrite 1 100 100 demo_ptr_cache demo_ptr_cache_wf Hin)
    as (c1 & c2 & Hput & Hget & _).
  exists c1, c2. split; [exact Hput | exact Hget].
Defined.

Lemma ptr_same_contents_witness :
  wf demo_ptr_cache
  ∧ ∃ released c' e',
      put 3 300 demo_ptr_cache = Ok (released, c')
      ∧ LRU.put 3 300 (as_cache demo_ptr_cache 5 7 0) = Ok (as_cache c' 5 7 e').
Proof.
  split; [exact demo_ptr_cache_wf|].
  exact (proj1 (ptr_same_contents 3 300 demo_ptr_cache 5 7 0 demo_ptr_cache_wf)).
Defined.

End LRUPtr_examples.

(** * Further properties of the memory pool *)

Section Pool_more.
Import Pool.
Implicit Types (p : MemoryPool) (mem : gmap Z Z) (a v : Z).

(** ** Counters *)

Lemma size_wrap_range x : 0 ≤ size_wrap x < SIZE_MODULUS.
Proof. unfold size_wrap. apply Z.mod_pos_bound. by rewrite SIZE_MODULUS_eq. Qed.

Lemma counters_ok_allocate p mem a d p' :
  counters_ok p → allocate p mem = Ok (a, d, p') → counters_ok p'.
Proof.
  intros [Hr Hu]. unfold allocate. destruct (free_list_ p =? 0).
  - by intros [= <- <- <-].
  - destruct (load_next (free_list_ p) mem) as [next|]; simpl; [|done].
    intros [= <- <- <-]. split; simpl; [apply size_wrap_range|].
    unfold size_incr, size_wrap in *. rewrite Hu.
    rewrite Zplus_mod_idemp_l, Zminus_mod_idemp_l. f_equal. lia.
Qed.

Lemma counters_ok_deallocate ptr p mem :
  counters_ok p → counters_ok (deallocate ptr p mem).1.2.
Proof.
  intros [Hr Hu]. unfold deallocate. destruct (ptr =? 0); [done|].
  destruct (is_from_pool ptr p); simpl; [|done].
  split; simpl; [apply size_wrap_range|].
  unfold size_incr, size_decr, size_wrap in *. rewrite Hu.
  rewrite Zminus_mod_idemp_l, Zminus_mod_idemp_r. f_equal. lia.
Qed.

Lemma counters_ok_run calls p mem p' mem' :
  counters_ok p → run calls p mem = Ok (p', mem') → counters_ok p'.
Proof.
  revert p mem. induction calls as [|[|ptr] calls IH]; intros p mem Hok; simpl.
  - by intros [= <- <-].
  - destruct (allocate p mem) as [[[a d] p1]| |] eqn:Halloc; simpl; [|done..].
    apply IH. by eapply counters_ok_allocate.
  - apply IH. by apply counters_ok_deallocate.
Qed.

(** X12: whatever the calls, disciplined or not, the usage counter is the
    number of allocations minus the number of deallocations, in [size_t]
    arithmetic: on a pool just built, after any sequence of [allocate] and
    [deallocate] calls that runs to its end, [current_usage_] equals
    [allocations_ - deallocations_] modulo [2^64]. *)
Theorem usage_is_allocations_minus_deallocations
    block_size block_count operator_new mem calls p mem0 p' mem' :
  MemoryPool_new block_size block_count operator_new mem = Ok (p, mem0) →
  run calls p mem0 = Ok (p', mem') →
  current_usage_ p' = size_wrap (allocations_ p' - deallocations_ p')
  ∧ 0 ≤ current_usage_ p' < SIZE_MODULUS.
Proof.
  intros Hnew Hrun.
  assert (counters_ok p) as Hok.
  { revert Hnew. unfold MemoryPool_new, init_free_list.
    destruct (operator_new _) as [start|]; [|done].
    destruct (start =? 0); [done|].
    destruct (init_free_list_loop _ _ _ _ _) as [fl mem1]. simpl.
    intros [= <- <-]. split; simpl; [by rewrite SIZE_MODULUS_eq | done]. }
  destruct (counters_ok_run calls p mem0 p' mem' Hok Hrun) as [Hr Hu]. done.
Qed.

(** ** Blocks handed out *)

Lemma blocks_disjoint p a b :
  arena_ok p → is_block p a → is_block p b → a ≠ b →
  b + block_size_ p ≤ a ∨ a + block_size_ p ≤ b.
Proof.
  intros [Hs Hb Hc He] (i & Hi & ->) (j & Hj & ->) Hne.
  unfold block_address, sizeof_FreeBlock in *.
  destruct (Z.lt_trichotomy i j) as [Hlt | [-> | Hlt]]; [|done|].
  - right. assert ((i + 1) * block_size_ p ≤ j * block_size_ p)
      by (apply Z.mul_le_mono_nonneg_r; lia). lia.
  - left. assert ((j + 1) * block_size_ p ≤ i * block_size_ p)
      by (apply Z.mul_le_mono_nonneg_r; lia). lia.
Qed.

Lemma block_within p a :
  arena_ok p → is_block p a →
  memory_start_ p ≤ a ∧ a + block_size_ p ≤ end_of_arena p.
Proof.
  intros [Hs Hb Hc He] (i & Hi & ->).
  unfold block_address, end_of_arena, sizeof_FreeBlock in *.
  assert (0 ≤ i * block_size_ p) by (apply Z.mul_nonneg_nonneg; lia).
  assert ((i + 1) * block_size_ p ≤ block_count_ p * block_size_ p)
    by (apply Z.mul_le_mono_nonneg_r; lia). lia.
Qed.

Lemma partition_free_nil p mem free outstanding :
  partition p mem free outstanding →
  current_usage_ p = block_count_ p ↔ free = [].
Proof.
  intros Hpart. pose proof (part_count _ _ _ _ Hpart) as Hcount.
  pose proof (part_usage _ _ _ _ Hpart) as Husage. split.
  - intros Heq. destruct free; [done|]. simpl in Hcount. lia.
  - intros ->. simpl in Hcount. lia.
Qed.

(** X13: [allocate] hands out a free block.  In a pool whose free list
    and outstanding blocks partition the arena and that is not full,
    [allocate] succeeds without a diagnostic; the address it returns is the
    start of a block, the block lies wholly inside the arena, it is not
    outstanding and overlaps no outstanding block, and the usage grows by
    one. *)
Theorem allocate_returns_free_block p mem free outstanding :
  partition p mem free outstanding →
  current_usage_ p < block_count_ p →
  ∃ a p',
    allocate p mem = Ok (a, [], p')
    ∧ a ≠ 0
    ∧ is_block p a
    ∧ memory_start_ p ≤ a ∧ a + block_size_ p ≤ end_of_arena p
    ∧ (a ∉ outstanding)
    ∧ (∀ b, b ∈ outstanding → b + block_size_ p ≤ a ∨ a + block_size_ p ≤ b)
    ∧ current_usage_ p' = current_usage_ p + 1
    ∧ partition p' mem (tail free) (a :: outstanding).
Proof.
  intros Hpart Hlt.
  destruct free as [|a free].
  { pose proof (proj2 (partition_free_nil _ _ _ _ Hpart) eq_refl). lia. }
  destruct (allocate_partition _ _ _ _ _ Hpart)
    as (p' & Halloc & Hpart' & _ & _ & _ & _).
  pose proof (part_arena _ _ _ _ Hpart) as Harena.
  pose proof (part_nodup _ _ _ _ Hpart) as Hnodup.
  assert (is_block p a) as Hblock.
  { apply (part_blocks _ _ _ _ Hpart). set_solver. }
  assert (a ∉ outstanding) as Hout.
  { intros Hin. simpl in Hnodup. apply NoDup_cons in Hnodup as [Hnot _].
    apply Hnot. set_solver. }
  exists a, p'. split; [done|].
  split; [by destruct (part_chain _ _ _ _ Hpart) as (_ & ? & _)|].
  split; [done|].
  destruct (block_within _ _ Harena Hblock) as [? ?].
  do 3 (split; [done|]).
  split.
  { intros b Hb. apply blocks_disjoint; [done|done| |].
    - apply (part_blocks _ _ _ _ Hpart). set_solver.
    - intros ->. done. }
  split; [|done].
  rewrite (part_usage _ _ _ _ Hpart'), (part_usage _ _ _ _ Hpart). simpl. lia.
Qed.

(** X14: the pool reports exhaustion exactly when it is full.  Under the
    free-list partition, [allocate] returns the null address with the
    diagnostic "Memory pool exhausted!" and leaves the pool as it is if and
    only if [current_usage_] equals [block_count_]. *)
Theorem exhausted_iff_full p mem free outstanding :
  partition p mem free outstanding →
  allocate p mem = Ok (0, [pool_exhausted], p)
  ↔ current_usage_ p = block_count_ p.
Proof.
  intros Hpart. rewrite (partition_free_nil _ _ _ _ Hpart). split.
  - intros Halloc. destruct free as [|a free]; [done|].
    destruct (allocate_partition _ _ _ _ _ Hpart) as (p' & Halloc' & _).
    rewrite Halloc in Halloc'. discriminate.
  - intros ->. apply allocate_empty. exact (part_chain _ _ _ _ Hpart).
Qed.

(** ** Round trips *)

Lemma filter_ne_cons_notin (a : Z) (xs : list Z) :
  a ∉ xs → filter (λ b, b ≠ a) (a :: xs) = xs.
Proof.
  intros Hnot. rewrite filter_cons_False by (intros H; by apply H).
  induction xs as [|x xs IH]; [done|].
  apply not_elem_of_cons in Hnot as [Hne Hnot].
  rewrite filter_cons_True by done. by rewrite IH.
Qed.

(** X15: [allocate] followed by [deallocate] of the address returned
    restores the pool.  Under the free-list partition with a free block,
    the two calls write no diagnostic, the free list starts at the same
    block and links the same blocks in the same order, the outstanding
    blocks and the usage are as before, and each of the two counters of
    calls has grown by one. *)
Theorem allocate_deallocate_restores p mem a free outstanding :
  partition p mem (a :: free) outstanding →
  ∃ p1 p2 mem2,
    allocate p mem = Ok (a, [], p1)
    ∧ deallocate a p1 mem = ([], p2, mem2)
    ∧ free_list_ p2 = free_list_ p
    ∧ current_usage_ p2 = current_usage_ p
    ∧ allocations_ p2 = size_incr (allocations_ p)
    ∧ deallocations_ p2 = size_incr (deallocations_ p)
    ∧ partition p2 mem2 (a :: free) outstanding.
Proof.
  intros Hpart.
  pose proof (part_arena _ _ _ _ Hpart) as Harena.
  assert (a ∉ outstanding) as Hout.
  { pose proof (part_nodup _ _ _ _ Hpart) as Hnodup. simpl in Hnodup.
    apply NoDup_cons in Hnodup as [Hnot _]. set_solver. }
  assert (is_block p a) as Hblock.
  { apply (part_blocks _ _ _ _ Hpart). set_solver. }
  destruct (block_in_arena _ _ Harena Hblock) as [Hin _].
  assert (free_list_ p = a) as Hhead
    by (by destruct (part_chain _ _ _ _ Hpart) as (? & _)).
  unfold allocate. rewrite Hhead.
  destruct (part_chain _ _ _ _ Hpart) as (_ & Hne & next & Hload & Hchain).
  rewrite (proj2 (Z.eqb_neq _ _) Hne), Hload. simpl.
  set (p1 := {| memory_start_ := memory_start_ p |}).
  assert (partition p1 mem free (a :: outstanding)) as Hpart1.
  { destruct (allocate_partition _ _ _ _ _ Hpart) as (p' & Halloc & Hpart' & _).
    unfold allocate in Halloc. rewrite Hhead in Halloc.
    rewrite (proj2 (Z.eqb_neq _ _) Hne), Hload in Halloc. simpl in Halloc.
    by injection Halloc as <-. }
  assert (arena_ok p1) as Harena1 by exact (part_arena _ _ _ _ Hpart1).
  assert (a ∈ a :: outstanding) as Hin1 by apply list_elem_of_here.
  destruct (deallocate_partition p1 mem a free (a :: outstanding) Hpart1 Hin1)
    as (p2 & mem2 & Hdealloc & _ & Hpart2).
  rewrite filter_ne_cons_notin in Hpart2 by done.
  exists p1, p2, mem2. split; [reflexivity|]. split; [exact Hdealloc|].
  rewrite (deallocate_inside a p1 mem Harena1 Hin) in Hdealloc.
  injection Hdealloc as <- <-.
  split; [done|]. split.
  { rewrite (part_usage _ _ _ _ Hpart2), (part_usage _ _ _ _ Hpart). done. }
  done.
Qed.

(** X16: the free list is a stack.  Under the free-list partition,
    [deallocate] of an outstanding block followed by [allocate] returns
    that same block, and leaves the free list, the set of outstanding
    blocks and the usage as they were before the two calls. *)
Theorem deallocate_allocate_same_block p mem a free outstanding :
  partition p mem free outstanding →
  a ∈ outstanding →
  ∃ p1 mem1 p2 outstanding',
    deallocate a p mem = ([], p1, mem1)
    ∧ allocate p1 mem1 = Ok (a, [], p2)
    ∧ free_list_ p2 = free_list_ p
    ∧ current_usage_ p2 = current_usage_ p
    ∧ outstanding' ≡ₚ outstanding
    ∧ partition p2 mem1 free outstanding'.
Proof.
  intros Hpart Hin.
  destruct (deallocate_partition _ _ _ _ _ Hpart Hin)
    as (p1 & mem1 & Hdealloc & _ & Hpart1).
  destruct (allocate_partition _ _ _ _ _ Hpart1)
    as (p2 & Halloc & Hpart2 & _).
  assert (NoDup outstanding) as Hnodup.
  { pose proof (part_nodup _ _ _ _ Hpart) as H. by apply NoDup_app in H as (_ & _ & ?). }
  pose proof (NoDup_filter_ne a outstanding Hnodup Hin) as Hperm.
  exists p1, mem1, p2, (a :: filter (λ b, b ≠ a) outstanding).
  do 2 (split; [done|]). split.
  { destruct free as [|b free'].
    - rewrite (part_chain _ _ _ _ Hpart2). symmetry. exact (part_chain _ _ _ _ Hpart).
    - destruct (part_chain _ _ _ _ Hpart2) as (-> & _).
      by destruct (part_chain _ _ _ _ Hpart) as (-> & _). }
  split.
  { rewrite (part_usage _ _ _ _ Hpart2), (part_usage _ _ _ _ Hpart).
    f_equal. symmetry. by apply Permutation_length. }
  split; [by symmetry | done].
Qed.

(** ** Giving every block back *)

Lemma deallocate_all_partition ptrs : ∀ p mem free outstanding rest,
  partition p mem free outstanding →
  outstanding ≡ₚ ptrs ++ rest →
  ∃ p' mem',
    deallocate_all ptrs p mem = ([], p', mem')
    ∧ partition p' mem' (reverse ptrs ++ free) rest
    ∧ block_count_ p' = block_count_ p.
Proof.
  induction ptrs as [|a ptrs IH]; intros p mem free outstanding rest Hpart Hperm.
  - exists p, mem. split; [done|]. split; [|done].
    simpl in *. destruct Hpart as [Ha Hc Hn Hb Hcnt Hu]. split; try done.
    + by rewrite <- Hperm.
    + intros b Hb'. apply Hb. by rewrite Hperm.
    + by rewrite <- Hperm.
    + by rewrite <- Hperm.
  - assert (a ∈ outstanding) as Hin.
    { rewrite Hperm. apply list_elem_of_here. }
    destruct (deallocate_partition _ _ _ _ _ Hpart Hin)
      as (p1 & mem1 & Hdealloc & Hcount & Hpart1).
    assert (NoDup outstanding) as Hnodup.
    { pose proof (part_nodup _ _ _ _ Hpart) as H.
      by apply NoDup_app in H as (_ & _ & ?). }
    assert (filter (λ b, b ≠ a) outstanding ≡ₚ ptrs ++ rest) as Hperm1.
    { apply (Permutation_cons_inv (a := a)).
      rewrite <- (NoDup_filter_ne a outstanding Hnodup Hin). exact Hperm. }
    destruct (IH _ _ _ _ _ Hpart1 Hperm1) as (p' & mem' & Hall & Hpart' & Hcount').
    exists p', mem'. simpl. rewrite Hdealloc. simpl. rewrite Hall. simpl.
    split; [done|]. split; [|congruence].
    by rewrite reverse_cons, <- app_assoc.
Qed.

(** X17: giving back every block, in any order, empties the pool.  On a
    pool just built, after [n] allocations ([n] at most the block count),
    [deallocate] of the [n] addresses returned, in whatever order, writes
    no diagnostic and brings the usage back to [0]; every block of the arena
    is on the free list again, the blocks given back in front, last one
    given back first. *)
Theorem deallocate_all_empties_pool
    block_size block_count operator_new mem p mem0 (n : nat) ptrs :
  0 ≤ block_count →
  corrected_block_size block_size * block_count < SIZE_MODULUS →
  operator_new_ok operator_new →
  MemoryPool_new block_size block_count operator_new mem = Ok (p, mem0) →
  Z.of_nat n ≤ block_count →
  ptrs ≡ₚ block_address p <$> seqZ 0 (Z.of_nat n) →
  ∃ p1 p2 mem2,
    allocate_n n p mem0 = Ok (block_address p <$> seqZ 0 (Z.of_nat n), p1)
    ∧ current_usage_ p1 = Z.of_nat n
    ∧ deallocate_all ptrs p1 mem0 = ([], p2, mem2)
    ∧ current_usage_ p2 = 0
    ∧ partition p2 mem2 (reverse ptrs ++ blocks_from p (Z.of_nat n)) [].
Proof.
  intros Hcount Hsize Hnew_ok Hnew Hn Hperm.
  destruct (MemoryPool_new_partition _ _ _ _ _ _ Hcount Hsize Hnew_ok Hnew)
    as (Hpart & _ & Hbc & _).
  set (taken := block_address p <$> seqZ 0 (Z.of_nat n)) in *.
  assert (blocks p = taken ++ blocks_from p (Z.of_nat n)) as Hsplit.
  { unfold blocks, blocks_from, taken.
    replace (block_count_ p - 0) with (Z.of_nat n + (block_count_ p - Z.of_nat n)) by lia.
    rewrite seqZ_app by lia. rewrite fmap_app. by rewrite Z.add_0_l. }
  assert (length taken = n) as Hlen.
  { unfold taken. rewrite length_fmap, length_seqZ. lia. }
  rewrite Hsplit in Hpart.
  destruct (allocate_n_partition _ _ _ _ _ Hpart) as (p1 & Halloc & Hpart1).
  rewrite Hlen in Halloc. rewrite app_nil_r in Hpart1.
  assert (reverse taken ≡ₚ ptrs ++ []) as Hperm1.
  { rewrite app_nil_r, reverse_Permutation. by symmetry. }
  destruct (deallocate_all_partition ptrs _ _ _ _ [] Hpart1 Hperm1)
    as (p2 & mem2 & Hall & Hpart2 & _).
  exists p1, p2, mem2. split; [done|]. split.
  { rewrite (part_usage _ _ _ _ Hpart1), length_reverse. by rewrite Hlen. }
  split; [done|]. split; [|done].
  by rewrite (part_usage _ _ _ _ Hpart2).
Qed.

(** ** Double free *)



(** ** Where the pool writes *)

Lemma store_bytes_lookup_other n : ∀ a v mem addr,
  (addr < a ∨ a + Z.of_nat n ≤ addr) →
  store_bytes n a v mem !! addr = mem !! addr.
Proof.
  induction n as [|n IH]; intros a v mem addr Hout; [done|].
  simpl. rewrite lookup_insert_ne by lia. apply IH. lia.
Qed.

Lemma store_bytes_lookup n : ∀ a v mem i,
  0 ≤ i < Z.of_nat n →
  store_bytes n a v mem !! (a + i) = Some ((v / 256 ^ i) mod 256).
Proof.
  induction n as [|n IH]; intros a v mem i Hi; [lia|].
  simpl. destruct (decide (i = 0)) as [->|Hne].
  - rewrite Z.add_0_r, lookup_insert_eq. simpl. by rewrite Z.div_1_r.
  - rewrite lookup_insert_ne by lia.
    replace (a + i) with (a + 1 + (i - 1)) by lia.
    rewrite IH by lia. do 2 f_equal.
    rewrite Z.div_div by lia. f_equal.
    replace i with (1 + (i - 1)) at 2 by lia.
    rewrite Z.pow_add_r by lia. done.
Qed.

Lemma store_next_lookup_other a v mem addr :
  (addr < a ∨ a + sizeof_FreeBlock ≤ addr) →
  store_next a v mem !! addr = mem !! addr.
Proof. intros Hout. apply store_bytes_lookup_other. unfold sizeof_FreeBlock in *. lia. Qed.

Lemma store_next_block_frame p a v mem addr :
  arena_ok p → is_block p a →
  ¬ (memory_start_ p ≤ addr < end_of_arena p) →
  store_next a v mem !! addr = mem !! addr.
Proof.
  intros Hok Hblock Hout. apply store_next_lookup_other.
  destruct (block_within p a Hok Hblock) as [? ?].
  pose proof (arena_block_size p Hok). lia.
Qed.

Lemma init_free_list_loop_frame p n free_list mem addr :
  arena_ok p →
  Z.of_nat n ≤ block_count_ p →
  ¬ (memory_start_ p ≤ addr < end_of_arena p) →
  (init_free_list_loop n (block_size_ p)
     (ptr_wrap (block_address p (Z.of_nat n - 1))) free_list mem).2 !! addr
  = mem !! addr.
Proof.
  intros Hok Hn Hout. revert free_list mem Hn.
  induction n as [|n IH]; intros free_list mem Hn; [done|].
  simpl init_free_list_loop.
  replace (Z.of_nat (S n) - 1) with (Z.of_nat n) by lia.
  assert (is_block p (block_address p (Z.of_nat n))) as Hblk.
  { exists (Z.of_nat n). split; [lia | done]. }
  pose proof (block_in_arena p _ Hok Hblk) as [_ Hrange].
  assert (ptr_wrap (block_address p (Z.of_nat n)) = block_address p (Z.of_nat n)) as ->.
  { unfold ptr_wrap. apply Z.mod_small. lia. }
  replace (block_address p (Z.of_nat n) - block_size_ p)
    with (block_address p (Z.of_nat n - 1)) by (unfold block_address; lia).
  rewrite IH by lia. by apply (store_next_block_frame p).
Qed.

Lemma init_free_list_frame p mem addr :
  arena_ok p →
  ¬ (memory_start_ p ≤ addr < end_of_arena p) →
  (init_free_list p mem).2 !! addr = mem !! addr.
Proof.
  intros Hok Hout. pose proof Hok as [Hs Hb Hc He]. unfold sizeof_FreeBlock in Hb.
  unfold init_free_list.
  destruct (decide (block_count_ p = 0)) as [Hz|Hpos].
  { rewrite Hz. done. }
  assert (ptr_wrap (memory_start_ p
            + size_wrap (size_wrap (block_count_ p - 1) * block_size_ p))
          = ptr_wrap (block_address p (Z.of_nat (Z.to_nat (block_count_ p)) - 1))) as ->.
  { unfold block_address. rewrite Z2Nat.id by lia. f_equal. f_equal.
    unfold size_wrap.
    assert (0 ≤ (block_count_ p - 1) * block_size_ p) by (apply Z.mul_nonneg_nonneg; lia).
    assert ((block_count_ p - 1) * block_size_ p
            = block_size_ p * block_count_ p - block_size_ p) by ring.
    assert (0 ≤ (block_size_ p - 1) * block_count_ p) by (apply Z.mul_nonneg_nonneg; lia).
    assert ((block_size_ p - 1) * block_count_ p
            = block_size_ p * block_count_ p - block_count_ p) by ring.
    rewrite (Z.mod_small (block_count_ p - 1)) by lia.
    rewrite Z.mod_small by lia. done. }
  pose proof (init_free_list_loop_frame p (Z.to_nat (block_count_ p)) 0 mem addr Hok)
    as Hframe.
  destruct (init_free_list_loop _ _ _ _ _) as [fl mem1]. simpl in *.
  apply Hframe; [lia | done].
Qed.

Lemma run_partition_frame calls : ∀ p mem free outstanding,
  partition p mem free outstanding →
  disciplined calls outstanding p mem = true →
  ∃ p' mem',
    run calls p mem = Ok (p', mem')
    ∧ ∀ addr, ¬ (memory_start_ p ≤ addr < end_of_arena p) →
              mem' !! addr = mem !! addr.
Proof.
  induction calls as [|[|ptr] calls IH]; intros p mem free outstanding Hpart Hdisc.
  - simpl. eauto.
  - simpl in *. destruct free as [|a free].
    + pose proof (part_chain _ _ _ _ Hpart) as Hnull. simpl in Hnull.
      rewrite (allocate_empty p mem Hnull) in *. simpl in *. eauto.
    + destruct (allocate_partition p mem a free outstanding Hpart)
        as (p' & Halloc & Hpart' & _ & Hms & Hbs & Hbc).
      rewrite Halloc in *. simpl.
      assert (a ≠ 0) as Hnz.
      { pose proof (part_chain _ _ _ _ Hpart) as Hc. simpl in Hc. tauto. }
      destruct (Z.eqb_spec a 0); [done|].
      destruct (IH _ _ _ _ Hpart' Hdisc) as (p2 & mem2 & Hrun & Hframe).
      exists p2, mem2. split; [done|].
      unfold end_of_arena in *. by rewrite <- Hms, <- Hbs, <- Hbc.
  - simpl in *. apply andb_true_iff in Hdisc as [Hok Hdisc].
    destruct (decide (ptr = 0 ∨ is_from_pool ptr p = false)) as [Hrej|Hacc].
    + destruct (deallocate_rejected_partition p mem ptr free outstanding Hpart Hrej)
        as (Hp & Hm & Hf).
      rewrite Hp, Hm, Hf in *. eauto.
    + assert (ptr ∈ outstanding) as Hin.
      { apply orb_true_iff in Hok as [Hok|Hok]; [|by apply bool_decide_eq_true in Hok].
        apply orb_true_iff in Hok as [Hok|Hok].
        - apply bool_decide_eq_true in Hok. tauto.
        - apply negb_true_iff in Hok. tauto. }
      pose proof (part_arena _ _ _ _ Hpart) as Harena.
      assert (is_block p ptr) as Hblock.
      { apply (part_blocks _ _ _ _ Hpart). apply elem_of_app. by right. }
      destruct (block_in_arena _ _ Harena Hblock) as [Hrange _].
      destruct (deallocate_partition p mem ptr free outstanding Hpart Hin)
        as (p' & mem' & Hde & Hbc & Hpart').
      rewrite Hde in *. simpl in *.
      rewrite (deallocate_inside ptr p mem Harena Hrange) in Hde.
      injection Hde as <- <-.
      destruct (IH _ _ _ _ Hpart' Hdisc) as (p2 & mem2 & Hrun & Hframe).
      exists p2, mem2. split; [done|]. intros addr Hout.
      rewrite Hframe by done. by apply (store_next_block_frame p).
Qed.

(** X19: a pool used as intended writes inside its arena only.  The
    constructor and any sequence of calls that keeps the caller's obligation
    leave every byte of memory outside
    [memory_start_, memory_start_ + block_size_ * block_count_) as it was
    before the pool was built. *)
Theorem pool_writes_stay_in_arena
    block_size block_count operator_new mem calls p mem0 :
  0 ≤ block_count →
  corrected_block_size block_size * block_count < SIZE_MODULUS →
  operator_new_ok operator_new →
  MemoryPool_new block_size block_count operator_new mem = Ok (p, mem0) →
  disciplined calls [] p mem0 = true →
  ∃ p' mem',
    run calls p mem0 = Ok (p', mem')
    ∧ ∀ addr, ¬ (memory_start_ p ≤ addr < end_of_arena p) →
              mem' !! addr = mem !! addr.
Proof.
  intros Hcount Hsize Hnew_ok Hnew Hdisc.
  destruct (MemoryPool_new_partition _ _ _ _ _ _ Hcount Hsize Hnew_ok Hnew)
    as (Hpart & _).
  destruct (run_partition_frame calls _ _ _ _ Hpart Hdisc)
    as (p' & mem' & Hrun & Hframe).
  exists p', mem'. split; [done|]. intros addr Hout.
  rewrite Hframe by done.
  pose proof (part_arena _ _ _ _ Hpart) as Harena.
  revert Hnew. unfold MemoryPool_new.
  destruct (operator_new _) as [start|]; [|done].
  destruct (start =? 0); [done|].
  set (p0 := {| memory_start_ := start |}).
  intros [= Hinit].
  assert (memory_start_ p = start ∧ block_size_ p = block_size_ p0
          ∧ block_count_ p = block_count_ p0) as (Hs & Hb & Hc).
  { revert Hinit. unfold init_free_list.
    destruct (init_free_list_loop _ _ _ _ _) as [fl mem1].
    by intros [= <- <-]. }
  assert (arena_ok p0) as Harena0.
  { destruct Harena as [H1 H2 H3 H4]. rewrite Hs, Hb, Hc in *.
    by split. }
  replace mem0 with (init_free_list p0 mem).2 by (by rewrite Hinit).
  apply init_free_list_frame; [done|].
  unfold end_of_arena in *. rewrite Hs, Hb, Hc in Hout. done.
Qed.

(** X20: [deallocate] can write past the end of the arena.  The range
    check accepts every address inside the arena; for an address less than
    [sizeof(FreeBlock)] bytes before the end of the arena, the call is
    accepted without a diagnostic and the store of the [next] pointer
    reaches the first byte after the arena, which receives one of the bytes
    of the old head of the free list, whatever that byte held. *)
Theorem deallocate_near_end_writes_past_arena ptr p mem :
  arena_ok p →
  memory_start_ p ≤ ptr →
  end_of_arena p - sizeof_FreeBlock < ptr < end_of_arena p →
  ∃ p' mem',
    deallocate ptr p mem = ([], p', mem')
    ∧ free_list_ p' = ptr
    ∧ mem' !! end_of_arena p
      = Some ((free_list_ p / 256 ^ (end_of_arena p - ptr)) mod 256).
Proof.
  intros Harena Hstart Hnear. unfold end_of_arena, sizeof_FreeBlock in *.
  rewrite (deallocate_inside ptr p mem Harena) by lia.
  do 2 eexists. split; [reflexivity|]. split; [done|].
  unfold store_next.
  replace (memory_start_ p + block_size_ p * block_count_ p)
    with (ptr + (memory_start_ p + block_size_ p * block_count_ p - ptr)) at 1 by lia.
  apply store_bytes_lookup. unfold sizeof_FreeBlock. lia.
Qed.

(** ** [print_stats] *)

(** X21: the statistics agree with the free list.  Under the free-list
    partition, the number of free blocks written by [print_stats] is the
    number of blocks the free list links, the number of used blocks is the
    number of outstanding blocks, and the two add up to the total. *)
Theorem print_stats_counts_free_list p mem free outstanding :
  partition p mem free outstanding →
  free_blocks (print_stats p) = Z.of_nat (length free)
  ∧ used_blocks (print_stats p) = Z.of_nat (length outstanding)
  ∧ used_blocks (print_stats p) + free_blocks (print_stats p)
    = total_blocks (print_stats p).
Proof.
  intros Hpart. pose proof (part_count _ _ _ _ Hpart) as Hcount.
  pose proof (part_usage _ _ _ _ Hpart) as Husage.
  pose proof (partition_block_count _ _ _ _ Hpart) as Hbound.
  unfold print_stats. simpl.
  assert (size_wrap (block_count_ p - current_usage_ p) = Z.of_nat (length free)) as ->.
  { unfold size_wrap. rewrite Z.mod_small; lia. }
  lia.
Qed.

(** X22: a pool of no blocks.  A pool built with a block count of [0]
    never changes: every [allocate] reports exhaustion, every [deallocate]
    is ignored or rejected, whatever the address, and the usage percentage
    of [print_stats], the quotient of [0.0] by [0.0], is not a number. *)
Theorem empty_pool_is_inert block_size operator_new mem p mem0 calls :
  operator_new_ok operator_new →
  MemoryPool_new block_size 0 operator_new mem = Ok (p, mem0) →
  run calls p mem0 = Ok (p, mem0)
  ∧ (∀ ptr, (deallocate ptr p mem0).1.1
            = if ptr =? 0 then [] else [not_from_pool])
  ∧ allocate p mem0 = Ok (0, [pool_exhausted], p)
  ∧ usage_percent (print_stats p) = S754_nan.
Proof.
  intros Hnew_ok Hnew.
  destruct (MemoryPool_new_partition _ 0 _ _ _ _ ltac:(done)
              ltac:(by rewrite Z.mul_0_r, SIZE_MODULUS_eq) Hnew_ok Hnew)
    as (Hpart & _ & Hbc & _).
  pose proof (part_arena _ _ _ _ Hpart) as Harena.
  assert (free_list_ p = 0) as Hhead.
  { pose proof (part_chain _ _ _ _ Hpart) as Hchain.
    unfold blocks, blocks_from in Hchain. rewrite Hbc in Hchain. exact Hchain. }
  assert (∀ ptr, is_from_pool ptr p = false) as Hout.
  { intros ptr. apply not_true_is_false.
    rewrite (is_from_pool_spec ptr p Harena), Hbc. lia. }
  assert (∀ ptr, deallocate ptr p mem0
                 = (if ptr =? 0 then [] else [not_from_pool], p, mem0)) as Hde.
  { intros ptr. unfold deallocate. rewrite Hout. by destruct (ptr =? 0). }
  split_and!.
  - induction calls as [|[|ptr] calls IH]; simpl; [done| |].
    + by rewrite (allocate_empty p mem0 Hhead).
    + by rewrite Hde.
  - intros ptr. by rewrite Hde.
  - by apply allocate_empty.
  - unfold print_stats. simpl.
    rewrite (part_usage _ _ _ _ Hpart), Hbc. reflexivity.
Qed.

(** ** The size of the arena *)




(** ** What is left to allocate *)

(** X23: the pool hands out exactly the blocks it has left.  Under the
    free-list partition there are [block_count_ - current_usage_] free
    blocks; that many calls of [allocate] succeed and return the blocks of
    the free list in its order, the pool is then full, and the next call
    reports exhaustion. *)
Theorem remaining_allocations p mem free outstanding :
  partition p mem free outstanding →
  Z.of_nat (length free) = block_count_ p - current_usage_ p
  ∧ ∃ p',
      allocate_n (length free) p mem = Ok (free, p')
      ∧ current_usage_ p' = block_count_ p
      ∧ allocate p' mem = Ok (0, [pool_exhausted], p').
Proof.
  intros Hpart. split.
  { pose proof (part_count _ _ _ _ Hpart). pose proof (part_usage _ _ _ _ Hpart). lia. }
  rewrite <- (app_nil_r free) in Hpart.
  destruct (allocate_n_partition _ _ _ _ _ Hpart) as (p' & Halloc & Hpart').
  exists p'. split; [done|]. split.
  - rewrite (part_usage _ _ _ _ Hpart'), <- (part_count _ _ _ _ Hpart).
    rewrite !length_app, length_reverse. simpl. lia.
  - apply allocate_empty. exact (part_chain _ _ _ _ Hpart').
Qed.

End Pool_more.

(** ** Instances on a pool of 3 blocks of 64 bytes *)

Section Pool_examples.
Import Pool.

Lemma fresh_demo_partition :
  partition fresh_demo_pool fresh_demo_mem [4096; 4160; 4224] [].
Proof.
  destruct (MemoryPool_new_partition 64 3 demo_operator_new ∅
              fresh_demo_pool fresh_demo_mem) as (Hpart & _).
  - lia.
  - by vm_compute.
  - exact demo_operator_new_ok.
  - exact fresh_demo_new.
  - exact Hpart.
Qed.

Lemma one_out_demo_partition :
  allocate fresh_demo_pool fresh_demo_mem = Ok (4096, [], one_out_demo_pool)
  ∧ partition one_out_demo_pool fresh_demo_mem [4160; 4224] [4096].
Proof.
  destruct (allocate_partition _ _ _ _ _ fresh_demo_partition)
    as (p' & Halloc & Hpart & _).
  assert (allocate fresh_demo_pool fresh_demo_mem
          = Ok (4096, [], one_out_demo_pool)) as Heq by (vm_compute; reflexivity).
  rewrite Heq in Halloc. injection Halloc as <-. done.
Qed.

Lemma empty_operator_new_ok : operator_new_ok empty_operator_new.
Proof.
  intros n a. unfold empty_operator_new.
  destruct (Z.eqb_spec n 0) as [->|]; [|done].
  intros [= <-]. rewrite SIZE_MODULUS_eq. lia.
Qed.

Lemma usage_is_allocations_minus_deallocations_witness :
  MemoryPool_new 64 3 demo_operator_new ∅ = Ok (fresh_demo_pool, fresh_demo_mem)
  ∧ run double_free_calls fresh_demo_pool fresh_demo_mem
    = Ok (double_free_pool, double_free_mem)
  ∧ current_usage_ double_free_pool
    = size_wrap (allocations_ double_free_pool - deallocations_ double_free_pool).
Proof.
  assert (run double_free_calls fresh_demo_pool fresh_demo_mem
          = Ok (double_free_pool, double_free_mem)) as Hrun
    by (vm_compute; reflexivity).
  split; [exact fresh_demo_new|]. split; [exact Hrun|].
  exact (proj1 (usage_is_allocations_minus_deallocations 64 3 demo_operator_new ∅
                  double_free_calls fresh_demo_pool fresh_demo_mem
                  double_free_pool double_free_mem fresh_demo_new Hrun)).
Defined.

Lemma allocate_returns_free_block_witness :
  partition one_out_demo_pool fresh_demo_mem [4160; 4224] [4096]
  ∧ current_usage_ one_out_demo_pool < block_count_ one_out_demo_pool
  ∧ ∃ p', allocate one_out_demo_pool fresh_demo_mem = Ok (4160, [], p')
          ∧ 4160 + 64 ≤ end_of_arena one_out_demo_pool
          ∧ (4096 + 64 ≤ 4160 ∨ 4160 + 64 ≤ 4096)
          ∧ current_usage_ p' = 2.
Proof.
  destruct one_out_demo_partition as [_ Hpart].
  assert (current_usage_ one_out_demo_pool < block_count_ one_out_demo_pool)
    as Hlt by (by vm_compute).
  split; [exact Hpart|]. split; [exact Hlt|].
  destruct (allocate_returns_free_block _ _ _ _ Hpart Hlt)
    as (a & p' & Halloc & _ & _ & _ & Hend & _ & Hapart & Husage & _).
  assert (a = 4160) as ->.
  { vm_compute in Halloc. by injection Halloc as <- _. }
  exists p'. split; [exact Halloc|]. split; [exact Hend|].
  split; [apply Hapart; left | exact Husage].
Defined.

Lemma exhausted_iff_full_witness :
  partition fresh_demo_pool fresh_demo_mem [4096; 4160; 4224] []
  ∧ (allocate fresh_demo_pool fresh_demo_mem
       = Ok (0, [pool_exhausted], fresh_demo_pool)
     ↔ current_usage_ fresh_demo_pool = block_count_ fresh_demo_pool).
Proof.
  split; [exact fresh_demo_partition|].
  exact (exhausted_iff_full _ _ _ _ fresh_demo_partition).
Defined.

Lemma allocate_deallocate_restores_witness :
  partition fresh_demo_pool fresh_demo_mem [4096; 4160; 4224] []
  ∧ ∃ p1 p2 mem2,
      allocate fresh_demo_pool fresh_demo_mem = Ok (4096, [], p1)
      ∧ deallocate 4096 p1 fresh_demo_mem = ([], p2, mem2)
      ∧ free_list_ p2 = 4096
      ∧ current_usage_ p2 = 0.
Proof.
  split; [exact fresh_demo_partition|].
  destruct (allocate_deallocate_restores _ _ _ _ _ fresh_demo_partition)
    as (p1 & p2 & mem2 & Halloc & Hde & Hhead & Husage & _).
  exists p1, p2, mem2. split; [exact Halloc|]. split; [exact Hde|].
  split; [exact Hhead | exact Husage].
Defined.

Lemma deallocate_allocate_same_block_witness :
  partition one_out_demo_pool fresh_demo_mem [4160; 4224] [4096]
  ∧ 4096 ∈ [4096]
  ∧ ∃ p1 mem1 p2,
      deallocate 4096 one_out_demo_pool fresh_demo_mem = ([], p1, mem1)
      ∧ allocate p1 mem1 = Ok (4096, [], p2)
      ∧ free_list_ p2 = 4160
      ∧ current_usage_ p2 = 1.
Proof.
  destruct one_out_demo_partition as [_ Hpart].
  assert (4096 ∈ [4096]) as Hin by left.
  split; [exact Hpart|]. split; [exact Hin|].
  destruct (deallocate_allocate_same_block _ _ _ _ _ Hpart Hin)
    as (p1 & mem1 & p2 & outs & Hde & Halloc & Hhead & Husage & _).
  exists p1, mem1, p2. split; [exact Hde|]. split; [exact Halloc|].
  split; [exact Hhead | exact Husage].
Defined.

Lemma deallocate_all_empties_pool_witness :
  0 ≤ 3
  ∧ corrected_block_size 64 * 3 < SIZE_MODULUS
  ∧ operator_new_ok demo_operator_new
  ∧ MemoryPool_new 64 3 demo_operator_new ∅ = Ok (fresh_demo_pool, fresh_demo_mem)
  ∧ Z.of_nat 2 ≤ 3
  ∧ [4160; 4096] ≡ₚ block_address fresh_demo_pool <$> seqZ 0 (Z.of_nat 2)
  ∧ ∃ p1 p2 mem2,
      allocate_n 2 fresh_demo_pool fresh_demo_mem = Ok ([4096; 4160], p1)
      ∧ deallocate_all [4160; 4096] p1 fresh_demo_mem = ([], p2, mem2)
      ∧ current_usage_ p2 = 0.
Proof.
  assert (0 ≤ 3) as Hcount by lia.
  assert (corrected_block_size 64 * 3 < SIZE_MODULUS) as Hsize by (by vm_compute).
  assert (Z.of_nat 2 ≤ 3) as Hn by lia.
  assert ([4160; 4096] ≡ₚ block_address fresh_demo_pool <$> seqZ 0 (Z.of_nat 2))
    as Hperm by apply perm_swap.
  split; [exact Hcount|]. split; [exact Hsize|].
  split; [exact demo_operator_new_ok|]. split; [exact fresh_demo_new|].
  split; [exact Hn|]. split; [exact Hperm|].
  destruct (deallocate_all_empties_pool 64 3 demo_operator_new ∅
              fresh_demo_pool fresh_demo_mem 2 [4160; 4096]
              Hcount Hsize demo_operator_new_ok fresh_demo_new Hn Hperm)
    as (p1 & p2 & mem2 & Halloc & _ & Hall & Husage & _).
  exists p1, p2, mem2. split; [exact Halloc|]. split; [exact Hall | exact Husage].
Defined.


Lemma pool_writes_stay_in_arena_witness :
  0 ≤ 3
  ∧ corrected_block_size 64 * 3 < SIZE_MODULUS
  ∧ operator_new_ok demo_operator_new
  ∧ MemoryPool_new 64 3 demo_operator_new ∅ = Ok (fresh_demo_pool, fresh_demo_mem)
  ∧ disciplined disciplined_calls [] fresh_demo_pool fresh_demo_mem = true
  ∧ ∃ p' mem',
      run disciplined_calls fresh_demo_pool fresh_demo_mem = Ok (p', mem')
      ∧ mem' !! 4095 = None
      ∧ mem' !! 4288 = None.
Proof.
  assert (0 ≤ 3) as Hcount by lia.
  assert (corrected_block_size 64 * 3 < SIZE_MODULUS) as Hsize by (by vm_compute).
  assert (disciplined disciplined_calls [] fresh_demo_pool fresh_demo_mem = true)
    as Hdisc by (vm_compute; reflexivity).
  split; [exact Hcount|]. split; [exact Hsize|].
  split; [exact demo_operator_new_ok|]. split; [exact fresh_demo_new|].
  split; [exact Hdisc|].
  destruct (pool_writes_stay_in_arena 64 3 demo_operator_new ∅ disciplined_calls
              fresh_demo_pool fresh_demo_mem
              Hcount Hsize demo_operator_new_ok fresh_demo_new Hdisc)
    as (p' & mem' & Hrun & Hframe).
  exists p', mem'. split; [exact Hrun|]. split.
  - rewrite Hframe; [done|]. vm_compute. intros [Hlo _]. by apply Hlo.
  - rewrite Hframe; [done|]. vm_compute. intros [_ Hhi]. discriminate.
Defined.

Lemma deallocate_near_end_writes_past_arena_witness :
  arena_ok fresh_demo_pool
  ∧ memory_start_ fresh_demo_pool ≤ 4287
  ∧ end_of_arena fresh_demo_pool - sizeof_FreeBlock < 4287
    < end_of_arena fresh_demo_pool
  ∧ ∃ p' mem',
      deallocate 4287 fresh_demo_pool fresh_demo_mem = ([], p', mem')
      ∧ fresh_demo_mem !! 4288 = None
      ∧ mem' !! 4288 = Some 16.
Proof.
  pose proof (part_arena _ _ _ _ fresh_demo_partition) as Harena.
  assert (memory_start_ fresh_demo_pool ≤ 4287) as Hstart by (by vm_compute).
  assert (end_of_arena fresh_demo_pool - sizeof_FreeBlock < 4287
          < end_of_arena fresh_demo_pool) as Hnear by (by vm_compute).
  split; [exact Harena|]. split; [exact Hstart|]. split; [exact Hnear|].
  destruct (deallocate_near_end_writes_past_arena 4287 fresh_demo_pool
              fresh_demo_mem Harena Hstart Hnear)
    as (p' & mem' & Hde & _ & Hbyte).
  exists p', mem'. split; [exact Hde|]. split; [by vm_compute|].
  exact Hbyte.
Defined.

Lemma print_stats_counts_free_list_witness :
  partition one_out_demo_pool fresh_demo_mem [4160; 4224] [4096]
  ∧ free_blocks (print_stats one_out_demo_pool) = 2
  ∧ used_blocks (print_stats one_out_demo_pool) = 1.
Proof.
  destruct one_out_demo_partition as [_ Hpart].
  split; [exact Hpart|].
  destruct (print_stats_counts_free_list _ _ _ _ Hpart) as (Hfree & Hused & _).
  split; [exact Hfree | exact Hused].
Defined.

Lemma empty_pool_is_inert_witness :
  operator_new_ok empty_operator_new
  ∧ MemoryPool_new 64 0 empty_operator_new ∅ = Ok (empty_demo_pool, ∅)
  ∧ run [Allocate; Deallocate 4096; Deallocate 0; Allocate] empty_demo_pool ∅
    = Ok (empty_demo_pool, ∅)
  ∧ usage_percent (print_stats empty_demo_pool) = S754_nan.
Proof.
  assert (MemoryPool_new 64 0 empty_operator_new ∅ = Ok (empty_demo_pool, ∅))
    as Hnew by reflexivity.
  split; [exact empty_operator_new_ok|]. split; [exact Hnew|].
  destruct (empty_pool_is_inert 64 empty_operator_new ∅ empty_demo_pool ∅
              [Allocate; Deallocate 4096; Deallocate 0; Allocate]
              empty_operator_new_ok Hnew)
    as (Hrun & _ & _ & Hnan).
  split; [exact Hrun | exact Hnan].
Defined.

Lemma remaining_allocations_witness :
  partition one_out_demo_pool fresh_demo_mem [4160; 4224] [4096]
  ∧ ∃ p',
      allocate_n 2 one_out_demo_pool fresh_demo_mem = Ok ([4160; 4224], p')
      ∧ current_usage_ p' = 3
      ∧ allocate p' fresh_demo_mem = Ok (0, [pool_exhausted], p').
Proof.
  destruct one_out_demo_partition as [_ Hpart].
  split; [exact Hpart|].
  destruct (remaining_allocations _ _ _ _ Hpart) as (_ & p' & Halloc & Husage & Hfull).
  exists p'. split; [exact Halloc|]. split; [exact Husage | exact Hfull].
Defined.


End Pool_examples.
